(** * BIMIBOX_FRONT: calibration, transform pipeline, path conditioning, pose sync

    A shallow embedding of the numerical core of the front end, one module per
    source file:

    - [src/lib/kalman_filter.js]            module [Kalman]
    - [src/lib/pano_helpers.js]             module [PanoHelpers]
    - [src/store/syncStore.js]              module [SyncStore]
    - [src/utils/camera_transformation.js]  modules [Quat] and [Boundary]
    - [src/utils/calibratePanoToForge.js]   module [Calibrate]
    - [src/lib/forge_helpers.js]            module [ForgeHelpers]

    with the pitch composition of [src/components/ForgeViewer.jsx] in [Quat].
    The definitions come first; the statements about them follow under
    "Theorems", in modules named after the module they are about.

    JavaScript numbers are idealised as real numbers: [+ - * /] are the field
    operations of [R], [Math.sqrt] and [Math.hypot] are [sqrt], comparisons are
    the order of [R].  Rounding, overflow, NaN and the infinities are outside
    the model; where the source relies on one of them (an [undefined] operand,
    [Infinity] as an initial minimum) the embedding says so next to the
    definition.  A quotient of [R] is the source's quotient only where the
    divisor is not zero (the source then gives [Infinity] or [NaN], [R] gives
    0): a statement that depends on a quotient names the divisor and takes it
    non-zero by hypothesis.  For the Kalman filter the non-finite values are
    modelled as well, in [Js] and [KalmanJs], and [KalmanProofs.update_finite]
    relates the two models.

    The library routines the code calls are taken by their contract: the
    singular value decomposition ([SVD] of ml-matrix, [numeric.svd]) is a
    function argument of the solvers, constrained by [Mat3.is_svd] in the
    statements; [Math.random] is a sequence of draws; [Date.now] and
    [requestAnimationFrame] are arguments of the store actions. *)

From Stdlib Require Import String Reals Lra Lia ZArith Bool List Psatz.
Import ListNotations.
Open Scope R_scope.

(** ** JavaScript numbers *)

Module Num.

(** [a < b] as the boolean a JavaScript comparison produces. *)
Definition ltb (a b : R) : bool := if Rlt_dec a b then true else false.

Definition eqb (a b : R) : bool := if Req_dec_T a b then true else false.

(** [Math.hypot] on three arguments. *)
Definition hypot3 (a b c : R) : R := sqrt (a * a + b * b + c * c).

(** [Math.hypot] on two arguments. *)
Definition hypot2 (a b : R) : R := sqrt (a * a + b * b).

End Num.

(** An object [{x, y, z}]. *)
Record Point3 : Type := mkPoint3 { px : R; py : R; pz : R }.

(** ** [src/lib/kalman_filter.js] *)

Module Kalman.

Record KalmanFilter3D : Type := mkKF {
  processNoise : R;
  measurementNoise : R;
  x : Point3;
  p : Point3;
  initd : bool
}.

(** [constructor(pn = 1e-3, mn = 1e-2)]: an omitted argument is [None]. *)
Definition new (pn mn : option R) : KalmanFilter3D :=
  {| processNoise := match pn with Some v => v | None => 1 / 1000 end;
     measurementNoise := match mn with Some v => v | None => 1 / 100 end;
     x := mkPoint3 0 0 0;
     p := mkPoint3 1 1 1;
     initd := false |}.

(** [init(m)]: [this.x = {...m}; this.p = {x:1,y:1,z:1}; this.initd = true]. *)
Definition init (m : Point3) (kf : KalmanFilter3D) : KalmanFilter3D :=
  {| processNoise := processNoise kf;
     measurementNoise := measurementNoise kf;
     x := m;
     p := mkPoint3 1 1 1;
     initd := true |}.

(** [update(m)]: the new filter state and the returned copy of [this.x].
    The three gains are quotients of [R]: they are the source's gains where
    [divisors m kf0] below has no zero component. *)
Definition update (m : Point3) (kf0 : KalmanFilter3D) : KalmanFilter3D * Point3 :=
  let kf := if initd kf0 then kf0 else init m kf0 in
  let pn := processNoise kf in
  let mn := measurementNoise kf in
  let p1 := mkPoint3 (px (p kf) + pn) (py (p kf) + pn) (pz (p kf) + pn) in
  let kx := px p1 / (px p1 + mn) in
  let ky := py p1 / (py p1 + mn) in
  let kz := pz p1 / (pz p1 + mn) in
  let x1 := mkPoint3 (px (x kf) + kx * (px m - px (x kf)))
                     (py (x kf) + ky * (py m - py (x kf)))
                     (pz (x kf) + kz * (pz m - pz (x kf))) in
  let p2 := mkPoint3 ((1 - kx) * px p1) ((1 - ky) * py p1) ((1 - kz) * pz p1) in
  ({| processNoise := pn; measurementNoise := mn;
      x := x1; p := p2; initd := initd kf |}, x1).

(** [sg.map(p => kf.update(p))]: the filter threaded over a sequence. *)
Fixpoint run (kf : KalmanFilter3D) (ms : list Point3) : list Point3 :=
  match ms with
  | [] => []
  | m :: ms' => let '(kf', out) := update m kf in out :: run kf' ms'
  end.

(** The divisors of the three gains of [update m kf0],
    [this.p.x + this.measurementNoise] and its two siblings. *)
Definition divisors (m : Point3) (kf0 : KalmanFilter3D) : R * R * R :=
  let kf := if initd kf0 then kf0 else init m kf0 in
  let pn := processNoise kf in
  let mn := measurementNoise kf in
  (px (p kf) + pn + mn, py (p kf) + pn + mn, pz (p kf) + pn + mn).

End Kalman.

(** ** JavaScript numbers with their non-finite values

    A number is a real, an infinity or NaN, with the arithmetic of IEEE 754
    on them.  Rounding and overflow are left out as before, and the sign of
    a zero is not tracked: a zero divisor counts as [+0], so that a non-zero
    dividend over zero is the infinity of the dividend's sign. *)

Module Js.
Import Num.

Inductive num : Type :=
| Fin (r : R)
| PInf
| NInf
| NaN.

Definition neg (a : num) : num :=
  match a with
  | Fin x => Fin (- x)
  | PInf => NInf
  | NInf => PInf
  | NaN => NaN
  end.

(** [a + b]: opposite infinities add up to NaN. *)
Definition add (a b : num) : num :=
  match a, b with
  | NaN, _ | _, NaN => NaN
  | Fin x, Fin y => Fin (x + y)
  | PInf, NInf | NInf, PInf => NaN
  | PInf, _ | _, PInf => PInf
  | NInf, _ | _, NInf => NInf
  end.

(** [a - b]. *)
Definition sub (a b : num) : num := add a (neg b).

(** The infinity of the sign of a non-zero [x]. *)
Definition inf_of (x : R) : num := if ltb 0 x then PInf else NInf.

(** [a * b]: zero times an infinity is NaN. *)
Definition mul (a b : num) : num :=
  match a, b with
  | NaN, _ | _, NaN => NaN
  | Fin x, Fin y => Fin (x * y)
  | Fin x, PInf | PInf, Fin x => if eqb x 0 then NaN else inf_of x
  | Fin x, NInf | NInf, Fin x => if eqb x 0 then NaN else inf_of (- x)
  | PInf, PInf | NInf, NInf => PInf
  | PInf, NInf | NInf, PInf => NInf
  end.

(** [a / b]: zero over zero and an infinity over an infinity are NaN, a
    non-zero number over zero is an infinity. *)
Definition div (a b : num) : num :=
  match a, b with
  | NaN, _ | _, NaN => NaN
  | Fin x, Fin y =>
      if eqb y 0 then (if eqb x 0 then NaN else inf_of x) else Fin (x / y)
  | Fin _, PInf | Fin _, NInf => Fin 0
  | PInf, Fin y => if ltb y 0 then NInf else PInf
  | NInf, Fin y => if ltb y 0 then PInf else NInf
  | PInf, PInf | PInf, NInf | NInf, PInf | NInf, NInf => NaN
  end.

End Js.

(** ** [src/lib/kalman_filter.js] over the numbers of [Js] *)

Module KalmanJs.
Import Js.

(** An object [{x, y, z}] of numbers that may be non-finite. *)
Record JsPoint3 : Type := mkJsPoint3 { jx : num; jy : num; jz : num }.

Record KalmanFilter3D : Type := mkKF {
  processNoise : num;
  measurementNoise : num;
  x : JsPoint3;
  p : JsPoint3;
  initd : bool
}.

(** [constructor(pn = 1e-3, mn = 1e-2)]: an omitted argument is [None]. *)
Definition new (pn mn : option num) : KalmanFilter3D :=
  {| processNoise := match pn with Some v => v | None => Fin (1 / 1000) end;
     measurementNoise := match mn with Some v => v | None => Fin (1 / 100) end;
     x := mkJsPoint3 (Fin 0) (Fin 0) (Fin 0);
     p := mkJsPoint3 (Fin 1) (Fin 1) (Fin 1);
     initd := false |}.

(** [init(m)]. *)
Definition init (m : JsPoint3) (kf : KalmanFilter3D) : KalmanFilter3D :=
  {| processNoise := processNoise kf;
     measurementNoise := measurementNoise kf;
     x := m;
     p := mkJsPoint3 (Fin 1) (Fin 1) (Fin 1);
     initd := true |}.

(** [update(m)]: the new filter state and the returned copy of [this.x]. *)
Definition update (m : JsPoint3) (kf0 : KalmanFilter3D) : KalmanFilter3D * JsPoint3 :=
  let kf := if initd kf0 then kf0 else init m kf0 in
  let pn := processNoise kf in
  let mn := measurementNoise kf in
  let p1 := mkJsPoint3 (add (jx (p kf)) pn) (add (jy (p kf)) pn) (add (jz (p kf)) pn) in
  let kx := div (jx p1) (add (jx p1) mn) in
  let ky := div (jy p1) (add (jy p1) mn) in
  let kz := div (jz p1) (add (jz p1) mn) in
  let x1 := mkJsPoint3 (add (jx (x kf)) (mul kx (sub (jx m) (jx (x kf)))))
                       (add (jy (x kf)) (mul ky (sub (jy m) (jy (x kf)))))
                       (add (jz (x kf)) (mul kz (sub (jz m) (jz (x kf))))) in
  let p2 := mkJsPoint3 (mul (sub (Fin 1) kx) (jx p1))
                       (mul (sub (Fin 1) ky) (jy p1))
                       (mul (sub (Fin 1) kz) (jz p1)) in
  ({| processNoise := pn; measurementNoise := mn;
      x := x1; p := p2; initd := initd kf |}, x1).

(** [sg.map(p => kf.update(p))]. *)
Fixpoint run (kf : KalmanFilter3D) (ms : list JsPoint3) : list JsPoint3 :=
  match ms with
  | [] => []
  | m :: ms' => let '(kf', out) := update m kf in out :: run kf' ms'
  end.

(** Finite points and filters, as they are held in this model. *)
Definition of_point (q : Point3) : JsPoint3 :=
  mkJsPoint3 (Fin (px q)) (Fin (py q)) (Fin (pz q)).

Definition of_filter (kf : Kalman.KalmanFilter3D) : KalmanFilter3D :=
  {| processNoise := Fin (Kalman.processNoise kf);
     measurementNoise := Fin (Kalman.measurementNoise kf);
     x := of_point (Kalman.x kf);
     p := of_point (Kalman.p kf);
     initd := Kalman.initd kf |}.

End KalmanJs.

(** ** [src/lib/pano_helpers.js]: path helpers *)

Module PanoHelpers.
Import Num.

Definition matrix : Type := list (list R).

(** [for (let i = lo; i <= hi; i++)] over integers. *)
Definition zrange (lo hi : Z) : list Z :=
  map (fun k => (lo + Z.of_nat k)%Z) (seq 0 (Z.to_nat (hi - lo + 1))).

(** [M.map((r, i) => f(r, i))]. *)
Definition mapi {A B : Type} (f : nat -> A -> B) (l : list A) : list B :=
  map (fun ia => f (fst ia) (snd ia)) (combine (seq 0 (length l)) l).

(** [transpose(M)]: [M.length ? M[0].map((_, i) => M.map(r => r[i])) : []]. *)
Definition transpose (M : matrix) : matrix :=
  match M with
  | [] => []
  | r0 :: _ => map (fun i => map (fun r => nth i r 0) M) (seq 0 (length r0))
  end.

(** [multiply(A, B)].  [B[0].length] is read once per row of [A], so the call
    throws a TypeError ([None]) exactly when [A] has a row and [B] has none. *)
Definition multiply (A B : matrix) : option matrix :=
  match A, B with
  | [], _ => Some []
  | _ :: _, [] => None
  | _ :: _, b0 :: _ =>
      Some (map (fun ai =>
                   map (fun j =>
                          fold_left (fun acc k => acc + nth k ai 0 * nth j (nth k B []) 0)
                                    (seq 0 (length B)) 0)
                       (seq 0 (length b0)))
                A)
  end.

(** [r[j] /= diag] for [j < n]. *)
Definition div_row (n : nat) (diag : R) (r : list R) : list R :=
  map (fun j => nth j r 0 / diag) (seq 0 n) ++ skipn n r.

(** [rk[j] -= f * ri[j]] for [j < n]. *)
Definition sub_row (n : nat) (f : R) (ri rk : list R) : list R :=
  map (fun j => nth j rk 0 - f * nth j ri 0) (seq 0 n) ++ skipn n rk.

(** One pass of the outer loop of [invert], for pivot row [i]. *)
Definition invert_step (n : nat) (AI : matrix * matrix) (i : nat) : matrix * matrix :=
  let '(A, Id) := AI in
  let aii := nth i (nth i A []) 0 in
  let diag0 := if eqb aii 0 then 1 / 10 ^ 12 else aii in
  let diag := if ltb (Rabs diag0) (1 / 10 ^ 12) then 1 / 10 ^ 12 else diag0 in
  let A1 := mapi (fun k r => if Nat.eqb k i then div_row n diag r else r) A in
  let I1 := mapi (fun k r => if Nat.eqb k i then div_row n diag r else r) Id in
  let Ai := nth i A1 [] in
  let Ii := nth i I1 [] in
  let A2 := mapi (fun k r => if Nat.eqb k i then r else sub_row n (nth i r 0) Ai r) A1 in
  let I2 := mapi (fun k r => if Nat.eqb k i then r
                             else sub_row n (nth i (nth k A1 []) 0) Ii r) I1 in
  (A2, I2).

(** [invert(M)]: Gauss-Jordan elimination without pivoting, a zero or tiny
    pivot replaced by [1e-12].  Written for the square matrices it is called
    on. *)
Definition invert (M : matrix) : matrix :=
  let n := length M in
  match n with
  | O => []
  | _ =>
      let Id := mapi (fun i r => mapi (fun j _ => if Nat.eqb i j then 1 else 0) r) M in
      snd (fold_left (invert_step n) (seq 0 n) (M, Id))
  end.

Definition dist3 (a b : Point3) : R :=
  hypot3 (px a - px b) (py a - py b) (pz a - pz b).

(** The default arguments: [minDist = 0.05], [windowSize = 11],
    [polyOrder = 3]. *)
Definition default_minDist : R := 5 / 100.
Definition default_windowSize : Z := 11.
Definition default_polyOrder : Z := 3.

(** One iteration of the loop of [fixOverlappingPoints].  [fixed] is carried
    with its last element first; [rng] is the sequence of values drawn from
    [Math.random()] and [c] the number of values drawn so far. *)
Definition fix_step (rng : nat -> R) (minDist : R)
    (st : list Point3 * nat) (curr : Point3) : list Point3 * nat :=
  let '(fixed, c) := st in
  match fixed with
  | [] => ([curr], c)
  | prev :: rest =>
      let d := hypot3 (px curr - px prev) (py curr - py prev) (pz curr - pz prev) in
      if ltb d minDist then
        let '(dir, c') :=
          if ltb d (1 / 10 ^ 6)
          then (mkPoint3 (rng c - 5 / 10) (rng (S c) - 5 / 10) (rng (S (S c)) - 5 / 10),
                S (S (S c)))
          else (mkPoint3 ((px curr - px prev) / d) ((py curr - py prev) / d)
                         ((pz curr - pz prev) / d), c) in
        let mid := mkPoint3 ((px prev + px curr) / 2) ((py prev + py curr) / 2)
                            ((pz prev + pz curr) / 2) in
        let h := minDist / 2 in
        (mkPoint3 (px mid + px dir * h) (py mid + py dir * h) (pz mid + pz dir * h)
           :: mkPoint3 (px mid - px dir * h) (py mid - py dir * h) (pz mid - pz dir * h)
           :: rest, c')
      else (curr :: fixed, c)
  end.

(** [fixOverlappingPoints(points, minDist)]. *)
Definition fixOverlappingPoints (rng : nat -> R) (points : list Point3) (minDist : R)
  : list Point3 :=
  match points with
  | [] => points
  | [_] => points
  | p0 :: rest => rev (fst (fold_left (fix_step rng minDist) rest ([p0], O)))
  end.

(** The minimum-separation invariant: no two consecutive points are closer
    than [minDist]. *)
Fixpoint separated (minDist : R) (l : list Point3) : Prop :=
  match l with
  | a :: (b :: _) as tl => ~ (dist3 a b < minDist) /\ separated minDist tl
  | _ => True
  end.

(** Three collinear samples, the last two closer than 1. *)
Definition crowded : list Point3 :=
  [mkPoint3 0 0 0; mkPoint3 1 0 0; mkPoint3 (3 / 2) 0 0].

(** The rows [[i^0, ..., i^polyOrder]] for [i = -half .. half]. *)
Definition design (half polyOrder : Z) : matrix :=
  map (fun i => map (fun j => IZR i ^ Z.to_nat j) (zrange 0 polyOrder))
      (zrange (- half) half).

(** [Math.min(Math.max(i + k, 0), n - 1)] as a list index. *)
Definition clamp_index (n : nat) (i : Z) : nat :=
  Z.to_nat (Z.min (Z.max i 0) (Z.of_nat n - 1)).

(** The body of the [try] block once [coeffs] is known. *)
Definition convolve (half : Z) (coeffs : list R) (points : list Point3) : list Point3 :=
  let n := length points in
  map (fun i =>
         let acc :=
           fold_left
             (fun (s : R * R * R) k =>
                let '(sx, sy, sz) := s in
                let pt := nth (clamp_index n (Z.of_nat i + k)) points (mkPoint3 0 0 0) in
                let w := nth (Z.to_nat (k + half)) coeffs 0 in
                (sx + w * px pt, sy + w * py pt, sz + w * pz pt))
             (zrange (- half) half) (0, 0, 0) in
         let '(sx, sy, sz) := acc in mkPoint3 sx sy sz)
      (seq 0 n).

(** [savitzkyGolay(points, windowSize, polyOrder)]; the [catch] branch returns
    [points]. *)
Definition savitzkyGolay (points : list Point3) (windowSize polyOrder : Z)
  : list Point3 :=
  match points with
  | [] => []
  | _ :: _ =>
      let windowSize := if Z.eqb (Z.rem windowSize 2) 0 then (windowSize + 1)%Z
                        else windowSize in
      let half := (windowSize / 2)%Z in
      let A := design half polyOrder in
      let AT := transpose A in
      match multiply AT A with
      | None => points
      | Some ATA =>
          let ATAinv := invert ATA in
          match multiply A ATAinv with
          | None => points
          | Some AAinv =>
              match multiply AAinv AT with
              | None => points
              | Some basis =>
                  let coeffs := nth (Z.to_nat half) basis [] in
                  convolve half coeffs points
              end
          end
      end
  end.

End PanoHelpers.

(** ** [src/store/syncStore.js] *)

Module SyncStore.
Import Num.

Inductive Source : Type := pano | forge.

(** A position as the store and its callers hold it: the array [[x, y, z]]
    the viewers pass in, or the object [{x, y, z}] the store starts with and
    the animation writes back. *)
Inductive Pos : Type :=
| PosArr (x y z : R)
| PosObj (x y z : R).

(** A quaternion array [[x, y, z, w]]. *)
Definition Quat4 : Type := (R * R * R * R)%type.

(** [v[i]]: a number for an array, [undefined] for an object. *)
Definition index (v : Pos) (i : nat) : option R :=
  match v with
  | PosArr x y z => nth_error [x; y; z] i
  | PosObj _ _ _ => None
  end.

Definition qindex (q : Quat4) (i : nat) : option R :=
  let '(x, y, z, w) := q in nth_error [x; y; z; w] i.

(** [Math.abs(a - b) < tolerance]; with an [undefined] operand the difference
    is NaN and the comparison is false. *)
Definition close (a b : option R) (tolerance : R) : bool :=
  match a, b with
  | Some a, Some b => ltb (Rabs (a - b)) tolerance
  | _, _ => false
  end.

(** [vectorEqual(v1, v2, tolerance = 0.001)]; [None] is [null]. *)
Definition vectorEqual (v1 v2 : option Pos) (tolerance : R) : bool :=
  match v1, v2 with
  | Some v1, Some v2 =>
      close (index v1 0) (index v2 0) tolerance
      && close (index v1 1) (index v2 1) tolerance
      && close (index v1 2) (index v2 2) tolerance
  | _, _ => false
  end.

(** [quatEqual(q1, q2, tolerance = 0.01)]. *)
Definition quatEqual (q1 q2 : option Quat4) (tolerance : R) : bool :=
  match q1, q2 with
  | Some q1, Some q2 =>
      close (qindex q1 0) (qindex q2 0) tolerance
      && close (qindex q1 1) (qindex q2 1) tolerance
      && close (qindex q1 2) (qindex q2 2) tolerance
      && close (qindex q1 3) (qindex q2 3) tolerance
  | _, _ => false
  end.

Definition vector_tolerance : R := 1 / 1000.
Definition quat_tolerance : R := 1 / 100.

Record Cam : Type := mkCam { pos : option Pos; quat : option Quat4 }.

Record Pose : Type := mkPose { pose_pos : option Pos; pose_quat : option Quat4 }.

Section Store.

(** The fields no sync action reads or writes ([calibration], [floorClick],
    [pathPoints], [panoJumpRequest]). *)
Variable Rest : Type.

Record State : Type := mkState {
  panoCam : Cam;
  forgeCam : Cam;
  panoPosition : option Pos;
  forgePosition : option Pos;
  targetPanoPose : option Pose;
  targetForgePose : option Pose;
  isAnimating : bool;
  syncStartTime : Z;
  isSyncing : bool;
  source : option Source;
  lastSyncTime : Z;
  syncInProgress : bool;
  syncCount : Z;
  isUserInitiated : bool;
  floorClickSeq : Z;
  frameIdx : Z;
  currentPanoIndex : Z;
  rest : Rest
}.

(** The variables of the closure around the actions that the smooth sync
    uses: the pending animation frame and which viewer it animates. *)
Record Closure : Type := mkClosure {
  rafId : option nat;
  rafIsForge : option bool
}.

Definition initial (r : Rest) : State :=
  {| panoCam := mkCam (Some (PosArr (IZR 12246467991473532 / 10 ^ 32)
                                    (- (IZR 14142135623730951 / 10 ^ 15))
                                    (IZR 2314213562373095 / 10 ^ 14)))
                      (Some (0, 1, 0, IZR 6123233995736766 / 10 ^ 32));
     forgeCam := mkCam (Some (PosArr (696 / 10) (936 / 10) (591 / 100)))
                       (Some (0, 7071 / 10000, 0, 7071 / 10000));
     panoPosition := Some (PosObj 0 0 0);
     forgePosition := Some (PosObj 0 0 0);
     targetPanoPose := None;
     targetForgePose := None;
     isAnimating := false;
     syncStartTime := 0;
     isSyncing := false;
     source := None;
     lastSyncTime := 0;
     syncInProgress := false;
     syncCount := 0;
     isUserInitiated := false;
     floorClickSeq := 0;
     frameIdx := 0;
     currentPanoIndex := 0;
     rest := r |}.

(** [setSource(src)], [setPanoPosition(pos)], [setForgePosition(pos)]. *)
Definition setSource (src : option Source) (s : State) : State :=
  {| panoCam := panoCam s; forgeCam := forgeCam s;
     panoPosition := panoPosition s; forgePosition := forgePosition s;
     targetPanoPose := targetPanoPose s; targetForgePose := targetForgePose s;
     isAnimating := isAnimating s; syncStartTime := syncStartTime s;
     isSyncing := isSyncing s; source := src; lastSyncTime := lastSyncTime s;
     syncInProgress := syncInProgress s; syncCount := syncCount s;
     isUserInitiated := isUserInitiated s; floorClickSeq := floorClickSeq s;
     frameIdx := frameIdx s; currentPanoIndex := currentPanoIndex s;
     rest := rest s |}.

Definition setPanoPosition (v : option Pos) (s : State) : State :=
  {| panoCam := panoCam s; forgeCam := forgeCam s;
     panoPosition := v; forgePosition := forgePosition s;
     targetPanoPose := targetPanoPose s; targetForgePose := targetForgePose s;
     isAnimating := isAnimating s; syncStartTime := syncStartTime s;
     isSyncing := isSyncing s; source := source s; lastSyncTime := lastSyncTime s;
     syncInProgress := syncInProgress s; syncCount := syncCount s;
     isUserInitiated := isUserInitiated s; floorClickSeq := floorClickSeq s;
     frameIdx := frameIdx s; currentPanoIndex := currentPanoIndex s;
     rest := rest s |}.

Definition setForgePosition (v : option Pos) (s : State) : State :=
  {| panoCam := panoCam s; forgeCam := forgeCam s;
     panoPosition := panoPosition s; forgePosition := v;
     targetPanoPose := targetPanoPose s; targetForgePose := targetForgePose s;
     isAnimating := isAnimating s; syncStartTime := syncStartTime s;
     isSyncing := isSyncing s; source := source s; lastSyncTime := lastSyncTime s;
     syncInProgress := syncInProgress s; syncCount := syncCount s;
     isUserInitiated := isUserInitiated s; floorClickSeq := floorClickSeq s;
     frameIdx := frameIdx s; currentPanoIndex := currentPanoIndex s;
     rest := rest s |}.

(** [smoothSyncPano(pos, quat)].  [t1] and [t2] are the two readings of
    [Date.now()], [handle] the id [requestAnimationFrame] returns. *)
Definition smoothSyncPano (t1 t2 : Z) (handle : nat)
    (p : option Pos) (q : option Quat4) (sc : State * Closure) : State * Closure :=
  let '(s, c) := sc in
  let changed := negb (vectorEqual p (panoPosition s) vector_tolerance)
                 || negb (quatEqual q (quat (panoCam s)) quat_tolerance) in
  if negb changed then (s, c)
  else
    ({| panoCam := panoCam s; forgeCam := forgeCam s;
        panoPosition := panoPosition s; forgePosition := forgePosition s;
        targetPanoPose := Some (mkPose p q); targetForgePose := targetForgePose s;
        isAnimating := true; syncStartTime := t1;
        isSyncing := isSyncing s; source := Some pano; lastSyncTime := t2;
        syncInProgress := syncInProgress s; syncCount := (syncCount s + 1)%Z;
        isUserInitiated := isUserInitiated s; floorClickSeq := floorClickSeq s;
        frameIdx := frameIdx s; currentPanoIndex := currentPanoIndex s;
        rest := rest s |},
     {| rafId := Some handle; rafIsForge := Some false |}).

(** [smoothSyncForge(pos, quat)]. *)
Definition smoothSyncForge (t1 t2 : Z) (handle : nat)
    (p : option Pos) (q : option Quat4) (sc : State * Closure) : State * Closure :=
  let '(s, c) := sc in
  let changed := negb (vectorEqual p (forgePosition s) vector_tolerance)
                 || negb (quatEqual q (quat (forgeCam s)) quat_tolerance) in
  if negb changed then (s, c)
  else
    ({| panoCam := panoCam s; forgeCam := forgeCam s;
        panoPosition := panoPosition s; forgePosition := forgePosition s;
        targetPanoPose := targetPanoPose s; targetForgePose := Some (mkPose p q);
        isAnimating := true; syncStartTime := t1;
        isSyncing := isSyncing s; source := Some forge; lastSyncTime := t2;
        syncInProgress := syncInProgress s; syncCount := (syncCount s + 1)%Z;
        isUserInitiated := isUserInitiated s; floorClickSeq := floorClickSeq s;
        frameIdx := frameIdx s; currentPanoIndex := currentPanoIndex s;
        rest := rest s |},
     {| rafId := Some handle; rafIsForge := Some true |}).

(** The coordinates of a position, whichever way it is held. *)
Definition coords (v : Pos) : R * R * R :=
  match v with PosArr x y z | PosObj x y z => (x, y, z) end.

(** Following the spec's words: the pose delta is below the noise thresholds,
    0.001 per position component and 0.01 per quaternion component. *)
Definition delta_below (p stored : Pos) (q storedq : Quat4) : Prop :=
  let '(x, y, z) := coords p in
  let '(sx, sy, sz) := coords stored in
  let '(a, b, c, d) := q in
  let '(sa, sb, sc, sd) := storedq in
  Rabs (x - sx) < 1 / 1000 /\ Rabs (y - sy) < 1 / 1000 /\ Rabs (z - sz) < 1 / 1000
  /\ Rabs (a - sa) < 1 / 100 /\ Rabs (b - sb) < 1 / 100
  /\ Rabs (c - sc) < 1 / 100 /\ Rabs (d - sd) < 1 / 100.

End Store.

Arguments panoCam {Rest}.
Arguments forgeCam {Rest}.
Arguments panoPosition {Rest}.
Arguments forgePosition {Rest}.
Arguments source {Rest}.
Arguments syncCount {Rest}.
Arguments setSource {Rest}.
Arguments setPanoPosition {Rest}.
Arguments setForgePosition {Rest}.
Arguments smoothSyncPano {Rest}.
Arguments smoothSyncForge {Rest}.
Arguments initial {Rest}.

(** A store in which both positions have been set as arrays
    ([setPanoPosition([0,0,0])], [setForgePosition([0,0,0])]) and the
    authority is the model viewer ([setSource('forge')]). *)
Definition forge_led : State unit :=
  setSource (Some forge)
    (setPanoPosition (Some (PosArr 0 0 0))
       (setForgePosition (Some (PosArr 0 0 0)) (initial tt))).

(** The initial panorama camera quaternion. *)
Definition pano_quat0 : Quat4 := (0, 1, 0, IZR 6123233995736766 / 10 ^ 32).

(** The initial model camera quaternion. *)
Definition forge_quat0 : Quat4 := (0, 7071 / 10000, 0, 7071 / 10000).

Definition idle : Closure := mkClosure None None.

End SyncStore.

(** ** [src/utils/camera_transformation.js]: orientation *)

Module Quat.

(** A quaternion array [[x, y, z, w]]. *)
Definition quat : Type := (R * R * R * R)%type.

Definition QUAT_TRANSFORM : quat :=
  (66681372 / 10 ^ 8, - (9451034 / 10 ^ 8), - (199205 / 10 ^ 8), 73920450 / 10 ^ 8).

Definition qMul (a b : quat) : quat :=
  let '(x1, y1, z1, w1) := a in
  let '(x2, y2, z2, w2) := b in
  (w1 * x2 + x1 * w2 + y1 * z2 - z1 * y2,
   w1 * y2 - x1 * z2 + y1 * w2 + z1 * x2,
   w1 * z2 + x1 * y2 - y1 * x2 + z1 * w2,
   w1 * w2 - x1 * x2 - y1 * y2 - z1 * z2).

(** [x*x + y*y + z*z + w*w]. *)
Definition len2 (q : quat) : R :=
  let '(x, y, z, w) := q in x * x + y * y + z * z + w * w.

(** [qNormalize]: division by [Math.hypot(x, y, z, w)]. *)
Definition qNormalize (q : quat) : quat :=
  let '(x, y, z, w) := q in
  let m := sqrt (x * x + y * y + z * z + w * w) in
  (x / m, y / m, z / m, w / m).

Definition qInverse (q : quat) : quat :=
  let '(x, y, z, w) := q in
  let l := x * x + y * y + z * z + w * w in
  (- x / l, - y / l, - z / l, w / l).

Definition transformQuaternion (q : quat) : quat :=
  qNormalize (qMul QUAT_TRANSFORM q).

(** [Math.SQRT1_2]. *)
Definition SQRT1_2 : R := sqrt (1 / 2).

Definition Q_PITCH_DOWN_90 : quat := (SQRT1_2, 0, 0, SQRT1_2).

Definition Q_180_Z : quat := (0, 0, 1, 0).

Definition transformQuaternionMirrored (q : quat) : quat :=
  let normalResult := transformQuaternion q in
  qNormalize (qMul Q_180_Z normalResult).

Definition reverseTransform (q : quat) : quat :=
  let QT_INV := qInverse QUAT_TRANSFORM in
  qNormalize (qMul QT_INV q).

(** [forgeToPanoQuaternion]: the reverse pipeline. *)
Definition forgeToPanoQuaternion (q : quat) : quat :=
  let QT_INV := qInverse QUAT_TRANSFORM in
  let step1 := qNormalize (qMul QT_INV q) in
  let invPitch := qInverse Q_PITCH_DOWN_90 in
  let step2 := qNormalize (qMul invPitch step1) in
  let Q_180_Z_INV := qInverse Q_180_Z in
  qNormalize (qMul Q_180_Z_INV step2).

(** [THREE.Quaternion.prototype.multiply]: [a.multiply(b)] sets [a] to the
    product [a * b]. *)
Definition threeMultiply (a b : quat) : quat :=
  let '(ax, ay, az, aw) := a in
  let '(bx, by_, bz, bw) := b in
  (ax * bw + aw * bx + ay * bz - az * by_,
   ay * bw + aw * by_ + az * bx - ax * bz,
   az * bw + aw * bz + ax * by_ - ay * bx,
   aw * bw - ax * bx - ay * by_ - az * bz).

(** The rotation of the panorama-to-model sync in [ForgeViewer.jsx]:
    [transformQuaternion], then [q.multiply(pitchDown90)]. *)
Definition forgeViewerRotation (q : quat) : quat :=
  let t := transformQuaternion q in
  let pitchDown90 := (SQRT1_2, 0, 0, SQRT1_2) in
  threeMultiply t pitchDown90.

(** Following the spec's words: the forward pipeline is the calibration
    quaternion, then the +90 degree pitch, then the 180 degree turn about the
    vertical axis.  Each step is taken as the source applies it: the first two
    as in [forgeViewerRotation], the third as in the second step of
    [transformQuaternionMirrored]. *)
Definition forwardOrientation (q : quat) : quat :=
  qNormalize (qMul Q_180_Z (forgeViewerRotation q)).

(** Following the spec's words, with every operator composed on the left. *)
Definition forwardOrientationLeft (q : quat) : quat :=
  qNormalize (qMul Q_180_Z (qNormalize (qMul Q_PITCH_DOWN_90 (transformQuaternion q)))).

(** The pipeline [forgeToPanoQuaternion] does undo: the three operators
    applied in the opposite order (turn, then pitch, then calibration). *)
Definition turnPitchCalibrate (q : quat) : quat :=
  qMul QUAT_TRANSFORM (qMul Q_PITCH_DOWN_90 (qMul Q_180_Z q)).

Definition qNeg (q : quat) : quat :=
  let '(x, y, z, w) := q in (- x, - y, - z, - w).

Definition qIdentity : quat := (0, 0, 0, 1).

Definition qScale (k : R) (q : quat) : quat :=
  let '(x, y, z, w) := q in (k * x, k * y, k * z, k * w).

Definition qConj (q : quat) : quat :=
  let '(x, y, z, w) := q in (- x, - y, - z, w).

(** [a] is a positive multiple of the non-zero quaternion [b]: both stand for
    the same rotation and normalise to the same unit quaternion. *)
Definition along (a b : quat) : Prop :=
  (exists k, 0 < k /\ a = qScale k b) /\ len2 b <> 0.

End Quat.

(** ** [src/utils/camera_transformation.js]: boundary constraint *)

Module Boundary.
Import Num.

(** An object [{x, y}]. *)
Record Point2 : Type := mkPoint2 { p2x : R; p2y : R }.

Definition BOUNDARY_POINTS : list Point2 :=
  [mkPoint2 (797 / 10) (395 / 10);
   mkPoint2 (398 / 10) (398 / 10);
   mkPoint2 (417 / 10) (1067 / 10);
   mkPoint2 (632 / 10) (1072 / 10);
   mkPoint2 (632 / 10) (1253 / 10);
   mkPoint2 (797 / 10) (1273 / 10)].

Definition BOUNDARY_MARGIN : R := 5 / 10.

(** A distance that starts at [Infinity]. *)
Inductive Distance : Type :=
| Infinity
| Finite (d : R).

(** [dist < minDistance]. *)
Definition dist_ltb (d : R) (m : Distance) : bool :=
  match m with
  | Infinity => true
  | Finite r => ltb d r
  end.

(** The pairs [(points[i], points[j])] of the loop
    [for (i = 0, j = n - 1; i < n; j = i++)]. *)
Definition with_previous (points : list Point2) : list (Point2 * Point2) :=
  match points with
  | [] => []
  | p0 :: _ => combine points (last points p0 :: removelast points)
  end.

(** The pairs [(points[i], points[(i + 1) % n])]. *)
Definition with_next (points : list Point2) : list (Point2 * Point2) :=
  match points with
  | [] => []
  | p0 :: rest => combine points (rest ++ [p0])
  end.

(** The edge test of the ray casting loop. *)
Definition intersect (x y : R) (e : Point2 * Point2) : bool :=
  let xi := p2x (fst e) in let yi := p2y (fst e) in
  let xj := p2x (snd e) in let yj := p2y (snd e) in
  negb (Bool.eqb (ltb y yi) (ltb y yj))
  && ltb x ((xj - xi) * (y - yi) / (yj - yi) + xi).

Definition isPointInsideBoundary (x y : R) : bool :=
  fold_left (fun isInside e => if intersect x y e then negb isInside else isInside)
            (with_previous BOUNDARY_POINTS) false.

Record Nearest : Type := mkNearest { nx : R; ny : R; distance : Distance }.

(** One iteration of the loop of [findNearestBoundaryPoint]. *)
Definition nearest_step (x y : R) (st : Nearest) (e : Point2 * Point2) : Nearest :=
  let p1 := fst e in
  let p2 := snd e in
  let dx := p2x p2 - p2x p1 in
  let dy := p2y p2 - p2y p1 in
  let len2 := dx * dx + dy * dy in
  if eqb len2 0 then st
  else
    let t := ((x - p2x p1) * dx + (y - p2y p1) * dy) / len2 in
    let t := Rmax 0 (Rmin 1 t) in
    let closestX := p2x p1 + t * dx in
    let closestY := p2y p1 + t * dy in
    let dist := hypot2 (x - closestX) (y - closestY) in
    if dist_ltb dist (distance st) then mkNearest closestX closestY (Finite dist)
    else st.

Definition findNearestBoundaryPoint (x y : R) : Nearest :=
  fold_left (nearest_step x y) (with_next BOUNDARY_POINTS) (mkNearest x y Infinity).

Definition getPolygonCentroid : Point2 :=
  let s := fold_left (fun c q => (fst c + p2x q, snd c + p2y q)) BOUNDARY_POINTS (0, 0) in
  mkPoint2 (fst s / INR (length BOUNDARY_POINTS)) (snd s / INR (length BOUNDARY_POINTS)).

(** The object [clampToBoundary] returns; [originalDistance] is present only
    when the point was clamped. *)
Record Clamped : Type := mkClamped {
  cx : R;
  cy : R;
  wasClamped : bool;
  originalDistance : option Distance
}.

Definition clampToBoundary (x y : R) : Clamped :=
  if isPointInsideBoundary x y then mkClamped x y false None
  else
    let nearest := findNearestBoundaryPoint x y in
    let centroid := getPolygonCentroid in
    let dirX := p2x centroid - nx nearest in
    let dirY := p2y centroid - ny nearest in
    let dirLen := hypot2 dirX dirY in
    let '(dirX, dirY) := if ltb 0 dirLen then (dirX / dirLen, dirY / dirLen)
                         else (dirX, dirY) in
    let clampedX := nx nearest + dirX * BOUNDARY_MARGIN in
    let clampedY := ny nearest + dirY * BOUNDARY_MARGIN in
    mkClamped clampedX clampedY true (Some (distance nearest)).

(** The clamped parameter, the closest point and the distance that one
    iteration of [findNearestBoundaryPoint] computes for the edge [e]. *)
Definition edge_param (x y : R) (e : Point2 * Point2) : R :=
  let dx := p2x (snd e) - p2x (fst e) in
  let dy := p2y (snd e) - p2y (fst e) in
  Rmax 0 (Rmin 1 (((x - p2x (fst e)) * dx + (y - p2y (fst e)) * dy)
                  / (dx * dx + dy * dy))).

Definition edge_closest (x y : R) (e : Point2 * Point2) : R * R :=
  (p2x (fst e) + edge_param x y e * (p2x (snd e) - p2x (fst e)),
   p2y (fst e) + edge_param x y e * (p2y (snd e) - p2y (fst e))).

Definition edge_distance (x y : R) (e : Point2 * Point2) : R :=
  hypot2 (x - fst (edge_closest x y e)) (y - snd (edge_closest x y e)).

(** The vertices of [BOUNDARY_POINTS], in order. *)
Definition vA : Point2 := mkPoint2 (797 / 10) (395 / 10).
Definition vB : Point2 := mkPoint2 (398 / 10) (398 / 10).
Definition vC : Point2 := mkPoint2 (417 / 10) (1067 / 10).
Definition vD : Point2 := mkPoint2 (632 / 10) (1072 / 10).
Definition vE : Point2 := mkPoint2 (632 / 10) (1253 / 10).
Definition vF : Point2 := mkPoint2 (797 / 10) (1273 / 10).

(** The lower bound the minimum distance has kept so far. *)
Definition at_least (lb : R) (m : Distance) : Prop :=
  match m with
  | Infinity => True
  | Finite r => lb <= r
  end.

(** The part of the plane left of the inner wall [x = 63.2], beside the
    upper wing of the boundary. *)
Definition in_notch (x y : R) : Prop :=
  60 <= x < 632 / 10 /\ 114 <= y <= 115.

End Boundary.

(** ** 3-vectors and 3x3 matrices *)

Module Mat3.

(** An array [[x, y, z]]. *)
Definition vec3 : Type := (R * R * R)%type.

(** A 3x3 matrix as the array of its rows. *)
Definition mat3 : Type := (vec3 * vec3 * vec3)%type.

Definition vadd (a b : vec3) : vec3 :=
  let '(a0, a1, a2) := a in let '(b0, b1, b2) := b in (a0 + b0, a1 + b1, a2 + b2).

Definition vsub (a b : vec3) : vec3 :=
  let '(a0, a1, a2) := a in let '(b0, b1, b2) := b in (a0 - b0, a1 - b1, a2 - b2).

Definition vscale (k : R) (a : vec3) : vec3 :=
  let '(a0, a1, a2) := a in (k * a0, k * a1, k * a2).

Definition vdiv (a : vec3) (k : R) : vec3 :=
  let '(a0, a1, a2) := a in (a0 / k, a1 / k, a2 / k).

Definition dot (a b : vec3) : R :=
  let '(a0, a1, a2) := a in let '(b0, b1, b2) := b in a0 * b0 + a1 * b1 + a2 * b2.

Definition lengthSq (a : vec3) : R :=
  let '(a0, a1, a2) := a in a0 * a0 + a1 * a1 + a2 * a2.

Definition I3 : mat3 := ((1, 0, 0), (0, 1, 0), (0, 0, 1)).

Definition zero3 : mat3 := ((0, 0, 0), (0, 0, 0), (0, 0, 0)).

Definition diag (d : vec3) : mat3 :=
  let '(d0, d1, d2) := d in ((d0, 0, 0), (0, d1, 0), (0, 0, d2)).

Definition mtranspose (m : mat3) : mat3 :=
  let '((a, b, c), (d, e, f), (g, h, i)) := m in
  ((a, d, g), (b, e, h), (c, f, i)).

(** Matrix times column vector. *)
Definition mvec (m : mat3) (v : vec3) : vec3 :=
  let '(r0, r1, r2) := m in (dot r0 v, dot r1 v, dot r2 v).

Definition mmul (m n : mat3) : mat3 :=
  let '(r0, r1, r2) := m in
  let '(c0, c1, c2) := mtranspose n in
  ((dot r0 c0, dot r0 c1, dot r0 c2),
   (dot r1 c0, dot r1 c1, dot r1 c2),
   (dot r2 c0, dot r2 c1, dot r2 c2)).

Definition madd (m n : mat3) : mat3 :=
  let '(r0, r1, r2) := m in let '(s0, s1, s2) := n in
  (vadd r0 s0, vadd r1 s1, vadd r2 s2).

(** The matrix [a b^T]. *)
Definition outer (a b : vec3) : mat3 :=
  let '(a0, a1, a2) := a in (vscale a0 b, vscale a1 b, vscale a2 b).

Definition det3 (m : mat3) : R :=
  let '((a, b, c), (d, e, f), (g, h, i)) := m in
  a * (e * i - f * h) - b * (d * i - f * g) + c * (d * h - e * g).

(** [M.setColumn(2, M.getColumn(2).map(x => -x))]. *)
Definition negate_column2 (m : mat3) : mat3 :=
  let '((a, b, c), (d, e, f), (g, h, i)) := m in
  ((a, b, - c), (d, e, - f), (g, h, - i)).

Definition orthogonal (m : mat3) : Prop :=
  mmul (mtranspose m) m = I3 /\ mmul m (mtranspose m) = I3.

(** What a singular value decomposition routine returns. *)
Record SVD : Type := mkSVD { U : mat3; S : vec3; V : mat3 }.

(** The contract of the decomposition routines ([SVD] of ml-matrix,
    [numeric.svd]): [H = U diag(S) V^T] with orthogonal [U], [V] and
    non-negative singular values in decreasing order. *)
Definition is_svd (H : mat3) (d : SVD) : Prop :=
  mmul (mmul (U d) (diag (S d))) (mtranspose (V d)) = H
  /\ orthogonal (U d) /\ orthogonal (V d)
  /\ (let '(s0, s1, s2) := S d in s0 >= s1 /\ s1 >= s2 /\ s2 >= 0).

(** A call that returns a value or throws an [Error] with a message. *)
Inductive outcome (A : Type) : Type :=
| Returned (a : A)
| Thrown (message : string).

Arguments Returned {A}.
Arguments Thrown {A}.

(** The points of a cloud lie on one line through its first point. *)
Definition collinear (l : list vec3) : Prop :=
  match l with
  | [] => True
  | p0 :: rest =>
      exists d : vec3, forall q, In q rest -> exists k, vsub q p0 = vscale k d
  end.

End Mat3.

(** ** [src/utils/calibratePanoToForge.js] *)

Module Calibrate.
Import Num Mat3.

Record Calibration : Type := mkCalibration {
  scale : R;
  rotation : mat3;            (* 2-D array *)
  rotationMatrix : mat3;      (* ml-matrix [Matrix] *)
  translation : vec3;
  maxError : option R;        (* [None]: [-Infinity], the maximum of no errors *)
  meanError : R
}.

Definition flipX (p : vec3) : vec3 := let '(p0, p1, p2) := p in (- p0, p1, p2).

(** [refs.reduce((acc, p) => acc.map((v, i) => v + p[i]), [0,0,0]).map(v => v / n)]. *)
Definition centroid (refs : list vec3) (n : nat) : vec3 :=
  vdiv (fold_left vadd refs (0, 0, 0)) (INR n).

(** [Math.sqrt(centered.reduce((sum, p) => sum + p[0]*p[0] + p[1]*p[1] + p[2]*p[2], 0) / n)]. *)
Definition rms (centered : list vec3) (n : nat) : R :=
  sqrt (fold_left (fun sum p => let '(p0, p1, p2) := p in
                                sum + p0 * p0 + p1 * p1 + p2 * p2) centered 0
        / INR n).

(** The covariance loop: [H[row][col] += panoCentered[i][col] * revitCentered[i][row]]. *)
Definition covariance (panoCentered revitCentered : list vec3) : mat3 :=
  fold_left (fun H pr => madd H (outer (snd pr) (fst pr)))
            (combine panoCentered revitCentered) zero3.

(** [scale * (rotation . p) + translation], written out as in the source. *)
Definition apply_transform (s : R) (rot : mat3) (t p : vec3) : vec3 :=
  vadd (vscale s (mvec rot p)) t.

Definition point_error (expected transformed : vec3) : R :=
  let '(e0, e1, e2) := expected in
  let '(t0, t1, t2) := transformed in
  sqrt ((e0 - t0) ^ 2 + (e1 - t1) ^ 2 + (e2 - t2) ^ 2).

(** [Math.max(...errors)]. *)
Definition max_of (errors : list R) : option R :=
  match errors with
  | [] => None
  | e :: rest => Some (fold_left Rmax rest e)
  end.

(** [calculateCalibration(panoRefs, revitRefs)].  [svd] stands for
    [new SVD(hMatrix)].  The function has no validation; the only throw is
    the TypeError of reading [revitCentered[i]] past the end of a shorter
    [revitRefs].  The quotients by [n] and by [panoRMS] are those of [R]: they
    are the source's for a non-empty [panoRefs] whose [panoRMS] is not zero
    ([panoRMS_of] below); without references, or with panorama references
    that are all one point, the source's scale, translation and errors are
    [NaN] or [Infinity]. *)
Definition calculateCalibration (svd : mat3 -> SVD) (panoRefs revitRefs : list vec3)
  : outcome Calibration :=
  let n := length panoRefs in
  let panoRefsFlipped := map flipX panoRefs in
  let panoCentroid := centroid panoRefsFlipped n in
  let revitCentroid := centroid revitRefs n in
  let panoCentered := map (fun p => vsub p panoCentroid) panoRefsFlipped in
  let revitCentered := map (fun p => vsub p revitCentroid) revitRefs in
  let panoRMS := rms panoCentered n in
  let revitRMS := rms revitCentered n in
  let scale := revitRMS / panoRMS in
  if Nat.ltb (length revitRefs) n
  then Thrown "TypeError: Cannot read properties of undefined"
  else
    let H := covariance panoCentered revitCentered in
    let d := svd H in
    let rotationMatrix := mmul (V d) (mtranspose (U d)) in
    let rotation := mtranspose rotationMatrix in
    let det := det3 rotation in
    let '(rotationMatrix, rotation) :=
      if ltb det 0
      then let V' := negate_column2 (V d) in
           let rotationMatrix := mmul V' (mtranspose (U d)) in
           (rotationMatrix, mtranspose rotationMatrix)
      else (rotationMatrix, rotation) in
    let translation := vsub revitCentroid (vscale scale (mvec rotation panoCentroid)) in
    let errors :=
      map (fun pr => point_error (snd pr)
                       (apply_transform scale rotation translation (fst pr)))
          (combine panoRefsFlipped revitRefs) in
    let maxError := max_of errors in
    let meanError := fold_left Rplus errors 0 / INR n in
    Returned {| scale := scale; rotation := rotation; rotationMatrix := rotationMatrix;
                translation := translation; maxError := maxError;
                meanError := meanError |}.

(** [panoToForge(panoPoint, calibration)]. *)
Definition panoToForge (panoPoint : vec3) (calibration : Calibration) : vec3 :=
  let flippedPoint := flipX panoPoint in
  let rotated := mvec (rotation calibration) flippedPoint in
  let scaled := vscale (scale calibration) rotated in
  vadd scaled (translation calibration).

(** [forgeToPano(forgePoint, calibration)]. *)
Definition forgeToPano (forgePoint : vec3) (calibration : Calibration) : vec3 :=
  let forgeVec := vsub forgePoint (translation calibration) in
  let panoVec := vscale (1 / scale calibration)
                        (mvec (mtranspose (rotationMatrix calibration)) forgeVec) in
  flipX panoVec.

(** The quantities [calculateCalibration] computes on the way, named for the
    statements about it. *)
Definition flipped_centered (panoRefs : list vec3) : list vec3 :=
  let flipped := map flipX panoRefs in
  map (fun p => vsub p (centroid flipped (length panoRefs))) flipped.

Definition revit_centered (panoRefs revitRefs : list vec3) : list vec3 :=
  map (fun p => vsub p (centroid revitRefs (length panoRefs))) revitRefs.

Definition covariance_of (panoRefs revitRefs : list vec3) : mat3 :=
  covariance (flipped_centered panoRefs) (revit_centered panoRefs revitRefs).

(** [panoRMS], the divisor of the scale. *)
Definition panoRMS_of (panoRefs : list vec3) : R :=
  rms (flipped_centered panoRefs) (length panoRefs).

(** The rotation kept after the determinant check. *)
Definition corrected_rotation (d : SVD) : mat3 :=
  if ltb (det3 (mmul (U d) (mtranspose (V d)))) 0
  then mmul (U d) (mtranspose (negate_column2 (V d)))
  else mmul (U d) (mtranspose (V d)).

(** Three pairs related by a quarter turn about the vertical axis. *)
Definition panoRefs_turn : list vec3 := [(-2, 0, 0); (1, 1, 0); (1, -1, 0)].
Definition revitRefs_turn : list vec3 := [(0, 2, 0); (-1, -1, 0); (1, -1, 0)].

Definition quarter_turn : mat3 := ((0, -1, 0), (1, 0, 0), (0, 0, 1)).

(** A decomposition of the covariance matrix of the three pairs above. *)
Definition svd_turn (H : mat3) : SVD :=
  {| U := quarter_turn; S := (6, 2, 0); V := I3 |}.

(** Two pairs on the first axis, and a decomposition of their covariance. *)
Definition panoRefs_two : list vec3 := [(0, 0, 0); (-2, 0, 0)].
Definition revitRefs_two : list vec3 := [(0, 0, 0); (2, 0, 0)].
Definition svd_two (H : mat3) : SVD := {| U := I3; S := (2, 0, 0); V := I3 |}.

(** Three pairs whose target cloud is the source cloud stretched along the
    second axis, and a decomposition of their covariance. *)
Definition panoRefs_stretch : list vec3 := [(-2, 0, 0); (1, 1, 0); (1, -1, 0)].
Definition revitRefs_stretch : list vec3 := [(2, 0, 0); (-1, 2, 0); (-1, -2, 0)].
Definition svd_stretch (H : mat3) : SVD := {| U := I3; S := (6, 4, 0); V := I3 |}.

End Calibrate.

(** ** [src/lib/forge_helpers.js] *)

Module ForgeHelpers.
Import Num Mat3.

Record Transform : Type := mkTransform {
  R_ : list R;          (* [R.toArray()]: the nine elements, column by column *)
  scale : R;
  t : vec3;
  M : list R;           (* [M.toArray()]: the sixteen elements, column by column *)
  centroidA : vec3;
  centroidB : vec3
}.

(** [new THREE.Vector3(p.x, p.y, p.z)]. *)
Definition vector3 (q : Point3) : vec3 := (px q, py q, pz q).

(** [points.forEach(p => c.add(...)); c.divideScalar(n)]; [divideScalar(n)]
    multiplies by [1 / n]. *)
Definition centroid_of (points : list Point3) (n : nat) : vec3 :=
  vscale (1 / INR n) (fold_left (fun c q => vadd c (vector3 q)) points (0, 0, 0)).

(** The covariance loop: [H[r][c] += a.getComponent(r) * b.getComponent(c)]. *)
Definition covariance_loop (centroidA centroidB : vec3) (revitPoints panoPoints : list Point3)
  : mat3 :=
  fold_left (fun H ab => madd H (outer (vsub (vector3 (fst ab)) centroidA)
                                       (vsub (vector3 (snd ab)) centroidB)))
            (combine revitPoints panoPoints) zero3.

(** [Matrix3.toArray()]. *)
Definition toArray3 (m : mat3) : list R :=
  let '((a, b, c), (d, e, f), (g, h, i)) := m in [a; d; g; b; e; h; c; f; i].

(** The nine numbers of [R] read row by row, as the comment on the returned
    field announces them. *)
Definition rows_of (l : list R) : mat3 :=
  let e k := nth k l 0 in
  ((e 0%nat, e 1%nat, e 2%nat), (e 3%nat, e 4%nat, e 5%nat), (e 6%nat, e 7%nat, e 8%nat)).

(** [computeTransform(revitPoints, panoPoints)].  [numeric] is
    [window.numeric], [None] when the library is not loaded, and otherwise
    its [svd]. *)
Definition computeTransform (numeric : option (mat3 -> SVD))
    (revitPoints panoPoints : list Point3) : outcome Transform :=
  if negb (Nat.eqb (length revitPoints) (length panoPoints))
     || Nat.ltb (length revitPoints) 3
  then Thrown "Need at least 3 matching points"
  else
    match numeric with
    | None => Thrown "numeric.js not loaded"
    | Some numeric_svd =>
        let n := length revitPoints in
        let centroidA := centroid_of revitPoints n in
        let centroidB := centroid_of panoPoints n in
        let H := covariance_loop centroidA centroidB revitPoints panoPoints in
        let svd := numeric_svd H in
        let detProd := det3 (U svd) * det3 (V svd) in
        let S_ := if ltb detProd 0 then diag (1, 1, -1) else I3 in
        let Rm := mmul (mmul (U svd) S_) (mtranspose (V svd)) in
        let traceSigma := let '(s0, s1, s2) := S svd in 0 + s0 + s1 + s2 in
        let sumSqB :=
          fold_left (fun acc q => acc + lengthSq (vsub (vector3 q) centroidB))
                    panoPoints 0 in
        let scale := traceSigma / (sumSqB + 1 / 10 ^ 12) in
        let t := vsub centroidA (mvec Rm (vscale scale centroidB)) in
        let '((r00, r01, r02), (r10, r11, r12), (r20, r21, r22)) := Rm in
        let '(tx, ty, tz) := t in
        Returned {| R_ := toArray3 Rm;
                    scale := scale;
                    t := t;
                    M := [scale * r00; scale * r10; scale * r20; 0;
                          scale * r01; scale * r11; scale * r21; 0;
                          scale * r02; scale * r12; scale * r22; 0;
                          tx; ty; tz; 1];
                    centroidA := centroidA;
                    centroidB := centroidB |}
    end.

(** The quantities [computeTransform] computes on the way, named for the
    statements about it. *)
Definition solver_covariance (revitPoints panoPoints : list Point3) : mat3 :=
  covariance_loop (centroid_of revitPoints (length revitPoints))
                  (centroid_of panoPoints (length revitPoints)) revitPoints panoPoints.

Definition proper_rotation (d : SVD) : mat3 :=
  mmul (mmul (U d) (if ltb (det3 (U d) * det3 (V d)) 0 then diag (1, 1, -1) else I3))
       (mtranspose (V d)).

(** Following the spec's words: the clouds centred on their centroids, the
    cross-covariance of the centred clouds, the trace of Sigma and the sum of
    the squared norms of the centred source points. *)
Definition mean (l : list vec3) : vec3 :=
  vdiv (fold_right vadd (0, 0, 0) l) (INR (length l)).

Definition centered (l : list vec3) : list vec3 :=
  map (fun q => vsub q (mean l)) l.

Fixpoint cross_covariance (target source : list vec3) : mat3 :=
  match target, source with
  | a :: target', b :: source' => madd (outer a b) (cross_covariance target' source')
  | _, _ => zero3
  end.

Definition trace_sigma (d : SVD) : R :=
  let '(s0, s1, s2) := S d in s0 + s1 + s2.

Fixpoint sum_sq_norms (l : list vec3) : R :=
  match l with
  | [] => 0
  | b :: l' => lengthSq b + sum_sq_norms l'
  end.

(** The stretched pairs of [Calibrate], as objects. *)
Definition revit_stretch : list Point3 :=
  [mkPoint3 2 0 0; mkPoint3 (-1) 2 0; mkPoint3 (-1) (-2) 0].
Definition pano_stretch : list Point3 :=
  [mkPoint3 2 0 0; mkPoint3 (-1) 1 0; mkPoint3 (-1) (-1) 0].

(** Five pairs of non-collinear clouds whose cross-covariance vanishes. *)
Definition revit_uncorrelated : list Point3 :=
  [mkPoint3 1 1 0; mkPoint3 1 1 0; mkPoint3 (-1) 1 0; mkPoint3 (-1) 1 0;
   mkPoint3 0 (-4) 0].
Definition pano_uncorrelated : list Point3 :=
  [mkPoint3 1 0 0; mkPoint3 (-1) 0 0; mkPoint3 0 1 0; mkPoint3 0 (-1) 0;
   mkPoint3 0 0 0].
Definition svd_zero (H : mat3) : SVD := {| U := I3; S := (0, 0, 0); V := I3 |}.

End ForgeHelpers.

(** ** [calibratePanoToForge.js]: the dataset workflow *)

Module Dataset.
Import Num Mat3 Calibrate.

(** The model boundary, in metres. *)
Definition Boundary : list (R * R) :=
  [(24, 38); (19, 38); (13, 33); (12, 12); (24, 12)].

(** The pairs [(polygon[i], polygon[j])] of the loop
    [for (i = 0, j = n - 1; i < n; j = i++)]. *)
Definition edges (polygon : list (R * R)) : list ((R * R) * (R * R)) :=
  match polygon with
  | [] => []
  | p0 :: _ => combine polygon (last polygon p0 :: removelast polygon)
  end.

(** [((yi > y) !== (yj > y)) && (x < (xj - xi) * (y - yi) / (yj - yi) + xi)]. *)
Definition crosses (x y : R) (e : (R * R) * (R * R)) : bool :=
  let '((xi, yi), (xj, yj)) := e in
  negb (Bool.eqb (ltb y yi) (ltb y yj))
  && ltb x ((xj - xi) * (y - yi) / (yj - yi) + xi).

(** [isPointInPolygon(point, polygon)]: ray casting. *)
Definition isPointInPolygon (point : R * R) (polygon : list (R * R)) : bool :=
  let '(x, y) := point in
  fold_left (fun inside e => if crosses x y e then negb inside else inside)
            (edges polygon) false.

(** What [calibrateDataset] returns, and the points it warns about on the
    console. *)
Record DatasetResult : Type := mkDatasetResult {
  calibration : Calibration;
  forgePoints : list vec3;
  warned : list vec3
}.

(** [calibrateDataset({panoRefs, revitRefs, modelBoundary = Boundary,
    datasetPoints})]. *)
Definition calibrateDataset (svd : mat3 -> SVD) (panoRefs revitRefs : list vec3)
    (modelBoundary : option (list (R * R))) (datasetPoints : list vec3)
  : outcome DatasetResult :=
  let modelBoundary := match modelBoundary with Some b => b | None => Boundary end in
  match calculateCalibration svd panoRefs revitRefs with
  | Thrown message => Thrown message
  | Returned calibration =>
      let forgePoints := map (fun panoPt => panoToForge panoPt calibration) datasetPoints in
      Returned {| calibration := calibration;
                  forgePoints := forgePoints;
                  warned := filter (fun forgePt =>
                                      let '(f0, f1, _) := forgePt in
                                      negb (isPointInPolygon (f0, f1) modelBoundary))
                                   forgePoints |}
  end.

End Dataset.

(** ** [camera_transformation.js]: the position transform with the boundary
    constraint *)

Module BoundaryTransform.
Import Num Boundary.

Record Coefficients : Type := mkCoefficients { on_x : R; on_y : R; on_z : R }.

(** [CORRECTION_COEFFS.x] and [CORRECTION_COEFFS.y]. *)
Definition CORRECTION_COEFFS : Coefficients * Coefficients :=
  (mkCoefficients (54 / 10) (- (26 / 10)) (12 / 10),
   mkCoefficients (- (9 / 10)) (144 / 10) (18 / 10)).

Record Constrained : Type := mkConstrained {
  rx : R;
  ry : R;
  rz : R;
  resultWasClamped : bool;
  appliedCorrection : R * R
}.

(** [transformPanoToForgeWithBoundary(pano_x, pano_y, pano_z, realWorldPos)]. *)
Definition transformPanoToForgeWithBoundary (pano_x pano_y pano_z : R)
    (realWorldPos : Point3) : Constrained :=
  let correction_x :=
    pano_x * on_x (fst CORRECTION_COEFFS)
    + pano_y * on_y (fst CORRECTION_COEFFS)
    + pano_z * on_z (fst CORRECTION_COEFFS) in
  let correction_y :=
    pano_x * on_x (snd CORRECTION_COEFFS)
    + pano_y * on_y (snd CORRECTION_COEFFS)
    + pano_z * on_z (snd CORRECTION_COEFFS) in
  let result_x := px realWorldPos + correction_x in
  let result_y := py realWorldPos + correction_y in
  let clamped := clampToBoundary result_x result_y in
  {| rx := cx clamped;
     ry := cy clamped;
     rz := 5;
     resultWasClamped := wasClamped clamped;
     appliedCorrection := (correction_x, correction_y) |}.

(** The point of the edge [e] at the parameter [t]. *)
Definition edge_point (e : Point2 * Point2) (t : R) : R * R :=
  (p2x (fst e) + t * (p2x (snd e) - p2x (fst e)),
   p2y (fst e) + t * (p2y (snd e) - p2y (fst e))).

(** The points of the boundary polygon's edges. *)
Definition on_boundary (qx qy : R) : Prop :=
  exists e t, In e (with_next BOUNDARY_POINTS) /\ 0 <= t <= 1 /\ edge_point e t = (qx, qy).

Definition edge_length2 (e : Point2 * Point2) : R :=
  (p2x (snd e) - p2x (fst e)) * (p2x (snd e) - p2x (fst e))
  + (p2y (snd e) - p2y (fst e)) * (p2y (snd e) - p2y (fst e)).

(** What the loop of [findNearestBoundaryPoint] has found after the edges
    [seen]: nothing yet, or the closest point of the edge of [seen] that is
    nearest. *)
Definition nearest_of (x y : R) (seen : list (Point2 * Point2)) (st : Nearest) : Prop :=
  match distance st with
  | Infinity => seen = []
  | Finite d =>
      exists e, In e seen
                /\ nx st = fst (edge_closest x y e) /\ ny st = snd (edge_closest x y e)
                /\ d = edge_distance x y e
                /\ forall e', In e' seen -> d <= edge_distance x y e'
  end.

End BoundaryTransform.

(** ** [THREE.Vector3.prototype.applyMatrix4], for the matrix [M] of
    [computeTransform] *)

Module ThreeMath.
Import Mat3.

(** [v.applyMatrix4(m)] on the sixteen elements [e] of [m], column by column:
    the affine image divided by the perspective component. *)
Definition applyMatrix4 (e : list R) (v : vec3) : vec3 :=
  let '(x, y, z) := v in
  let el k := nth k e 0 in
  let w := 1 / (el 3%nat * x + el 7%nat * y + el 11%nat * z + el 15%nat) in
  ((el 0%nat * x + el 4%nat * y + el 8%nat * z + el 12%nat) * w,
   (el 1%nat * x + el 5%nat * y + el 9%nat * z + el 13%nat) * w,
   (el 2%nat * x + el 6%nat * y + el 10%nat * z + el 14%nat) * w).

End ThreeMath.

(** ** [ForgeViewer.jsx]: the unit helpers *)

Module ForgeViewer.

(** What the helpers read of the viewer through their optional chains:
    [viewer?.model?.getUnitScale?.()] and
    [viewer?.model?.getData?.()?.globalOffset], [None] where a link of the
    chain is missing. *)
Record Viewer : Type := mkViewer {
  unitScale : option R;
  globalOffset : option Point3
}.

(** [viewer?.model?.getUnitScale?.() ?? 1.0]. *)
Definition getUnitScale (viewer : Viewer) : R :=
  match unitScale viewer with Some u => u | None => 1 end.

(** [viewer?.model?.getData?.()?.globalOffset || { x: 0, y: 0, z: 0 }]. *)
Definition offsetOf (viewer : Viewer) : Point3 :=
  match globalOffset viewer with Some go => go | None => mkPoint3 0 0 0 end.

(** [worldToViewerLocal(worldX, worldY, worldZ, viewer)]; [three] tells
    whether [window.THREE] was found, and the result is [null] without it. *)
Definition worldToViewerLocal (three : bool) (worldX worldY worldZ : R) (viewer : Viewer)
  : option Point3 :=
  if negb three then None
  else
    let go := offsetOf viewer in
    let unitScale := getUnitScale viewer in
    let modelX := worldX / unitScale - px go in
    let modelY := worldY / unitScale - py go in
    let modelZ := worldZ / unitScale - pz go in
    Some (mkPoint3 modelX modelY modelZ).

(** [viewerLocalToWorld(localVec, viewer)]. *)
Definition viewerLocalToWorld (three : bool) (localVec : Point3) (viewer : Viewer)
  : option (R * R * R) :=
  if negb three then None
  else
    let go := offsetOf viewer in
    let unitScale := getUnitScale viewer in
    let rawX := px localVec + px go in
    let rawY := py localVec + py go in
    let rawZ := pz localVec + pz go in
    Some (rawX * unitScale, rawY * unitScale, rawZ * unitScale).

End ForgeViewer.

(** ** [PathCameraExplorer.jsx]: the camera path and the index into it *)

Module PathExplorer.
Import Num PanoHelpers.

Definition Z_SCALE : R := 3.
Definition PATH_HEIGHT : R := 0.

(** A raw sample or a point of the camera path: its position and its
    [image_path], [None] when the property is missing or [null].  The [yaw]
    and [pitch] that [rebuildPaths] also stores are left out. *)
Record Sample : Type := mkSample { position : Point3; image_path : option string }.

(** [v || null] on a string: the empty string is falsy. *)
Definition or_null (v : option string) : option string :=
  match v with
  | Some EmptyString => None
  | _ => v
  end.

(** The path that [rebuildPaths] stores in [cameraPathRef] for the raw data
    [raw]: smoothing, Kalman filtering, the change of axes, the stretch of
    [z], the repair of overlapping points and the images put back by index. *)
Definition rebuiltPath (rng : nat -> R) (raw : list Sample) (windowSize polyOrder : Z)
    (processNoise measurementNoise : R) : list Sample :=
  let sg := savitzkyGolay (map position raw) (Z.max 3 windowSize) polyOrder in
  let kf := Kalman.new (Some processNoise) (Some measurementNoise) in
  let filtered :=
    mapi (fun i f =>
            mkSample (mkPoint3 (- pz f) PATH_HEIGHT (- px f))
                     (or_null (match nth_error raw i with
                               | Some r => image_path r
                               | None => None
                               end)))
         (Kalman.run kf sg) in
  let scaled :=
    map (fun p => mkSample (mkPoint3 (px (position p)) (py (position p))
                                     (pz (position p) * Z_SCALE))
                           (image_path p))
        filtered in
  mapi (fun i point =>
          let original :=
            match nth_error scaled i with
            | Some o => Some o
            | None => nth_error scaled (Nat.min i (length scaled - 1))
            end in
          mkSample point (or_null (match original with
                                   | Some o => image_path o
                                   | None => None
                                   end)))
       (fixOverlappingPoints rng (map position scaled) (5 / 100)).

(** [pathIndexRef.current] and [cameraPathRef.current]. *)
Record Nav : Type := mkNav { pathIndex : Z; cameraPath : list Sample }.

(** [useRef(0)] and [useRef([])]. *)
Definition initialNav : Nav := mkNav 0 [].

Definition pathLength (s : Nav) : Z := Z.of_nat (length (cameraPath s)).

(** [jumpToIndex(idx)], as far as the index goes. *)
Definition jumpToIndex (idx : Z) (s : Nav) : Nav :=
  if (idx <? 0)%Z || (idx >=? pathLength s)%Z then s
  else mkNav idx (cameraPath s).

(** [move(delta)], as far as the index goes. *)
Definition move (delta : Z) (s : Nav) : Nav :=
  let newIdx := Z.max 0 (Z.min (pathIndex s + delta) (pathLength s - 1)) in
  if (newIdx =? pathIndex s)%Z then s
  else mkNav newIdx (cameraPath s).

(** [rebuildPaths()]: nothing happens without raw data; otherwise the new
    path is stored and the index is capped to it. *)
Definition rebuildPaths (rng : nat -> R) (raw : list Sample) (windowSize polyOrder : Z)
    (processNoise measurementNoise : R) (s : Nav) : Nav :=
  match raw with
  | [] => s
  | _ :: _ =>
      let fixed := rebuiltPath rng raw windowSize polyOrder processNoise measurementNoise in
      mkNav (Z.min (pathIndex s) (Z.of_nat (length fixed) - 1)) fixed
  end.

(** One step of the scan for the path point closest to [panoPos];
    [minDist] starts at [Infinity], here [None]. *)
Definition scan_step (panoPos : Point3) (st : nat * option R) (ip : nat * Sample)
  : nat * option R :=
  let '(closestIdx, minDist) := st in
  let '(i, p) := ip in
  let dx := px (position p) - px panoPos in
  let dy := py (position p) - py panoPos in
  let dz := pz (position p) - pz panoPos in
  let dist := dx * dx + dy * dy + dz * dz in
  if match minDist with None => true | Some m => ltb dist m end
  then (i, Some dist)
  else st.

(** [points.forEach((p, i) => ...)] from [closestIdx = 0],
    [minDist = Infinity]. *)
Definition closest (points : list Sample) (panoPos : Point3) : nat * option R :=
  fold_left (scan_step panoPos) (combine (seq 0 (length points)) points) (O, None).

(** The squared distance the scan compares. *)
Definition dist2 (panoPos : Point3) (p : Sample) : R :=
  (px (position p) - px panoPos) * (px (position p) - px panoPos)
  + (py (position p) - py panoPos) * (py (position p) - py panoPos)
  + (pz (position p) - pz panoPos) * (pz (position p) - pz panoPos).

(** The model-to-panorama sync, as far as the index goes: nothing happens on
    an empty path; otherwise the index becomes that of the closest point. *)
Definition syncToClosest (panoPos : Point3) (s : Nav) : Nav :=
  match cameraPath s with
  | [] => s
  | _ :: _ => mkNav (Z.of_nat (fst (closest (cameraPath s) panoPos))) (cameraPath s)
  end.

(** The four places that write the index or the path. *)
Inductive NavEvent : Type :=
| Jump (idx : Z)
| Move (delta : Z)
| Rebuild (rng : nat -> R) (raw : list Sample) (windowSize polyOrder : Z)
          (processNoise measurementNoise : R)
| Sync (panoPos : Point3).

Definition nav_step (s : Nav) (e : NavEvent) : Nav :=
  match e with
  | Jump idx => jumpToIndex idx s
  | Move delta => move delta s
  | Rebuild rng raw w o pn mn => rebuildPaths rng raw w o pn mn s
  | Sync panoPos => syncToClosest panoPos s
  end.

(** The index points into the path whenever there is one. *)
Definition index_valid (s : Nav) : Prop :=
  (0 <= pathIndex s)%Z /\ (cameraPath s = [] \/ (pathIndex s < pathLength s)%Z).

(** What the scan has found after the points [seen]: nothing yet, or the
    first of the points of [seen] closest to [panoPos]. *)
Definition scanned (panoPos : Point3) (seen : list Sample) (st : nat * option R) : Prop :=
  match snd st with
  | None => seen = [] /\ fst st = O
  | Some m =>
      exists p, nth_error seen (fst st) = Some p
                /\ m = dist2 panoPos p
                /\ (forall j q, nth_error seen j = Some q -> m <= dist2 panoPos q)
                /\ (forall j q, nth_error seen j = Some q ->
                                (j < fst st)%nat -> m < dist2 panoPos q)
  end.

End PathExplorer.

(** ** [PanoramicSphereViewer]: the camera animation *)

Module SphereViewer.
Import Num.

(** [easeInOutCubic(t)]. *)
Definition easeInOutCubic (t : R) : R :=
  if ltb t (5 / 10) then 4 * t * t * t
  else (t - 1) * (2 * t - 2) * (2 * t - 2) + 1.

(** [Vector3.lerpVectors(v1, v2, alpha)]. *)
Definition lerpVectors (v1 v2 : Point3) (alpha : R) : Point3 :=
  mkPoint3 (px v1 + (px v2 - px v1) * alpha)
           (py v1 + (py v2 - py v1) * alpha)
           (pz v1 + (pz v2 - pz v1) * alpha).

(** The camera position one frame of [updateCameraPosition] or
    [smoothTransitionToFrame] sets, [elapsed] milliseconds after the start,
    and whether another frame is requested. *)
Definition animationFrame (startPos endPos : Point3) (elapsed duration : R)
  : Point3 * bool :=
  let progress := Rmin (elapsed / duration) 1 in
  let easedProgress := easeInOutCubic progress in
  (lerpVectors startPos endPos easedProgress, ltb progress 1).

End SphereViewer.

(** ** [src/lib/pano_helpers.js]: angles *)

Module Angles.
Import Num Mat3.

(** [Math.trunc]. *)
Definition trunc (x : R) : Z :=
  if Rle_dec 0 x then Int_part x else (- Int_part (- x))%Z.

(** [a % b] on numbers: the remainder has the sign of [a]. *)
Definition fmod (a b : R) : R := a - b * IZR (trunc (a / b)).

(** [Math.round]: the nearest integer, halves going up. *)
Definition round (x : R) : Z := Int_part (x + 1 / 2).

(** [norm360(deg)]. *)
Definition norm360 (deg : R) : R := fmod (fmod deg 360 + 360) 360.

(** [THREE.MathUtils.degToRad]. *)
Definition degToRad (degrees : R) : R := degrees * (PI / 180).

(** [Vector3.normalize()]: [divideScalar(length() || 1)]. *)
Definition normalize (v : vec3) : vec3 :=
  let '(x, y, z) := v in
  let l := sqrt (x * x + y * y + z * z) in
  let s := 1 / (if eqb l 0 then 1 else l) in
  (x * s, y * s, z * s).

(** [angleToAxis(deg)]. *)
Definition angleToAxis (deg : R) : vec3 :=
  let a := norm360 deg in
  let snapped := fmod (IZR (round (a / 90)) * 90) 360 in
  if eqb snapped 0 then (0, 0, 1)
  else if eqb snapped 90 then (-1, 0, 0)
  else if eqb snapped 180 then (0, 0, -1)
  else if eqb snapped 270 then (1, 0, 0)
  else
    let rad := degToRad a in
    normalize (- sin rad, 0, cos rad).

(** The axis by the quarter the normalised angle falls in. *)
Definition quarter_axis (a : R) : vec3 :=
  if ltb a 45 then (0, 0, 1)
  else if ltb a 135 then (-1, 0, 0)
  else if ltb a 225 then (0, 0, -1)
  else if ltb a 315 then (1, 0, 0)
  else (0, 0, 1).

End Angles.

(** ** [src/lib/pano_helpers.js]: the axis-aligned path *)

Module Manhattan.
Import Num Angles PathExplorer.

(** The options object; [clampY] is [None] for ['mean']. *)
Record Options : Type := mkOptions {
  lookahead : Z;
  hysteresis : Z;
  clampY : option R
}.

(** The defaults [{ lookahead = 5, hysteresis = 2, clampY = 'mean' }]. *)
Definition defaultOptions : Options := mkOptions 5 2 None.

(** [THREE.MathUtils.radToDeg]. *)
Definition radToDeg (radians : R) : R := radians * (180 / PI).

(** The local [norm180]. *)
Definition norm180 (aDeg : R) : R :=
  let a := fmod (fmod aDeg 360 + 360) 360 in
  if ltb 180 a then a - 360 else a.

(** [points[k]]. *)
Definition at_index (points : list Sample) (k : nat) : Point3 :=
  position (nth k points (mkSample (mkPoint3 0 0 0) None)).

(** [futureTrend(startIdx)]: the sum of the next [lookahead] steps. *)
Definition futureTrend (points : list Sample) (lookahead : Z) (startIdx : nat) : R * R :=
  let stop := Z.min (Z.of_nat (length points) - 1) (Z.of_nat startIdx + lookahead) in
  fold_left (fun v k =>
               (fst v + (px (at_index points (Datatypes.S k)) - px (at_index points k)),
                snd v + (pz (at_index points (Datatypes.S k)) - pz (at_index points k))))
            (seq startIdx (Z.to_nat (stop - Z.of_nat startIdx))) (0, 0).

(** The variables of the loop; [out] is carried with its last element
    first. *)
Record Walk : Type := mkWalk {
  out : list Sample;
  prevOut : Sample;
  prevRaw : Sample;
  currentSnapDeg : option R;
  pendingSwitch : Z
}.

(** One iteration of the loop, for [raw = points[i]]; [atan2] is
    [Math.atan2]. *)
Definition walk_step (atan2 : R -> R -> R) (points : list Sample) (opts : Options)
    (constantY : R) (w : Walk) (iraw : nat * Sample) : Walk :=
  let '(i, raw) := iraw in
  let dx := px (position raw) - px (position (prevRaw w)) in
  let dz := pz (position raw) - pz (position (prevRaw w)) in
  let len := hypot2 dx dz in
  if ltb len (1 / 10 ^ 4)
  then mkWalk (out w) (prevOut w) raw (currentSnapDeg w) (pendingSwitch w)
  else
    let trend := futureTrend points (lookahead opts) (i - 1) in
    let '(vx, vz) := if ltb (hypot2 (fst trend) (snd trend)) (1 / 10 ^ 6)
                     then (dx, dz) else trend in
    let trendDeg := radToDeg (atan2 vz vx) in
    let snappedDeg := norm180 (IZR (round (trendDeg / 90)) * 90) in
    let current := match currentSnapDeg w with Some c => c | None => snappedDeg end in
    let '(current, pending) :=
      if negb (eqb snappedDeg current)
      then if (pendingSwitch w + 1 >=? hysteresis opts)%Z
           then (snappedDeg, 0%Z)
           else (current, (pendingSwitch w + 1)%Z)
      else (current, 0%Z) in
    let dirX := cos (degToRad current) in
    let dirZ := sin (degToRad current) in
    let dot := dx * dirX + dz * dirZ in
    let '(dirX, dirZ) := if ltb dot 0 then (- dirX, - dirZ) else (dirX, dirZ) in
    let newPoint :=
      mkSample (mkPoint3 (px (position (prevOut w)) + dirX * len)
                         constantY
                         (pz (position (prevOut w)) + dirZ * len))
               (image_path raw) in
    mkWalk (newPoint :: out w) newPoint raw (Some current) pending.

(** [buildManhattanPath(points, options)]. *)
Definition buildManhattanPath (atan2 : R -> R -> R) (points : list Sample) (opts : Options)
  : list Sample :=
  match points with
  | [] => points
  | [_] => points
  | p0 :: rest =>
      let constantY :=
        match clampY opts with
        | Some c => c
        | None => fold_left (fun s p => s + py (position p)) points 0
                  / INR (length points)
        end in
      let prevOut := mkSample (mkPoint3 (px (position p0)) constantY (pz (position p0)))
                              (image_path p0) in
      rev (out (fold_left (walk_step atan2 points opts constantY)
                          (combine (seq 1 (length rest)) rest)
                          (mkWalk [prevOut] prevOut p0 None 0%Z)))
  end.

(** The height every point of the result is given. *)
Definition constantHeight (points : list Sample) (opts : Options) : R :=
  match clampY opts with
  | Some c => c
  | None => fold_left (fun s p => s + py (position p)) points 0 / INR (length points)
  end.

(** The horizontal distance between two points. *)
Definition ground_distance (a b : Sample) : R :=
  hypot2 (px (position b) - px (position a)) (pz (position b) - pz (position a)).

(** Every two consecutive points of [l] are related by [far]. *)
Fixpoint chain (far : Sample -> Sample -> Prop) (l : list Sample) : Prop :=
  match l with
  | a :: (b :: _) as tl => far a b /\ chain far tl
  | _ => True
  end.

(** What the loop keeps: the last output point is the head of [out] and
    the seed its last element, every output point is at the constant height,
    consecutive output points are at least [1e-4] apart on the ground, and at
    most one point is added per sample. *)
Definition walk_ok (constantY : R) (seed : Sample) (n : nat) (w : Walk) : Prop :=
  (exists tl, out w = prevOut w :: tl)
  /\ (exists tl, out w = tl ++ [seed])
  /\ Forall (fun p => py (position p) = constantY) (out w)
  /\ chain (fun a b => 1 / 10 ^ 4 <= ground_distance a b) (out w)
  /\ (1 <= length (out w) <= n)%nat.

End Manhattan.

(** ** [src/store/syncStore.js]: every action of the store *)

Module SyncActions.
Import Num SyncStore.

Section Actions.

(** The values the store only passes on: click positions, path points, the
    calibration object, the jump callback. *)
Variable Value : Type.

(** [{ pos, meta, seq, ts }]. *)
Record FloorClick : Type := mkFloorClick {
  click_pos : Value;
  click_meta : option Value;
  seq : Z;
  ts : Z
}.

(** The fields that the smooth sync leaves alone. *)
Record Others : Type := mkOthers {
  calibration : option Value;
  floorClick : option FloorClick;
  pathPoints : list Value;
  panoJumpRequest : option Value
}.

Definition Store : Type := State Others.

(** The variables of the closure around the actions. *)
Record Vars : Type := mkVars {
  frame : Closure;
  prevPanoPos : option Pos;
  prevPanoQuat : option Quat4;
  prevForgePos : option Pos;
  prevForgeQuat : option Quat4
}.

(** The store and the closure when [create] returns: the second
    [calibration] key of the object literal wins. *)
Definition initialStore : Store :=
  initial {| calibration := None; floorClick := None; pathPoints := [];
             panoJumpRequest := None |}.

Definition initialVars : Vars := mkVars idle None None None None.

Inductive Field : Type :=
| PanoCam (c : Cam)
| ForgeCam (c : Cam)
| PanoPosition (v : option Pos)
| ForgePosition (v : option Pos)
| TargetPanoPose (p : option Pose)
| TargetForgePose (p : option Pose)
| IsAnimating (b : bool)
| SyncStartTime (t : Z)
| IsSyncing (b : bool)
| Source_ (src : option Source)
| LastSyncTime (t : Z)
| SyncInProgress (b : bool)
| SyncCount (n : Z)
| IsUserInitiated (b : bool)
| FloorClickSeq (n : Z)
| FrameIdx (n : Z)
| CurrentPanoIndex (n : Z)
| Calibration_ (c : option Value)
| FloorClick_ (fc : option FloorClick)
| PathPoints (l : list Value)
| PanoJumpRequest (fn : option Value).

(** One key of the object passed to [set]. *)
Definition assign (s : Store) (f : Field) : Store :=
  match f with
  | PanoCam c =>
      {| panoCam := c;
         forgeCam := forgeCam s;
         panoPosition := panoPosition s;
         forgePosition := forgePosition s;
         targetPanoPose := targetPanoPose _ s;
         targetForgePose := targetForgePose _ s;
         isAnimating := isAnimating _ s;
         syncStartTime := syncStartTime _ s;
         isSyncing := isSyncing _ s;
         source := source s;
         lastSyncTime := lastSyncTime _ s;
         syncInProgress := syncInProgress _ s;
         syncCount := syncCount s;
         isUserInitiated := isUserInitiated _ s;
         floorClickSeq := floorClickSeq _ s;
         frameIdx := frameIdx _ s;
         currentPanoIndex := currentPanoIndex _ s;
         rest := rest _ s |}
  | ForgeCam c =>
      {| panoCam := panoCam s;
         forgeCam := c;
         panoPosition := panoPosition s;
         forgePosition := forgePosition s;
         targetPanoPose := targetPanoPose _ s;
         targetForgePose := targetForgePose _ s;
         isAnimating := isAnimating _ s;
         syncStartTime := syncStartTime _ s;
         isSyncing := isSyncing _ s;
         source := source s;
         lastSyncTime := lastSyncTime _ s;
         syncInProgress := syncInProgress _ s;
         syncCount := syncCount s;
         isUserInitiated := isUserInitiated _ s;
         floorClickSeq := floorClickSeq _ s;
         frameIdx := frameIdx _ s;
         currentPanoIndex := currentPanoIndex _ s;
         rest := rest _ s |}
  | PanoPosition v =>
      {| panoCam := panoCam s;
         forgeCam := forgeCam s;
         panoPosition := v;
         forgePosition := forgePosition s;
         targetPanoPose := targetPanoPose _ s;
         targetForgePose := targetForgePose _ s;
         isAnimating := isAnimating _ s;
         syncStartTime := syncStartTime _ s;
         isSyncing := isSyncing _ s;
         source := source s;
         lastSyncTime := lastSyncTime _ s;
         syncInProgress := syncInProgress _ s;
         syncCount := syncCount s;
         isUserInitiated := isUserInitiated _ s;
         floorClickSeq := floorClickSeq _ s;
         frameIdx := frameIdx _ s;
         currentPanoIndex := currentPanoIndex _ s;
         rest := rest _ s |}
  | ForgePosition v =>
      {| panoCam := panoCam s;
         forgeCam := forgeCam s;
         panoPosition := panoPosition s;
         forgePosition := v;
         targetPanoPose := targetPanoPose _ s;
         targetForgePose := targetForgePose _ s;
         isAnimating := isAnimating _ s;
         syncStartTime := syncStartTime _ s;
         isSyncing := isSyncing _ s;
         source := source s;
         lastSyncTime := lastSyncTime _ s;
         syncInProgress := syncInProgress _ s;
         syncCount := syncCount s;
         isUserInitiated := isUserInitiated _ s;
         floorClickSeq := floorClickSeq _ s;
         frameIdx := frameIdx _ s;
         currentPanoIndex := currentPanoIndex _ s;
         rest := rest _ s |}
  | TargetPanoPose p =>
      {| panoCam := panoCam s;
         forgeCam := forgeCam s;
         panoPosition := panoPosition s;
         forgePosition := forgePosition s;
         targetPanoPose := p;
         targetForgePose := targetForgePose _ s;
         isAnimating := isAnimating _ s;
         syncStartTime := syncStartTime _ s;
         isSyncing := isSyncing _ s;
         source := source s;
         lastSyncTime := lastSyncTime _ s;
         syncInProgress := syncInProgress _ s;
         syncCount := syncCount s;
         isUserInitiated := isUserInitiated _ s;
         floorClickSeq := floorClickSeq _ s;
         frameIdx := frameIdx _ s;
         currentPanoIndex := currentPanoIndex _ s;
         rest := rest _ s |}
  | TargetForgePose p =>
      {| panoCam := panoCam s;
         forgeCam := forgeCam s;
         panoPosition := panoPosition s;
         forgePosition := forgePosition s;
         targetPanoPose := targetPanoPose _ s;
         targetForgePose := p;
         isAnimating := isAnimating _ s;
         syncStartTime := syncStartTime _ s;
         isSyncing := isSyncing _ s;
         source := source s;
         lastSyncTime := lastSyncTime _ s;
         syncInProgress := syncInProgress _ s;
         syncCount := syncCount s;
         isUserInitiated := isUserInitiated _ s;
         floorClickSeq := floorClickSeq _ s;
         frameIdx := frameIdx _ s;
         currentPanoIndex := currentPanoIndex _ s;
         rest := rest _ s |}
  | IsAnimating b =>
      {| panoCam := panoCam s;
         forgeCam := forgeCam s;
         panoPosition := panoPosition s;
         forgePosition := forgePosition s;
         targetPanoPose := targetPanoPose _ s;
         targetForgePose := targetForgePose _ s;
         isAnimating := b;
         syncStartTime := syncStartTime _ s;
         isSyncing := isSyncing _ s;
         source := source s;
         lastSyncTime := lastSyncTime _ s;
         syncInProgress := syncInProgress _ s;
         syncCount := syncCount s;
         isUserInitiated := isUserInitiated _ s;
         floorClickSeq := floorClickSeq _ s;
         frameIdx := frameIdx _ s;
         currentPanoIndex := currentPanoIndex _ s;
         rest := rest _ s |}
  | SyncStartTime t =>
      {| panoCam := panoCam s;
         forgeCam := forgeCam s;
         panoPosition := panoPosition s;
         forgePosition := forgePosition s;
         targetPanoPose := targetPanoPose _ s;
         targetForgePose := targetForgePose _ s;
         isAnimating := isAnimating _ s;
         syncStartTime := t;
         isSyncing := isSyncing _ s;
         source := source s;
         lastSyncTime := lastSyncTime _ s;
         syncInProgress := syncInProgress _ s;
         syncCount := syncCount s;
         isUserInitiated := isUserInitiated _ s;
         floorClickSeq := floorClickSeq _ s;
         frameIdx := frameIdx _ s;
         currentPanoIndex := currentPanoIndex _ s;
         rest := rest _ s |}
  | IsSyncing b =>
      {| panoCam := panoCam s;
         forgeCam := forgeCam s;
         panoPosition := panoPosition s;
         forgePosition := forgePosition s;
         targetPanoPose := targetPanoPose _ s;
         targetForgePose := targetForgePose _ s;
         isAnimating := isAnimating _ s;
         syncStartTime := syncStartTime _ s;
         isSyncing := b;
         source := source s;
         lastSyncTime := lastSyncTime _ s;
         syncInProgress := syncInProgress _ s;
         syncCount := syncCount s;
         isUserInitiated := isUserInitiated _ s;
         floorClickSeq := floorClickSeq _ s;
         frameIdx := frameIdx _ s;
         currentPanoIndex := currentPanoIndex _ s;
         rest := rest _ s |}
  | Source_ src =>
      {| panoCam := panoCam s;
         forgeCam := forgeCam s;
         panoPosition := panoPosition s;
         forgePosition := forgePosition s;
         targetPanoPose := targetPanoPose _ s;
         targetForgePose := targetForgePose _ s;
         isAnimating := isAnimating _ s;
         syncStartTime := syncStartTime _ s;
         isSyncing := isSyncing _ s;
         source := src;
         lastSyncTime := lastSyncTime _ s;
         syncInProgress := syncInProgress _ s;
         syncCount := syncCount s;
         isUserInitiated := isUserInitiated _ s;
         floorClickSeq := floorClickSeq _ s;
         frameIdx := frameIdx _ s;
         currentPanoIndex := currentPanoIndex _ s;
         rest := rest _ s |}
  | LastSyncTime t =>
      {| panoCam := panoCam s;
         forgeCam := forgeCam s;
         panoPosition := panoPosition s;
         forgePosition := forgePosition s;
         targetPanoPose := targetPanoPose _ s;
         targetForgePose := targetForgePose _ s;
         isAnimating := isAnimating _ s;
         syncStartTime := syncStartTime _ s;
         isSyncing := isSyncing _ s;
         source := source s;
         lastSyncTime := t;
         syncInProgress := syncInProgress _ s;
         syncCount := syncCount s;
         isUserInitiated := isUserInitiated _ s;
         floorClickSeq := floorClickSeq _ s;
         frameIdx := frameIdx _ s;
         currentPanoIndex := currentPanoIndex _ s;
         rest := rest _ s |}
  | SyncInProgress b =>
      {| panoCam := panoCam s;
         forgeCam := forgeCam s;
         panoPosition := panoPosition s;
         forgePosition := forgePosition s;
         targetPanoPose := targetPanoPose _ s;
         targetForgePose := targetForgePose _ s;
         isAnimating := isAnimating _ s;
         syncStartTime := syncStartTime _ s;
         isSyncing := isSyncing _ s;
         source := source s;
         lastSyncTime := lastSyncTime _ s;
         syncInProgress := b;
         syncCount := syncCount s;
         isUserInitiated := isUserInitiated _ s;
         floorClickSeq := floorClickSeq _ s;
         frameIdx := frameIdx _ s;
         currentPanoIndex := currentPanoIndex _ s;
         rest := rest _ s |}
  | SyncCount n =>
      {| panoCam := panoCam s;
         forgeCam := forgeCam s;
         panoPosition := panoPosition s;
         forgePosition := forgePosition s;
         targetPanoPose := targetPanoPose _ s;
         targetForgePose := targetForgePose _ s;
         isAnimating := isAnimating _ s;
         syncStartTime := syncStartTime _ s;
         isSyncing := isSyncing _ s;
         source := source s;
         lastSyncTime := lastSyncTime _ s;
         syncInProgress := syncInProgress _ s;
         syncCount := n;
         isUserInitiated := isUserInitiated _ s;
         floorClickSeq := floorClickSeq _ s;
         frameIdx := frameIdx _ s;
         currentPanoIndex := currentPanoIndex _ s;
         rest := rest _ s |}
  | IsUserInitiated b =>
      {| panoCam := panoCam s;
         forgeCam := forgeCam s;
         panoPosition := panoPosition s;
         forgePosition := forgePosition s;
         targetPanoPose := targetPanoPose _ s;
         targetForgePose := targetForgePose _ s;
         isAnimating := isAnimating _ s;
         syncStartTime := syncStartTime _ s;
         isSyncing := isSyncing _ s;
         source := source s;
         lastSyncTime := lastSyncTime _ s;
         syncInProgress := syncInProgress _ s;
         syncCount := syncCount s;
         isUserInitiated := b;
         floorClickSeq := floorClickSeq _ s;
         frameIdx := frameIdx _ s;
         currentPanoIndex := currentPanoIndex _ s;
         rest := rest _ s |}
  | FloorClickSeq n =>
      {| panoCam := panoCam s;
         forgeCam := forgeCam s;
         panoPosition := panoPosition s;
         forgePosition := forgePosition s;
         targetPanoPose := targetPanoPose _ s;
         targetForgePose := targetForgePose _ s;
         isAnimating := isAnimating _ s;
         syncStartTime := syncStartTime _ s;
         isSyncing := isSyncing _ s;
         source := source s;
         lastSyncTime := lastSyncTime _ s;
         syncInProgress := syncInProgress _ s;
         syncCount := syncCount s;
         isUserInitiated := isUserInitiated _ s;
         floorClickSeq := n;
         frameIdx := frameIdx _ s;
         currentPanoIndex := currentPanoIndex _ s;
         rest := rest _ s |}
  | FrameIdx n =>
      {| panoCam := panoCam s;
         forgeCam := forgeCam s;
         panoPosition := panoPosition s;
         forgePosition := forgePosition s;
         targetPanoPose := targetPanoPose _ s;
         targetForgePose := targetForgePose _ s;
         isAnimating := isAnimating _ s;
         syncStartTime := syncStartTime _ s;
         isSyncing := isSyncing _ s;
         source := source s;
         lastSyncTime := lastSyncTime _ s;
         syncInProgress := syncInProgress _ s;
         syncCount := syncCount s;
         isUserInitiated := isUserInitiated _ s;
         floorClickSeq := floorClickSeq _ s;
         frameIdx := n;
         currentPanoIndex := currentPanoIndex _ s;
         rest := rest _ s |}
  | CurrentPanoIndex n =>
      {| panoCam := panoCam s;
         forgeCam := forgeCam s;
         panoPosition := panoPosition s;
         forgePosition := forgePosition s;
         targetPanoPose := targetPanoPose _ s;
         targetForgePose := targetForgePose _ s;
         isAnimating := isAnimating _ s;
         syncStartTime := syncStartTime _ s;
         isSyncing := isSyncing _ s;
         source := source s;
         lastSyncTime := lastSyncTime _ s;
         syncInProgress := syncInProgress _ s;
         syncCount := syncCount s;
         isUserInitiated := isUserInitiated _ s;
         floorClickSeq := floorClickSeq _ s;
         frameIdx := frameIdx _ s;
         currentPanoIndex := n;
         rest := rest _ s |}
  | Calibration_ c =>
      {| panoCam := panoCam s;
         forgeCam := forgeCam s;
         panoPosition := panoPosition s;
         forgePosition := forgePosition s;
         targetPanoPose := targetPanoPose _ s;
         targetForgePose := targetForgePose _ s;
         isAnimating := isAnimating _ s;
         syncStartTime := syncStartTime _ s;
         isSyncing := isSyncing _ s;
         source := source s;
         lastSyncTime := lastSyncTime _ s;
         syncInProgress := syncInProgress _ s;
         syncCount := syncCount s;
         isUserInitiated := isUserInitiated _ s;
         floorClickSeq := floorClickSeq _ s;
         frameIdx := frameIdx _ s;
         currentPanoIndex := currentPanoIndex _ s;
         rest := {| calibration := c; floorClick := floorClick (rest _ s); pathPoints := pathPoints (rest _ s); panoJumpRequest := panoJumpRequest (rest _ s) |} |}
  | FloorClick_ fc =>
      {| panoCam := panoCam s;
         forgeCam := forgeCam s;
         panoPosition := panoPosition s;
         forgePosition := forgePosition s;
         targetPanoPose := targetPanoPose _ s;
         targetForgePose := targetForgePose _ s;
         isAnimating := isAnimating _ s;
         syncStartTime := syncStartTime _ s;
         isSyncing := isSyncing _ s;
         source := source s;
         lastSyncTime := lastSyncTime _ s;
         syncInProgress := syncInProgress _ s;
         syncCount := syncCount s;
         isUserInitiated := isUserInitiated _ s;
         floorClickSeq := floorClickSeq _ s;
         frameIdx := frameIdx _ s;
         currentPanoIndex := currentPanoIndex _ s;
         rest := {| calibration := calibration (rest _ s); floorClick := fc; pathPoints := pathPoints (rest _ s); panoJumpRequest := panoJumpRequest (rest _ s) |} |}
  | PathPoints l =>
      {| panoCam := panoCam s;
         forgeCam := forgeCam s;
         panoPosition := panoPosition s;
         forgePosition := forgePosition s;
         targetPanoPose := targetPanoPose _ s;
         targetForgePose := targetForgePose _ s;
         isAnimating := isAnimating _ s;
         syncStartTime := syncStartTime _ s;
         isSyncing := isSyncing _ s;
         source := source s;
         lastSyncTime := lastSyncTime _ s;
         syncInProgress := syncInProgress _ s;
         syncCount := syncCount s;
         isUserInitiated := isUserInitiated _ s;
         floorClickSeq := floorClickSeq _ s;
         frameIdx := frameIdx _ s;
         currentPanoIndex := currentPanoIndex _ s;
         rest := {| calibration := calibration (rest _ s); floorClick := floorClick (rest _ s); pathPoints := l; panoJumpRequest := panoJumpRequest (rest _ s) |} |}
  | PanoJumpRequest fn =>
      {| panoCam := panoCam s;
         forgeCam := forgeCam s;
         panoPosition := panoPosition s;
         forgePosition := forgePosition s;
         targetPanoPose := targetPanoPose _ s;
         targetForgePose := targetForgePose _ s;
         isAnimating := isAnimating _ s;
         syncStartTime := syncStartTime _ s;
         isSyncing := isSyncing _ s;
         source := source s;
         lastSyncTime := lastSyncTime _ s;
         syncInProgress := syncInProgress _ s;
         syncCount := syncCount s;
         isUserInitiated := isUserInitiated _ s;
         floorClickSeq := floorClickSeq _ s;
         frameIdx := frameIdx _ s;
         currentPanoIndex := currentPanoIndex _ s;
         rest := {| calibration := calibration (rest _ s); floorClick := floorClick (rest _ s); pathPoints := pathPoints (rest _ s); panoJumpRequest := fn |} |}
  end.

(** [set(partial)]: the keys of [partial] are merged into the state. *)
Definition set (partial : list Field) (s : Store) : Store :=
  fold_left assign partial s.

Definition withFrame (c : Closure) (v : Vars) : Vars :=
  mkVars c (prevPanoPos v) (prevPanoQuat v) (prevForgePos v) (prevForgeQuat v).

(** [pushFloorClick(pos, meta = null)]; [now1] and [now2] are the two
    readings of [Date.now()]. *)
Definition pushFloorClick (pos : Value) (meta : option Value) (now1 now2 : Z)
    (s : Store) : Store :=
  set [FloorClick_ (Some (mkFloorClick pos meta (floorClickSeq _ s + 1) now1));
       FloorClickSeq (floorClickSeq _ s + 1);
       LastSyncTime now2] s.

(** [fromPanoCam(pos, quat)]. *)
Definition fromPanoCam (pos : option Pos) (quat : option Quat4) (now : Z)
    (sv : Store * Vars) : Store * Vars :=
  let '(s, v) := sv in
  if vectorEqual pos (prevPanoPos v) vector_tolerance
     && quatEqual quat (prevPanoQuat v) quat_tolerance
  then (s, v)
  else
    (set [PanoCam (mkCam pos quat); Source_ (Some pano); LastSyncTime now;
          SyncCount (syncCount s + 1)] s,
     mkVars (frame v) pos quat (prevForgePos v) (prevForgeQuat v)).

(** [fromForgeCam(pos, quat)]. *)
Definition fromForgeCam (pos : option Pos) (quat : option Quat4) (now : Z)
    (sv : Store * Vars) : Store * Vars :=
  let '(s, v) := sv in
  if vectorEqual pos (prevForgePos v) vector_tolerance
     && quatEqual quat (prevForgeQuat v) quat_tolerance
  then (s, v)
  else
    (set [ForgeCam (mkCam pos quat); Source_ (Some forge); LastSyncTime now;
          SyncCount (syncCount s + 1)] s,
     mkVars (frame v) (prevPanoPos v) (prevPanoQuat v) pos quat).

(** [fromPanoPosition(pos)]. *)
Definition fromPanoPosition (pos : option Pos) (now : Z) (sv : Store * Vars)
  : Store * Vars :=
  let '(s, v) := sv in
  if vectorEqual pos (prevPanoPos v) vector_tolerance then (s, v)
  else
    (set [PanoPosition pos; Source_ (Some pano); LastSyncTime now;
          SyncCount (syncCount s + 1)] s,
     mkVars (frame v) pos (prevPanoQuat v) (prevForgePos v) (prevForgeQuat v)).

(** [fromForgePosition(pos)]. *)
Definition fromForgePosition (pos : option Pos) (now : Z) (sv : Store * Vars)
  : Store * Vars :=
  let '(s, v) := sv in
  if vectorEqual pos (prevForgePos v) vector_tolerance then (s, v)
  else
    (set [ForgePosition pos; Source_ (Some forge); LastSyncTime now;
          SyncCount (syncCount s + 1)] s,
     mkVars (frame v) (prevPanoPos v) (prevPanoQuat v) pos (prevForgeQuat v)).

(** The smooth sync of [SyncStore], on the whole closure. *)
Definition smoothPano (t1 t2 : Z) (handle : nat) (pos : option Pos) (quat : option Quat4)
    (sv : Store * Vars) : Store * Vars :=
  let '(s, v) := sv in
  let '(s', c') := smoothSyncPano t1 t2 handle pos quat (s, frame v) in
  (s', withFrame c' v).

Definition smoothForge (t1 t2 : Z) (handle : nat) (pos : option Pos) (quat : option Quat4)
    (sv : Store * Vars) : Store * Vars :=
  let '(s, v) := sv in
  let '(s', c') := smoothSyncForge t1 t2 handle pos quat (s, frame v) in
  (s', withFrame c' v).

(** [applyForgePose(pos, quat, { smooth = true, publish = false })]. *)
Definition applyForgePose (pos : option Pos) (quat : option Quat4) (smooth publish : bool)
    (t1 t2 : Z) (handle : nat) (sv : Store * Vars) : Store * Vars :=
  if smooth then smoothForge t1 t2 handle pos quat sv
  else
    let '(s, v) := sv in
    if publish
    then (set [ForgeCam (mkCam pos quat); ForgePosition pos; Source_ (Some forge);
               LastSyncTime t1; SyncCount (syncCount s + 1)] s, v)
    else (set [ForgeCam (mkCam pos quat); ForgePosition pos] s, v).

(** [applyPanoPose(pos, quat, { smooth = true, publish = false })]. *)
Definition applyPanoPose (pos : option Pos) (quat : option Quat4) (smooth publish : bool)
    (t1 t2 : Z) (handle : nat) (sv : Store * Vars) : Store * Vars :=
  if smooth then smoothPano t1 t2 handle pos quat sv
  else
    let '(s, v) := sv in
    if publish
    then (set [PanoCam (mkCam pos quat); PanoPosition pos; Source_ (Some pano);
               LastSyncTime t1; SyncCount (syncCount s + 1)] s, v)
    else (set [PanoCam (mkCam pos quat); PanoPosition pos] s, v).

(** [canSync(minIntervalMs = 200)] and [getSyncDelta()]. *)
Definition getSyncDelta (now : Z) (s : Store) : Z := (now - lastSyncTime _ s)%Z.

Definition canSync (minIntervalMs : option Z) (now : Z) (s : Store) : bool :=
  (getSyncDelta now s >=? match minIntervalMs with Some m => m | None => 200 end)%Z.

(** [lerp(a, b, t)]. *)
Definition lerp (a b t : R) : R := a + (b - a) * t.

(** [x || v] on numbers: zero is falsy. *)
Definition or_else (x : option R) (v : R) : R :=
  match x with
  | Some x => if eqb x 0 then v else x
  | None => v
  end.

(** [position.x]: a number on an object, [undefined] on an array. *)
Definition x_of (position : Pos) : option R :=
  match position with
  | PosObj x _ _ => Some x
  | PosArr _ _ _ => None
  end.

(** [[quat[0] || 0, quat[1] || 0, quat[2] || 0, quat[3] || 1]]. *)
Definition startQuat (q : Quat4) : Quat4 :=
  let '(x, y, z, w) := q in
  (or_else (Some x) 0, or_else (Some y) 0, or_else (Some z) 0, or_else (Some w) 1).

(** The interpolated pose of one animation frame: [None] where the source
    throws a TypeError (a missing target, a target position that is not an
    array, a missing stored position or quaternion, or [slerp] failing for
    want of [window.THREE]). *)
Definition framePose (slerp : Quat4 -> option Quat4 -> R -> option Quat4)
    (target : option Pose) (stored : option Pos) (cam : Cam) (t : R)
  : option (Pos * Quat4) :=
  match target with
  | None => None
  | Some target =>
      match pose_pos target, stored, quat cam with
      | Some (PosArr a b c), Some stored, Some q =>
          let x0 v := or_else (x_of stored) v in
          match slerp (startQuat q) (pose_quat target) t with
          | Some newQuat =>
              Some (PosObj (lerp (x0 a) a t) (lerp (x0 b) b t) (lerp (x0 c) c t), newQuat)
          | None => None
          end
      | _, _, _ => None
      end
  end.

(** [animateSync(isForge)], run as an animation frame at time [now];
    [handle] is the id of the next frame it may request.  The boolean tells
    whether the call returned ([true]) or threw. *)
Definition animateSync (slerp : Quat4 -> option Quat4 -> R -> option Quat4)
    (isForge : bool) (now : Z) (handle : nat) (sv : Store * Vars)
  : Store * Vars * bool :=
  let '(state, v) := sv in
  if negb (isAnimating _ state) || isSyncing _ state
  then (state, withFrame (mkClosure None None) v, true)
  else
    let t0 := IZR (now - syncStartTime _ state) / 300 in
    let finished := negb (ltb t0 1) in
    let t := if finished then 1 else t0 in
    let s1 := if finished then set [IsAnimating false] state else state in
    let pose :=
      if isForge
      then framePose slerp (targetForgePose _ state) (forgePosition state)
                     (forgeCam state) t
      else framePose slerp (targetPanoPose _ state) (panoPosition state)
                     (panoCam state) t in
    match pose with
    | None => (s1, v, false)
    | Some (newPos, newQuat) =>
        if ltb t 1
        then
          (if isForge
           then set [ForgePosition (Some newPos);
                     ForgeCam (mkCam (pos (forgeCam state)) (Some newQuat))] s1
           else set [PanoPosition (Some newPos);
                     PanoCam (mkCam (pos (panoCam state)) (Some newQuat))] s1,
           withFrame (mkClosure (Some handle) (Some isForge)) v, true)
        else (s1, v, true)
    end.

(** Everything that writes to the store: its actions, the animation frames
    it schedules and the [setState({ source })] of the viewers. *)
Inductive Action : Type :=
| SetPathPoints (points : list Value)
| SetCurrentPanoIndex (idx : Z)
| SetCalibration (calib : option Value)
| SetPanoJumpRequest (fn : option Value)
| SetFrameIdx (idx : Z)
| SetIsUserInitiated (v : bool)
| SetIsSyncing (v : bool)
| SetSource (src : option Source)
| PushFloorClick (pos : Value) (meta : option Value) (now1 now2 : Z)
| SmoothSyncPano (t1 t2 : Z) (handle : nat) (pos : option Pos) (quat : option Quat4)
| SmoothSyncForge (t1 t2 : Z) (handle : nat) (pos : option Pos) (quat : option Quat4)
| FromPanoCam (pos : option Pos) (quat : option Quat4) (now : Z)
| FromForgeCam (pos : option Pos) (quat : option Quat4) (now : Z)
| FromPanoPosition (pos : option Pos) (now : Z)
| FromForgePosition (pos : option Pos) (now : Z)
| SetPanoCam (pos : option Pos) (quat : option Quat4)
| SetForgeCam (pos : option Pos) (quat : option Quat4)
| SetPanoPosition (pos : option Pos)
| SetForgePosition (pos : option Pos)
| ApplyForgePose (pos : option Pos) (quat : option Quat4) (smooth publish : bool)
                 (t1 t2 : Z) (handle : nat)
| ApplyPanoPose (pos : option Pos) (quat : option Quat4) (smooth publish : bool)
                (t1 t2 : Z) (handle : nat)
| StartSync
| EndSync
| ResetSyncCount
| AnimationFrame (slerp : Quat4 -> option Quat4 -> R -> option Quat4)
                 (isForge : bool) (now : Z) (handle : nat).

(** The store and the closure after an action; an animation frame that
    throws leaves what it had written before. *)
Definition act (sv : Store * Vars) (a : Action) : Store * Vars :=
  let '(s, v) := sv in
  match a with
  | SetPathPoints points => (set [PathPoints points] s, v)
  | SetCurrentPanoIndex idx => (set [CurrentPanoIndex idx] s, v)
  | SetCalibration calib => (set [Calibration_ calib] s, v)
  | SetPanoJumpRequest fn => (set [PanoJumpRequest fn] s, v)
  | SetFrameIdx idx => (set [FrameIdx idx] s, v)
  | SetIsUserInitiated b => (set [IsUserInitiated b] s, v)
  | SetIsSyncing b => (set [IsSyncing b] s, v)
  | SetSource src => (set [Source_ src] s, v)
  | PushFloorClick p meta now1 now2 => (pushFloorClick p meta now1 now2 s, v)
  | SmoothSyncPano t1 t2 handle p q => smoothPano t1 t2 handle p q sv
  | SmoothSyncForge t1 t2 handle p q => smoothForge t1 t2 handle p q sv
  | FromPanoCam p q now => fromPanoCam p q now sv
  | FromForgeCam p q now => fromForgeCam p q now sv
  | FromPanoPosition p now => fromPanoPosition p now sv
  | FromForgePosition p now => fromForgePosition p now sv
  | SetPanoCam p q => (set [PanoCam (mkCam p q)] s, v)
  | SetForgeCam p q => (set [ForgeCam (mkCam p q)] s, v)
  | SetPanoPosition p => (set [PanoPosition p] s, v)
  | SetForgePosition p => (set [ForgePosition p] s, v)
  | ApplyForgePose p q smooth publish t1 t2 handle =>
      applyForgePose p q smooth publish t1 t2 handle sv
  | ApplyPanoPose p q smooth publish t1 t2 handle =>
      applyPanoPose p q smooth publish t1 t2 handle sv
  | StartSync => (set [IsSyncing true; SyncInProgress true] s, v)
  | EndSync => (set [IsSyncing false; SyncInProgress false] s, v)
  | ResetSyncCount => (set [SyncCount 0] s, v)
  | AnimationFrame slerp isForge now handle =>
      fst (animateSync slerp isForge now handle sv)
  end.

(** The click record and the click counter agree, and the counters are not
    negative. *)
Definition counters_ok (s : Store) : Prop :=
  (0 <= syncCount s)%Z
  /\ match floorClick (rest _ s) with
     | None => floorClickSeq _ s = 0%Z
     | Some fc => seq fc = floorClickSeq _ s /\ (1 <= floorClickSeq _ s)%Z
     end.

End Actions.

End SyncActions.

(** ** [src/store/syncStore.js]: the throttle and debounce helpers *)

Module SyncHelpers.

Section Helpers.

(** The argument list a call is made with. *)
Variable Args : Type.

(** What happens to a wrapped function: it is called at time [now], or the
    pending timer, if there is one that is due, fires at time [now]. *)
Inductive Event : Type :=
| Call (now : Z) (args : Args)
| Fire (now : Z).

(** [createThrottle(fn, delay)]: the variables [lastCall] and [timeout] (the
    pending timer with the time it is due and the arguments its callback
    holds), and the log of the invocations of [fn]. *)
Record Throttle : Type := mkThrottle {
  lastCall : Z;
  timeout : option (Z * Args);
  invoked : list (Z * Args)
}.

Definition newThrottle : Throttle := mkThrottle 0 None [].

Definition throttle_step (delay : Z) (st : Throttle) (e : Event) : Throttle :=
  match e with
  | Call now args =>
      if (now - lastCall st >=? delay)%Z
      then mkThrottle now None (invoked st ++ [(now, args)])
      else mkThrottle (lastCall st)
                      (Some ((now + (delay - (now - lastCall st)))%Z, args))
                      (invoked st)
  | Fire now =>
      match timeout st with
      | Some (due, args) =>
          if (due <=? now)%Z
          then mkThrottle now None (invoked st ++ [(now, args)])
          else st
      | None => st
      end
  end.

(** [createDebounce(fn, delay, immediate = false)]: the pending timer with
    the time it is due, the latest arguments, and the log of the invocations
    of [fn]. *)
Record Debounce : Type := mkDebounce {
  pending : option Z;
  lastArgs : option Args;
  calls : list (Z * Args)
}.

Definition newDebounce : Debounce := mkDebounce None None [].

Definition debounce_step (delay : Z) (immediate : bool) (st : Debounce) (e : Event)
  : Debounce :=
  match e with
  | Call now args =>
      let callNow := immediate && match pending st with None => true | Some _ => false end in
      mkDebounce (Some (now + delay)%Z) (Some args)
                 (if callNow then calls st ++ [(now, args)] else calls st)
  | Fire now =>
      match pending st with
      | Some due =>
          if (due <=? now)%Z
          then mkDebounce None (lastArgs st)
                          (match immediate, lastArgs st with
                           | false, Some args => calls st ++ [(now, args)]
                           | _, _ => calls st
                           end)
          else st
      | None => st
      end
  end.

(** Consecutive invocations are at least [delay] apart, the first counted
    from [start]. *)
Fixpoint spaced (delay start : Z) (log : list (Z * Args)) : Prop :=
  match log with
  | [] => True
  | (t, _) :: rest => (delay <= t - start)%Z /\ spaced delay t rest
  end.

(** The time of the last invocation of the log, [start] when it is empty. *)
Definition last_time (start : Z) (log : list (Z * Args)) : Z :=
  fold_left (fun _ ta => fst ta) log start.

(** The latest call among the events. *)
Definition latest_call (events : list Event) : option (Z * Args) :=
  fold_left (fun acc e => match e with Call now args => Some (now, args) | Fire _ => acc end)
            events None.

End Helpers.

End SyncHelpers.

(** * Theorems *)

Module NumFacts.
Import Num.

Lemma ltb_true (a b : R) : ltb a b = true <-> a < b.
Proof. unfold ltb; destruct (Rlt_dec a b); split; intros; try easy. Qed.

Lemma ltb_false (a b : R) : ltb a b = false <-> b <= a.
Proof.
  unfold ltb; destruct (Rlt_dec a b); split; intros; try easy; lra.
Qed.

Lemma eqb_true (a b : R) : eqb a b = true <-> a = b.
Proof. unfold eqb; destruct (Req_dec_T a b); split; intros; easy. Qed.

Lemma eqb_false (a b : R) : eqb a b = false <-> a <> b.
Proof. unfold eqb; destruct (Req_dec_T a b); split; intros; easy. Qed.

Lemma sq_nonneg (r : R) : 0 <= r * r.
Proof. apply Rle_0_sqr. Qed.

Lemma hypot3_nonneg a b c : 0 <= hypot3 a b c.
Proof. apply sqrt_pos. Qed.

Lemma hypot3_axis a : 0 <= a -> hypot3 a 0 0 = a.
Proof.
  intros Ha; unfold hypot3.
  replace (a * a + 0 * 0 + 0 * 0) with (a * a) by ring.
  now apply sqrt_square.
Qed.

Lemma hypot3_sqr a b c : hypot3 a b c * hypot3 a b c = a * a + b * b + c * c.
Proof. unfold hypot3; apply sqrt_sqrt; nra. Qed.

End NumFacts.

Module KalmanProofs.
Import Num NumFacts.

(** *** The two models of the filter agree where no divisor is zero *)

Lemma div_finite (a b : R) : b <> 0 -> Js.div (Js.Fin a) (Js.Fin b) = Js.Fin (a / b).
Proof. intros H. cbn. now rewrite (proj2 (eqb_false b 0) H). Qed.

(** Where the three divisors of the gains are not zero, [update] on a finite
    filter and a finite measurement computes in [Js] what [Kalman.update]
    computes in [R]. *)
Lemma update_finite (m : Point3) (kf : Kalman.KalmanFilter3D) :
  (let '(dx, dy, dz) := Kalman.divisors m kf in dx <> 0 /\ dy <> 0 /\ dz <> 0) ->
  KalmanJs.update (KalmanJs.of_point m) (KalmanJs.of_filter kf)
  = (KalmanJs.of_filter (fst (Kalman.update m kf)),
     KalmanJs.of_point (snd (Kalman.update m kf))).
Proof.
  unfold Kalman.divisors, KalmanJs.update, Kalman.update, KalmanJs.of_filter.
  destruct m as [mx my mz], kf as [pn mn [x0 x1 x2] [p0 p1 p2] i].
  destruct i; cbn -[Js.div]; intros (Hx & Hy & Hz);
    rewrite !div_finite by assumption; cbn;
    unfold KalmanJs.of_point; cbn; repeat f_equal; ring.
Qed.

Import Js KalmanJs.




Import Kalman.

(** The filtering stage, [sg.map(p => kf.update(p))], keeps one output per
    sample. *)
Lemma run_length ms : forall kf, length (run kf ms) = length ms.
Proof.
  induction ms as [| m ms IH]; intros kf; cbn [run]; [reflexivity |].
  destruct (update m kf) as [kf' out]. cbn [length]. now rewrite IH.
Qed.

End KalmanProofs.

Module PanoHelpersProofs.
Import Num NumFacts PanoHelpers.

Lemma fix_step_length rng minDist fixed c curr :
  fixed <> [] ->
  length (fst (fix_step rng minDist (fixed, c) curr)) = S (length fixed)
  /\ fst (fix_step rng minDist (fixed, c) curr) <> [].
Proof.
  intros Hne; unfold fix_step.
  destruct fixed as [| prev rest]; [congruence |].
  destruct (ltb _ minDist).
  - destruct (ltb _ (1 / 10 ^ 6)); cbn; split; congruence.
  - cbn; split; congruence.
Qed.

Lemma fix_loop_length rng minDist rest : forall fixed c,
  fixed <> [] ->
  length (fst (fold_left (fix_step rng minDist) rest (fixed, c)))
  = (length fixed + length rest)%nat.
Proof.
  induction rest as [| curr rest IH]; intros fixed c Hne; cbn [fold_left].
  - cbn; lia.
  - destruct (fix_step_length rng minDist fixed c curr Hne) as [Hlen Hne'].
    destruct (fix_step rng minDist (fixed, c) curr) as [fixed' c'] eqn:E.
    cbn [fst] in Hlen, Hne'.
    rewrite IH by assumption. cbn [length]. lia.
Qed.

Lemma fixOverlappingPoints_length rng points minDist :
  length (fixOverlappingPoints rng points minDist) = length points.
Proof.
  unfold fixOverlappingPoints.
  destruct points as [| p0 [| p1 rest]]; try reflexivity.
  rewrite length_rev, fix_loop_length by discriminate.
  reflexivity.
Qed.

(** Equality of concrete point lists, component by component. *)
Ltac points_eq :=
  repeat match goal with
         | |- _ :: _ = _ :: _ => apply f_equal2
         | |- mkPoint3 _ _ _ = mkPoint3 _ _ _ => apply f_equal3
         end;
  try reflexivity; try lra.

Lemma fix_step_far rng minDist prev rest c curr :
  minDist <= hypot3 (px curr - px prev) (py curr - py prev) (pz curr - pz prev) ->
  fix_step rng minDist (prev :: rest, c) curr = (curr :: prev :: rest, c).
Proof.
  intros Hd; unfold fix_step.
  now rewrite (proj2 (ltb_false _ _) Hd).
Qed.

Lemma fix_step_near rng minDist prev rest c curr :
  let d := hypot3 (px curr - px prev) (py curr - py prev) (pz curr - pz prev) in
  d < minDist -> 1 / 10 ^ 6 <= d ->
  fix_step rng minDist (prev :: rest, c) curr =
  (mkPoint3 ((px prev + px curr) / 2 + (px curr - px prev) / d * (minDist / 2))
            ((py prev + py curr) / 2 + (py curr - py prev) / d * (minDist / 2))
            ((pz prev + pz curr) / 2 + (pz curr - pz prev) / d * (minDist / 2))
   :: mkPoint3 ((px prev + px curr) / 2 - (px curr - px prev) / d * (minDist / 2))
               ((py prev + py curr) / 2 - (py curr - py prev) / d * (minDist / 2))
               ((pz prev + pz curr) / 2 - (pz curr - pz prev) / d * (minDist / 2))
   :: rest, c).
Proof.
  intros d Hlt Hge; unfold fix_step; fold d.
  rewrite (proj2 (ltb_true _ _) Hlt), (proj2 (ltb_false _ _) Hge).
  reflexivity.
Qed.

Lemma fix_step_coincident rng minDist prev rest c curr :
  let d := hypot3 (px curr - px prev) (py curr - py prev) (pz curr - pz prev) in
  d < minDist -> d < 1 / 10 ^ 6 ->
  fix_step rng minDist (prev :: rest, c) curr =
  (mkPoint3 ((px prev + px curr) / 2 + (rng c - 5 / 10) * (minDist / 2))
            ((py prev + py curr) / 2 + (rng (S c) - 5 / 10) * (minDist / 2))
            ((pz prev + pz curr) / 2 + (rng (S (S c)) - 5 / 10) * (minDist / 2))
   :: mkPoint3 ((px prev + px curr) / 2 - (rng c - 5 / 10) * (minDist / 2))
               ((py prev + py curr) / 2 - (rng (S c) - 5 / 10) * (minDist / 2))
               ((pz prev + pz curr) / 2 - (rng (S (S c)) - 5 / 10) * (minDist / 2))
   :: rest, S (S (S c))).
Proof.
  intros d Hlt Hco; unfold fix_step; fold d.
  rewrite (proj2 (ltb_true _ _) Hlt), (proj2 (ltb_true _ _) Hco).
  reflexivity.
Qed.

Lemma fixOverlappingPoints_crowded rng :
  fixOverlappingPoints rng crowded 1
  = [mkPoint3 0 0 0; mkPoint3 (3 / 4) 0 0; mkPoint3 (7 / 4) 0 0].
Proof.
  unfold fixOverlappingPoints, crowded; cbn [fold_left].
  assert (H1 : hypot3 (1 - 0) (0 - 0) (0 - 0) = 1).
  { replace (1 - 0) with 1 by lra. replace (0 - 0) with 0 by lra.
    apply hypot3_axis; lra. }
  assert (H2 : hypot3 (3 / 2 - 1) (0 - 0) (0 - 0) = 1 / 2).
  { replace (3 / 2 - 1) with (1 / 2) by lra. replace (0 - 0) with 0 by lra.
    apply hypot3_axis; lra. }
  rewrite fix_step_far by (cbn; rewrite H1; lra).
  rewrite fix_step_near by (cbn; rewrite H2; lra).
  cbn. rewrite H2.
  points_eq.
Qed.

(** C7 (the code does not establish the invariant): on the three collinear
    points 0, 1, 3/2 with threshold 1 the repaired pair is moved to 3/4 and
    7/4, which leaves the first two output points only 3/4 apart. *)
Theorem fixOverlappingPoints_not_separated (rng : nat -> R) :
  ~ separated 1 (fixOverlappingPoints rng crowded 1).
Proof.
  rewrite fixOverlappingPoints_crowded.
  cbn. intros [Hfirst _]. apply Hfirst.
  unfold dist3; cbn.
  replace (0 - 3 / 4) with (- (3 / 4)) by lra. replace (0 - 0) with 0 by lra.
  unfold hypot3.
  replace (- (3 / 4) * - (3 / 4) + 0 * 0 + 0 * 0) with ((3 / 4) * (3 / 4)) by lra.
  rewrite sqrt_square; lra.
Qed.

(** The second way the invariant is lost: the random direction used for
    coincident points is not normalised, so the two replacement points are
    always closer than the threshold. *)
Lemma fixOverlappingPoints_coincident_too_close (rng : nat -> R) (q : Point3) (minDist : R) :
  (forall i, 0 <= rng i < 1) -> 0 < minDist ->
  ~ separated minDist (fixOverlappingPoints rng [q; q] minDist).
Proof.
  intros Hrng Hpos.
  unfold fixOverlappingPoints; cbn [fold_left].
  assert (H0 : hypot3 (px q - px q) (py q - py q) (pz q - pz q) = 0).
  { unfold hypot3.
    replace (_ + _ + _) with 0 by ring. apply sqrt_0. }
  rewrite fix_step_coincident by (rewrite H0; lra).
  cbn. intros [Hfirst _]. apply Hfirst; clear Hfirst.
  unfold dist3; cbn.
  pose proof (Hrng 0%nat) as [A0 A1].
  pose proof (Hrng 1%nat) as [B0 B1].
  pose proof (Hrng 2%nat) as [C0 C1].
  set (a := rng 0%nat) in *. set (b := rng 1%nat) in *. set (c := rng 2%nat) in *.
  clearbody a b c.
  unfold hypot3.
  match goal with |- sqrt ?e < _ =>
    replace e with (minDist * minDist *
                    ((a - 5 / 10) * (a - 5 / 10) + (b - 5 / 10) * (b - 5 / 10)
                     + (c - 5 / 10) * (c - 5 / 10))) by field
  end.
  assert (Ha : 0 <= (a - 5 / 10) * (a - 5 / 10) <= 1 / 4)
    by (split; [apply sq_nonneg | nra]).
  assert (Hb : 0 <= (b - 5 / 10) * (b - 5 / 10) <= 1 / 4)
    by (split; [apply sq_nonneg | nra]).
  assert (Hc : 0 <= (c - 5 / 10) * (c - 5 / 10) <= 1 / 4)
    by (split; [apply sq_nonneg | nra]).
  apply Rlt_le_trans with (sqrt (minDist * minDist));
    [| rewrite sqrt_square by lra; lra].
  apply sqrt_lt_1_alt. split; nra.
Qed.

Lemma convolve_length half coeffs points :
  length (convolve half coeffs points) = length points.
Proof. unfold convolve; now rewrite length_map, length_seq. Qed.

Lemma savitzkyGolay_length points windowSize polyOrder :
  length (savitzkyGolay points windowSize polyOrder) = length points.
Proof.
  unfold savitzkyGolay.
  destruct points as [| p0 rest]; [reflexivity |].
  repeat match goal with
         | |- context [match ?o with Some _ => _ | None => _ end] => destruct o
         end;
    try reflexivity.
  apply convolve_length.
Qed.

(** A run of the smoother: window 3 and order 0 is the moving average, the
    ends repeating the first and last sample. *)
Example savitzkyGolay_moving_average (a b c : R) :
  savitzkyGolay [mkPoint3 a 0 0; mkPoint3 b 0 0; mkPoint3 c 0 0] 3 0
  = [mkPoint3 ((a + a + b) / 3) 0 0;
     mkPoint3 ((a + b + c) / 3) 0 0;
     mkPoint3 ((b + c + c) / 3) 0 0].
Proof.
  unfold savitzkyGolay.
  change (Z.eqb (Z.rem 3 2) 0) with false; cbv iota.
  change (3 / 2)%Z with 1%Z.
  change (design 1 0) with [[1]; [1]; [1]].
  cbn [transpose multiply length seq map nth fold_left].
  unfold invert, invert_step, mapi, div_row, sub_row.
  cbn [length seq combine map fold_left fst snd Nat.eqb nth skipn app].
  assert (H3 : 0 + 1 * 1 + 1 * 1 + 1 * 1 = 3) by ring.
  rewrite !H3.
  rewrite (proj2 (eqb_false 3 0)) by lra.
  rewrite (Rabs_pos_eq 3) by lra.
  rewrite (proj2 (ltb_false _ _)) by lra.
  cbn [multiply length seq map nth fold_left].
  change (Z.to_nat 1) with 1%nat. cbn [nth].
  unfold convolve.
  change (zrange (- (1)) 1) with [(-1)%Z; 0%Z; 1%Z].
  cbn [length seq map fold_left].
  repeat match goal with
         | |- context [clamp_index ?n ?z] =>
             let v := eval vm_compute in (clamp_index n z) in
             change (clamp_index n z) with v
         | |- context [Z.to_nat ?z] =>
             let v := eval vm_compute in (Z.to_nat z) in
             change (Z.to_nat z) with v
         end.
  cbn [nth px py pz].
  points_eq; field.
Qed.

(** C8: both conditioning stages keep the number of samples: on every
    non-empty input [savitzkyGolay] and [fixOverlappingPoints] return a list
    of exactly the input length. *)
Theorem conditioning_preserves_length
    (rng : nat -> R) (points : list Point3) (windowSize polyOrder : Z) (minDist : R) :
  points <> [] ->
  length (savitzkyGolay points windowSize polyOrder) = length points
  /\ length (fixOverlappingPoints rng points minDist) = length points.
Proof.
  intros _; split;
    [apply savitzkyGolay_length | apply fixOverlappingPoints_length].
Qed.

Lemma conditioning_preserves_length_witness :
  let pts := [mkPoint3 0 0 0; mkPoint3 1 0 0; mkPoint3 (3 / 2) 0 0] in
  pts <> []
  /\ length (savitzkyGolay pts default_windowSize default_polyOrder) = 3%nat
  /\ length (fixOverlappingPoints (fun _ => 0) pts default_minDist) = 3%nat.
Proof.
  cbv zeta.
  split; [discriminate |].
  apply (conditioning_preserves_length (fun _ => 0)
           [mkPoint3 0 0 0; mkPoint3 1 0 0; mkPoint3 (3 / 2) 0 0]
           default_windowSize default_polyOrder default_minDist).
  discriminate.
Defined.

End PanoHelpersProofs.

Module SyncStoreProofs.
Import Num NumFacts SyncStore.

Lemma vectorEqual_arrays x y z sx sy sz tol :
  vectorEqual (Some (PosArr x y z)) (Some (PosArr sx sy sz)) tol = true
  <-> Rabs (x - sx) < tol /\ Rabs (y - sy) < tol /\ Rabs (z - sz) < tol.
Proof.
  cbn. rewrite !andb_true_iff, !ltb_true. tauto.
Qed.

(** A position held as an object never compares equal: its indexed reads are
    [undefined]. *)
Lemma vectorEqual_object v x y z tol :
  vectorEqual v (Some (PosObj x y z)) tol = false.
Proof. destruct v as [[? ? ? | ? ? ?] |]; reflexivity. Qed.

Lemma quatEqual_arrays (q sq : Quat4) tol :
  quatEqual (Some q) (Some sq) tol = true
  <-> (let '(a, b, c, d) := q in
       let '(sa, sb, sc, sd) := sq in
       Rabs (a - sa) < tol /\ Rabs (b - sb) < tol
       /\ Rabs (c - sc) < tol /\ Rabs (d - sd) < tol).
Proof.
  destruct q as [[[a b] c] d], sq as [[[sa sb] sc] sd].
  cbn. rewrite !andb_true_iff, !ltb_true. tauto.
Qed.

Lemma gate_arrays x y z sx sy sz (q sq : Quat4) :
  vectorEqual (Some (PosArr x y z)) (Some (PosArr sx sy sz)) vector_tolerance
  && quatEqual (Some q) (Some sq) quat_tolerance = true
  <-> delta_below (PosArr x y z) (PosArr sx sy sz) q sq.
Proof.
  rewrite andb_true_iff, vectorEqual_arrays, quatEqual_arrays.
  unfold delta_below, vector_tolerance, quat_tolerance.
  destruct q as [[[a b] c] d], sq as [[[sa sb] sc] sd]; cbn. tauto.
Qed.

Section Reports.
Context {Rest : Type}.
Implicit Types (s : State Rest) (c : Closure).

Lemma smoothSyncPano_rejected t1 t2 h p q s c :
  vectorEqual p (panoPosition s) vector_tolerance
  && quatEqual q (quat (panoCam s)) quat_tolerance = true ->
  smoothSyncPano t1 t2 h p q (s, c) = (s, c).
Proof.
  intros H; apply andb_true_iff in H as [Hv Hq].
  unfold smoothSyncPano; now rewrite Hv, Hq.
Qed.

Lemma smoothSyncPano_accepted t1 t2 h p q s c :
  vectorEqual p (panoPosition s) vector_tolerance
  && quatEqual q (quat (panoCam s)) quat_tolerance = false ->
  let s' := fst (smoothSyncPano t1 t2 h p q (s, c)) in
  source s' = Some pano /\ syncCount s' = (syncCount s + 1)%Z /\ s' <> s.
Proof.
  intros H; unfold smoothSyncPano.
  rewrite <- negb_andb, H; cbn.
  repeat split. intros E. apply (f_equal syncCount) in E; cbn in E. lia.
Qed.

Lemma smoothSyncForge_rejected t1 t2 h p q s c :
  vectorEqual p (forgePosition s) vector_tolerance
  && quatEqual q (quat (forgeCam s)) quat_tolerance = true ->
  smoothSyncForge t1 t2 h p q (s, c) = (s, c).
Proof.
  intros H; apply andb_true_iff in H as [Hv Hq].
  unfold smoothSyncForge; now rewrite Hv, Hq.
Qed.

Lemma smoothSyncForge_accepted t1 t2 h p q s c :
  vectorEqual p (forgePosition s) vector_tolerance
  && quatEqual q (quat (forgeCam s)) quat_tolerance = false ->
  let s' := fst (smoothSyncForge t1 t2 h p q (s, c)) in
  source s' = Some forge /\ syncCount s' = (syncCount s + 1)%Z /\ s' <> s.
Proof.
  intros H; unfold smoothSyncForge.
  rewrite <- negb_andb, H; cbn.
  repeat split. intros E. apply (f_equal syncCount) in E; cbn in E. lia.
Qed.

Lemma smoothSyncPano_noop_iff t1 t2 h p q s c :
  smoothSyncPano t1 t2 h p q (s, c) = (s, c)
  <-> vectorEqual p (panoPosition s) vector_tolerance
      && quatEqual q (quat (panoCam s)) quat_tolerance = true.
Proof.
  split; [| apply smoothSyncPano_rejected].
  intros H. destruct (_ && _) eqn:E; [reflexivity |].
  destruct (smoothSyncPano_accepted t1 t2 h p q s c E) as (_ & _ & N).
  rewrite H in N. now elim N.
Qed.

Lemma smoothSyncForge_noop_iff t1 t2 h p q s c :
  smoothSyncForge t1 t2 h p q (s, c) = (s, c)
  <-> vectorEqual p (forgePosition s) vector_tolerance
      && quatEqual q (quat (forgeCam s)) quat_tolerance = true.
Proof.
  split; [| apply smoothSyncForge_rejected].
  intros H. destruct (_ && _) eqn:E; [reflexivity |].
  destruct (smoothSyncForge_accepted t1 t2 h p q s c E) as (_ & _ & N).
  rewrite H in N. now elim N.
Qed.

Lemma gate_stored_array x y z sx sy sz (q : Quat4) (stored : option Quat4) :
  vectorEqual (Some (PosArr x y z)) (Some (PosArr sx sy sz)) vector_tolerance
  && quatEqual (Some q) stored quat_tolerance = true
  <-> exists sq, stored = Some sq
                 /\ delta_below (PosArr x y z) (PosArr sx sy sz) q sq.
Proof.
  destruct stored as [sq |].
  - rewrite gate_arrays. split.
    + intros H. now exists sq.
    + intros (sq' & E & H). now injection E as <-.
  - split.
    + intros H. apply andb_true_iff in H as [_ H]. discriminate H.
    + intros (sq & E & _). discriminate E.
Qed.

(** C3, as amended: with the reporting viewer's stored position held as an
    array, a report of an array position and a quaternion leaves the store
    (and the pending animation frame) unchanged if and only if that viewer
    has a stored quaternion and the reported pose is within the noise
    thresholds of the stored pose, whatever the current authority; every
    report that is not a no-op, whatever the store holds and whatever is
    reported, sets [source] to the reporting viewer and adds one to
    [syncCount]. *)
Theorem smoothSync_noop_iff_below_thresholds
    t1 t2 h (p : option Pos) (q : option Quat4) s c :
  let rp := smoothSyncPano t1 t2 h p q (s, c) in
  let rf := smoothSyncForge t1 t2 h p q (s, c) in
  (forall x y z q0 sx sy sz,
      p = Some (PosArr x y z) -> q = Some q0 ->
      panoPosition s = Some (PosArr sx sy sz) ->
      (rp = (s, c)
       <-> exists sq, quat (panoCam s) = Some sq
                      /\ delta_below (PosArr x y z) (PosArr sx sy sz) q0 sq))
  /\ (rp <> (s, c) ->
      source (fst rp) = Some pano /\ syncCount (fst rp) = (syncCount s + 1)%Z)
  /\ (forall x y z q0 fx fy fz,
        p = Some (PosArr x y z) -> q = Some q0 ->
        forgePosition s = Some (PosArr fx fy fz) ->
        (rf = (s, c)
         <-> exists fq, quat (forgeCam s) = Some fq
                        /\ delta_below (PosArr x y z) (PosArr fx fy fz) q0 fq))
  /\ (rf <> (s, c) ->
      source (fst rf) = Some forge /\ syncCount (fst rf) = (syncCount s + 1)%Z).
Proof.
  cbv zeta. split; [| split; [| split]].
  - intros x y z q0 sx sy sz -> -> Hp.
    rewrite smoothSyncPano_noop_iff, Hp. apply gate_stored_array.
  - intros N.
    destruct (vectorEqual p (panoPosition s) vector_tolerance
              && quatEqual q (quat (panoCam s)) quat_tolerance) eqn:E.
    + elim N. now apply smoothSyncPano_rejected.
    + destruct (smoothSyncPano_accepted t1 t2 h _ _ s c E) as (A & B & _).
      now split.
  - intros x y z q0 fx fy fz -> -> Hp.
    rewrite smoothSyncForge_noop_iff, Hp. apply gate_stored_array.
  - intros N.
    destruct (vectorEqual p (forgePosition s) vector_tolerance
              && quatEqual q (quat (forgeCam s)) quat_tolerance) eqn:E.
    + elim N. now apply smoothSyncForge_rejected.
    + destruct (smoothSyncForge_accepted t1 t2 h _ _ s c E) as (A & B & _).
      now split.
Qed.

End Reports.

Lemma Rabs_self_lt (a tol : R) : 0 < tol -> Rabs (a - a) < tol.
Proof. intros H. replace (a - a) with 0 by ring. now rewrite Rabs_R0. Qed.

Lemma forge_led_pano_gate :
  vectorEqual (Some (PosArr 0 0 0)) (panoPosition forge_led) vector_tolerance
  && quatEqual (Some pano_quat0) (quat (panoCam forge_led)) quat_tolerance = true.
Proof.
  apply andb_true_iff; split.
  - apply vectorEqual_arrays; unfold vector_tolerance;
      repeat split; apply Rabs_self_lt; lra.
  - apply (quatEqual_arrays pano_quat0 pano_quat0); unfold quat_tolerance; cbn;
      repeat split; apply Rabs_self_lt; lra.
Qed.

(** C3, counterexample to the spec's statement: with the model viewer as the
    authority, a panorama report that repeats the stored panorama pose is
    dropped and the store is unchanged, although the reporting source is not
    the current authority. *)
Lemma smoothSyncPano_noop_without_authority :
  panoPosition forge_led = Some (PosArr 0 0 0)
  /\ quat (panoCam forge_led) = Some pano_quat0
  /\ source forge_led = Some forge
  /\ ~ (smoothSyncPano 1 1 1 (Some (PosArr 0 0 0)) (Some pano_quat0) (forge_led, idle)
        = (forge_led, idle)
        <-> source forge_led = Some pano
            /\ delta_below (PosArr 0 0 0) (PosArr 0 0 0) pano_quat0 pano_quat0).
Proof.
  do 3 (split; [reflexivity |]).
  intros [Honly _].
  assert (Hsrc : source forge_led = Some pano).
  { apply Honly. apply smoothSyncPano_rejected, forge_led_pano_gate. }
  discriminate Hsrc.
Qed.

Lemma smoothSync_noop_iff_below_thresholds_witness :
  panoPosition forge_led = Some (PosArr 0 0 0)
  /\ (smoothSyncPano 1 2 1 (Some (PosArr 1 0 0)) (Some pano_quat0) (forge_led, idle)
      = (forge_led, idle)
      <-> exists sq, quat (panoCam forge_led) = Some sq
                     /\ delta_below (PosArr 1 0 0) (PosArr 0 0 0) pano_quat0 sq).
Proof.
  split; [reflexivity |].
  exact (proj1 (smoothSync_noop_iff_below_thresholds (Rest := unit)
                  1 2 1 (Some (PosArr 1 0 0)) (Some pano_quat0) forge_led idle)
               1 0 0 pano_quat0 0 0 0 eq_refl eq_refl eq_refl).
Defined.

(** The store's own initial positions are objects, against which
    [vectorEqual] is never true: from the initial store every report is
    accepted, also one that repeats the stored pose. *)
Lemma smoothSyncPano_initial_always_accepted t1 t2 h p q (r : unit) c :
  source (fst (smoothSyncPano t1 t2 h p q (initial r, c))) = Some pano.
Proof.
  unfold smoothSyncPano. cbn [panoPosition initial].
  now rewrite vectorEqual_object.
Qed.

End SyncStoreProofs.

Module QuatProofs.
Import Quat.

Ltac quat_destruct :=
  repeat match goal with
         | q : quat |- _ => destruct q as [[[? ?] ?] ?]
         end.

Ltac quat_eq :=
  apply (f_equal2 pair); [apply (f_equal2 pair); [apply (f_equal2 pair) |] |].

Lemma threeMultiply_qMul a b : threeMultiply a b = qMul a b.
Proof. quat_destruct; cbn; quat_eq; ring. Qed.

Lemma len2_qMul a b : len2 (qMul a b) = len2 a * len2 b.
Proof. quat_destruct; cbn; ring. Qed.

Lemma len2_qScale k a : len2 (qScale k a) = k * k * len2 a.
Proof. quat_destruct; cbn; ring. Qed.

Lemma len2_qConj a : len2 (qConj a) = len2 a.
Proof. quat_destruct; cbn; ring. Qed.

Lemma len2_nonneg a : 0 <= len2 a.
Proof. quat_destruct; cbn; nra. Qed.

Lemma len2_pos a : len2 a <> 0 -> 0 < len2 a.
Proof.
  intros H. destruct (len2_nonneg a) as [Hlt | Heq]; [assumption |].
  now elim H.
Qed.

Lemma qScale_qScale j k a : qScale j (qScale k a) = qScale (j * k) a.
Proof. quat_destruct; cbn; quat_eq; ring. Qed.

Lemma qMul_qScale j k a b :
  qMul (qScale j a) (qScale k b) = qScale (j * k) (qMul a b).
Proof. quat_destruct; cbn; quat_eq; ring. Qed.

Lemma qNormalize_qScale a :
  len2 a <> 0 -> qNormalize a = qScale (/ sqrt (len2 a)) a.
Proof.
  intros _; quat_destruct; cbn.
  quat_eq; unfold Rdiv; ring.
Qed.

Lemma qInverse_qScale a :
  len2 a <> 0 -> qInverse a = qScale (/ len2 a) (qConj a).
Proof.
  intros _; quat_destruct; cbn.
  quat_eq; unfold Rdiv; ring.
Qed.

Lemma len2_qNormalize a : len2 a <> 0 -> len2 (qNormalize a) = 1.
Proof.
  intros H. rewrite qNormalize_qScale, len2_qScale by assumption.
  pose proof (len2_pos a H) as Hpos.
  rewrite <- Rinv_mult, sqrt_sqrt by lra. field; lra.
Qed.

Lemma along_refl a : len2 a <> 0 -> along a a.
Proof.
  intros H; split; [| assumption].
  exists 1; split; [lra |]. quat_destruct; cbn; quat_eq; ring.
Qed.

Lemma along_qScale k a : 0 < k -> len2 a <> 0 -> along (qScale k a) a.
Proof. intros Hk Ha; split; [exists k; now split | assumption]. Qed.

Lemma along_len2 a b : along a b -> 0 < len2 a.
Proof.
  intros [(k & Hk & ->) Hb]. rewrite len2_qScale.
  pose proof (len2_pos b Hb).
  repeat apply Rmult_lt_0_compat; assumption.
Qed.

Lemma along_trans a b c : along a b -> along b c -> along a c.
Proof.
  intros [(j & Hj & ->) _] [(k & Hk & ->) Hc]. split; [| assumption].
  exists (j * k); split; [nra | apply qScale_qScale].
Qed.

Lemma along_qMul a a' b b' :
  along a a' -> along b b' -> along (qMul a b) (qMul a' b').
Proof.
  intros [(j & Hj & ->) Ha] [(k & Hk & ->) Hb]. split.
  - exists (j * k); split; [nra | apply qMul_qScale].
  - rewrite len2_qMul. apply Rmult_integral_contrapositive; now split.
Qed.

Lemma along_qNormalize a b : along a b -> along (qNormalize a) b.
Proof.
  intros H. pose proof (along_len2 _ _ H) as Hpos.
  apply along_trans with a; [| assumption].
  rewrite qNormalize_qScale by lra.
  apply along_qScale; [| lra].
  apply Rinv_0_lt_compat, sqrt_lt_R0, Hpos.
Qed.

Lemma along_qInverse a : len2 a <> 0 -> along (qInverse a) (qConj a).
Proof.
  intros H. rewrite qInverse_qScale by assumption.
  apply along_qScale; [apply Rinv_0_lt_compat, len2_pos, H | now rewrite len2_qConj].
Qed.

Lemma SQRT1_2_pos : 0 < SQRT1_2.
Proof. apply sqrt_lt_R0; lra. Qed.

Lemma along_pitch : along Q_PITCH_DOWN_90 (1, 0, 0, 1).
Proof.
  replace Q_PITCH_DOWN_90 with (qScale SQRT1_2 (1, 0, 0, 1)).
  - apply along_qScale; [apply SQRT1_2_pos | cbn; lra].
  - unfold Q_PITCH_DOWN_90; cbn; quat_eq; ring.
Qed.

Lemma len2_QUAT_TRANSFORM : len2 QUAT_TRANSFORM <> 0.
Proof. cbn; lra. Qed.

Lemma len2_Q_180_Z : len2 Q_180_Z <> 0.
Proof. cbn; lra. Qed.

(** Up to a positive factor, the reverse pipeline multiplies on the left by
    the conjugate of the calibration quaternion, then of the pitch, then of
    the turn. *)
Lemma forgeToPanoQuaternion_core f g :
  along f g ->
  along (qMul (qInverse Q_180_Z)
           (qNormalize (qMul (qInverse Q_PITCH_DOWN_90)
              (qNormalize (qMul (qInverse QUAT_TRANSFORM) f)))))
        (qMul (qConj Q_180_Z)
              (qMul (qConj (1, 0, 0, 1)) (qMul (qConj QUAT_TRANSFORM) g))).
Proof.
  intros Hf.
  apply along_qMul.
  { apply along_qInverse, len2_Q_180_Z. }
  apply along_qNormalize, along_qMul.
  { apply along_trans with (qConj Q_PITCH_DOWN_90).
    - apply along_qInverse. pose proof (along_len2 _ _ along_pitch). lra.
    - replace (qConj Q_PITCH_DOWN_90) with (qScale SQRT1_2 (qConj (1, 0, 0, 1))).
      + apply along_qScale; [apply SQRT1_2_pos | cbn; lra].
      + unfold Q_PITCH_DOWN_90; cbn; quat_eq; ring. }
  apply along_qNormalize, along_qMul; [| assumption].
  apply along_qInverse, len2_QUAT_TRANSFORM.
Qed.

Lemma forgeToPanoQuaternion_along f g :
  along f g ->
  along (forgeToPanoQuaternion f)
        (qMul (qConj Q_180_Z)
              (qMul (qConj (1, 0, 0, 1)) (qMul (qConj QUAT_TRANSFORM) g))).
Proof.
  intros Hf. unfold forgeToPanoQuaternion.
  now apply along_qNormalize, forgeToPanoQuaternion_core.
Qed.

Lemma forgeToPanoQuaternion_unit f g :
  along f g -> len2 (forgeToPanoQuaternion f) = 1.
Proof.
  intros Hf. unfold forgeToPanoQuaternion. apply len2_qNormalize.
  pose proof (along_len2 _ _ (forgeToPanoQuaternion_core f g Hf)). lra.
Qed.

Lemma transformQuaternion_along q g :
  along q g -> along (transformQuaternion q) (qMul QUAT_TRANSFORM g).
Proof.
  intros H. apply along_qNormalize, along_qMul; [| assumption].
  apply along_refl, len2_QUAT_TRANSFORM.
Qed.

Lemma forwardOrientation_along q g :
  along q g ->
  along (forwardOrientation q)
        (qMul Q_180_Z (qMul (qMul QUAT_TRANSFORM g) (1, 0, 0, 1))).
Proof.
  intros H. unfold forwardOrientation, forgeViewerRotation.
  rewrite threeMultiply_qMul.
  apply along_qNormalize, along_qMul; [apply along_refl, len2_Q_180_Z |].
  apply along_qMul; [now apply transformQuaternion_along | apply along_pitch].
Qed.

Lemma along_x_pos a b : along a b -> 0 < fst (fst (fst b)) -> 0 < fst (fst (fst a)).
Proof.
  intros [(k & Hk & ->) _]. quat_destruct; cbn. nra.
Qed.

(** C4 (the reverse pipeline is not the inverse of the forward one): from the
    identity orientation, the forward pipeline followed by
    [forgeToPanoQuaternion] gives a quaternion with a positive [x] component,
    which is neither the identity nor its negation. *)
Theorem forgeToPanoQuaternion_not_inverse :
  forgeToPanoQuaternion (forwardOrientation qIdentity) <> qIdentity
  /\ forgeToPanoQuaternion (forwardOrientation qIdentity) <> qNeg qIdentity.
Proof.
  assert (Hx : 0 < fst (fst (fst (forgeToPanoQuaternion (forwardOrientation qIdentity))))).
  { eapply along_x_pos.
    - apply forgeToPanoQuaternion_along, forwardOrientation_along.
      apply along_refl. cbn; lra.
    - cbn. lra. }
  split; intros E; rewrite E in Hx; cbn in Hx; lra.
Qed.

Lemma along_z_neg a b : along a b -> snd (fst b) < 0 -> snd (fst a) < 0.
Proof.
  intros [(k & Hk & ->) _]. quat_destruct; cbn. nra.
Qed.

(** The rotation [ForgeViewer.jsx] applies (calibration, then pitch) is not
    undone either: from the identity the reverse pipeline returns a
    quaternion with a negative [z] component. *)
Lemma forgeToPanoQuaternion_forgeViewerRotation :
  forgeToPanoQuaternion (forgeViewerRotation qIdentity) <> qIdentity
  /\ forgeToPanoQuaternion (forgeViewerRotation qIdentity) <> qNeg qIdentity.
Proof.
  assert (Hz : snd (fst (forgeToPanoQuaternion (forgeViewerRotation qIdentity))) < 0).
  { eapply along_z_neg.
    - apply forgeToPanoQuaternion_along.
      unfold forgeViewerRotation. rewrite threeMultiply_qMul.
      apply along_qMul; [| apply along_pitch].
      apply transformQuaternion_along, along_refl. cbn; lra.
    - cbn. lra. }
  split; intros E; rewrite E in Hz; cbn in Hz; lra.
Qed.

(** Nor is the pipeline with all three operators composed on the left. *)
Lemma forgeToPanoQuaternion_forwardOrientationLeft :
  forgeToPanoQuaternion (forwardOrientationLeft qIdentity) <> qIdentity
  /\ forgeToPanoQuaternion (forwardOrientationLeft qIdentity) <> qNeg qIdentity.
Proof.
  assert (Hx : 0 < fst (fst (fst (forgeToPanoQuaternion
                                    (forwardOrientationLeft qIdentity))))).
  { eapply along_x_pos.
    - apply forgeToPanoQuaternion_along.
      unfold forwardOrientationLeft.
      apply along_qNormalize, along_qMul; [apply along_refl, len2_Q_180_Z |].
      apply along_qNormalize, along_qMul; [apply along_pitch |].
      apply transformQuaternion_along, along_refl. cbn; lra.
    - cbn. lra. }
  split; intros E; rewrite E in Hx; cbn in Hx; lra.
Qed.

(** Two unit quaternions on the same ray are equal. *)
Lemma along_unit a b q :
  along a q -> along b q -> len2 a = 1 -> len2 b = 1 -> a = b.
Proof.
  intros [(j & Hj & ->) Hq] [(k & Hk & ->) _] Ha Hb.
  rewrite len2_qScale in Ha, Hb.
  pose proof (len2_pos q Hq) as Hpos.
  assert (E : j = k) by nra.
  now rewrite E.
Qed.

(** What the reverse pipeline does invert: the three operators applied in
    the opposite order, the turn first and the calibration quaternion last. *)
Lemma forgeToPanoQuaternion_turnPitchCalibrate q :
  len2 q <> 0 -> forgeToPanoQuaternion (turnPitchCalibrate q) = qNormalize q.
Proof.
  intros Hq.
  assert (Hfwd : along (turnPitchCalibrate q)
                       (qMul QUAT_TRANSFORM (qMul (1, 0, 0, 1) (qMul Q_180_Z q)))).
  { unfold turnPitchCalibrate.
    apply along_qMul; [apply along_refl, len2_QUAT_TRANSFORM |].
    apply along_qMul; [apply along_pitch |].
    apply along_qMul; [apply along_refl, len2_Q_180_Z | now apply along_refl]. }
  pose proof (forgeToPanoQuaternion_along _ _ Hfwd) as Hrev.
  apply along_unit with q.
  - eapply along_trans; [exact Hrev |].
    replace (qMul _ _) with (qScale (2 * len2 QUAT_TRANSFORM) q).
    + apply along_qScale; [| assumption].
      pose proof (len2_pos _ len2_QUAT_TRANSFORM). lra.
    + quat_destruct; cbn; quat_eq; ring.
  - apply along_qNormalize. now apply along_refl.
  - now apply forgeToPanoQuaternion_unit with (g := qMul QUAT_TRANSFORM (qMul (1, 0, 0, 1) (qMul Q_180_Z q))).
  - apply len2_qNormalize, Hq.
Qed.

End QuatProofs.

Module BoundaryProofs.
Import Num NumFacts Boundary.

(** Decide every comparison of the goal whose outcome [lra] can settle. *)
Ltac eval_ltb :=
  repeat match goal with
         | |- context [ltb ?a ?b] =>
             first [ rewrite (proj2 (ltb_true a b)) by lra
                   | rewrite (proj2 (ltb_false a b)) by lra ]
         end.

Lemma clamp01_bounds t : 0 <= Rmax 0 (Rmin 1 t) <= 1.
Proof.
  unfold Rmax, Rmin.
  destruct (Rle_dec 1 t); destruct (Rle_dec 0 _); lra.
Qed.

Lemma clamp01_inside t : 0 <= t <= 1 -> Rmax 0 (Rmin 1 t) = t.
Proof.
  intros H. unfold Rmax, Rmin.
  destruct (Rle_dec 1 t); destruct (Rle_dec 0 _); lra.
Qed.

Lemma hypot2_nonneg a b : 0 <= hypot2 a b.
Proof. apply sqrt_pos. Qed.

Lemma hypot2_sqr a b : hypot2 a b * hypot2 a b = a * a + b * b.
Proof.
  unfold hypot2; apply sqrt_sqrt.
  pose proof (sq_nonneg a); pose proof (sq_nonneg b); lra.
Qed.

Lemma hypot2_ge_l a b c : c <= a \/ c <= - a -> c <= hypot2 a b.
Proof.
  intros H. pose proof (hypot2_nonneg a b) as Hn. pose proof (hypot2_sqr a b) as Hs.
  pose proof (sq_nonneg b).
  destruct (Rle_lt_dec c (hypot2 a b)) as [| Hlt]; [assumption | exfalso].
  assert (0 <= c) by lra.
  assert (hypot2 a b * hypot2 a b < c * c) by nra.
  destruct H; nra.
Qed.

Lemma hypot2_ge_r a b c : c <= b \/ c <= - b -> c <= hypot2 a b.
Proof.
  intros H. replace (hypot2 a b) with (hypot2 b a).
  - now apply hypot2_ge_l.
  - unfold hypot2; f_equal; ring.
Qed.

Lemma hypot2_axis a b : b = 0 -> 0 <= a -> hypot2 a b = a.
Proof.
  intros -> Ha. unfold hypot2.
  replace (a * a + 0 * 0) with (a * a) by ring. now apply sqrt_square.
Qed.

Lemma hypot2_pos_r a b : b <> 0 -> 0 < hypot2 a b.
Proof.
  intros Hb. unfold hypot2. apply sqrt_lt_R0.
  pose proof (sq_nonneg a). assert (0 < b * b) by nra. lra.
Qed.

(** The components of a normalised direction. *)
Lemma unit_component a b :
  0 < hypot2 a b -> -1 <= a / hypot2 a b <= 1 /\ -1 <= b / hypot2 a b <= 1.
Proof.
  intros HL.
  assert (Ha : - hypot2 a b <= a <= hypot2 a b).
  { split.
    - destruct (Rle_lt_dec 0 a); [lra |].
      apply Ropp_le_cancel. rewrite Ropp_involutive. apply hypot2_ge_l. lra.
    - destruct (Rle_lt_dec a 0); [lra |]. apply hypot2_ge_l. lra. }
  assert (Hb : - hypot2 a b <= b <= hypot2 a b).
  { split.
    - destruct (Rle_lt_dec 0 b); [lra |].
      apply Ropp_le_cancel. rewrite Ropp_involutive. apply hypot2_ge_r. lra.
    - destruct (Rle_lt_dec b 0); [lra |]. apply hypot2_ge_r. lra. }
  split; split.
  all: try (apply Rmult_le_reg_r with (hypot2 a b); [assumption |];
            unfold Rdiv; rewrite Rmult_assoc, Rinv_l by lra; lra).
Qed.

Lemma unit_component_neg a L : 0 < L -> a < 0 -> a / L < 0.
Proof.
  intros HL Ha. unfold Rdiv.
  pose proof (Rinv_0_lt_compat L HL). nra.
Qed.

Lemma not_inside_notch x y : in_notch x y -> isPointInsideBoundary x y = false.
Proof.
  intros [[Hx0 Hx1] [Hy0 Hy1]].
  unfold isPointInsideBoundary, BOUNDARY_POINTS, with_previous.
  cbn [last removelast combine fold_left].
  unfold intersect; cbn [fst snd p2x p2y].
  eval_ltb. reflexivity.
Qed.

Lemma nearest_step_at_least x y st e lb :
  at_least lb (distance st) -> lb <= edge_distance x y e ->
  at_least lb (distance (nearest_step x y st e)).
Proof.
  intros Hst Hd. unfold nearest_step.
  destruct (eqb _ 0); [assumption |].
  fold (edge_param x y e).
  change (hypot2 _ _) with (edge_distance x y e).
  destruct (dist_ltb _ (distance st)); [exact Hd | assumption].
Qed.

Lemma nearest_step_take x y st e lb :
  (p2x (snd e) - p2x (fst e)) * (p2x (snd e) - p2x (fst e))
  + (p2y (snd e) - p2y (fst e)) * (p2y (snd e) - p2y (fst e)) <> 0 ->
  at_least lb (distance st) -> edge_distance x y e < lb ->
  nearest_step x y st e
  = mkNearest (fst (edge_closest x y e)) (snd (edge_closest x y e))
              (Finite (edge_distance x y e)).
Proof.
  intros Hlen Hst Hd. unfold nearest_step.
  rewrite (proj2 (eqb_false _ _) Hlen).
  fold (edge_param x y e).
  change (hypot2 _ _) with (edge_distance x y e).
  replace (dist_ltb (edge_distance x y e) (distance st)) with true; [reflexivity |].
  destruct (distance st) as [| m]; [reflexivity |]. cbn in *.
  symmetry. apply ltb_true. lra.
Qed.

Lemma nearest_step_keep x y st e m :
  distance st = Finite m -> m <= edge_distance x y e ->
  nearest_step x y st e = st.
Proof.
  intros Hst Hd. unfold nearest_step.
  destruct (eqb _ 0); [reflexivity |].
  fold (edge_param x y e).
  change (hypot2 _ _) with (edge_distance x y e).
  rewrite Hst. cbn.
  now rewrite (proj2 (ltb_false _ _) Hd).
Qed.

(** Replace the clamped parameter of the goal by a variable in [0, 1]. *)
Ltac abstract_clamp :=
  match goal with
  | |- context [Rmax 0 (Rmin 1 ?u)] =>
      let H := fresh "Ht" in
      pose proof (clamp01_bounds u) as H;
      generalize dependent (Rmax 0 (Rmin 1 u)); intros
  end.

(** The three lower edges stay at least 5 away from the notch. *)
Lemma notch_far_edges x y st e :
  in_notch x y -> In e [(vA, vB); (vB, vC); (vC, vD)] ->
  at_least 5 (distance st) -> at_least 5 (distance (nearest_step x y st e)).
Proof.
  intros [[Hx0 Hx1] [Hy0 Hy1]] He Hst.
  apply nearest_step_at_least; [assumption |].
  unfold edge_distance, edge_closest, edge_param.
  apply hypot2_ge_r; left.
  cbn in He; destruct He as [<- | [<- | [<- | []]]]; cbn [fst snd p2x p2y vA vB vC vD];
    abstract_clamp; lra.
Qed.

(** The inner wall is the nearest edge. *)
Lemma notch_wall x y st :
  in_notch x y -> at_least 5 (distance st) ->
  nearest_step x y st (vD, vE) = mkNearest (632 / 10) y (Finite (632 / 10 - x)).
Proof.
  intros [[Hx0 Hx1] [Hy0 Hy1]] Hst.
  assert (Ht : Rmax 0 (Rmin 1
                 (((x - 632 / 10) * (632 / 10 - 632 / 10)
                   + (y - 1072 / 10) * (1253 / 10 - 1072 / 10))
                  / ((632 / 10 - 632 / 10) * (632 / 10 - 632 / 10)
                     + (1253 / 10 - 1072 / 10) * (1253 / 10 - 1072 / 10))))
               = (y - 1072 / 10) / (181 / 10)).
  { rewrite clamp01_inside.
    - field.
    - replace (_ / _) with ((y - 1072 / 10) / (181 / 10)) by field.
      split.
      + apply Rmult_le_reg_r with (181 / 10); [lra |].
        unfold Rdiv at 2; rewrite Rmult_assoc, Rinv_l by lra. lra.
      + apply Rmult_le_reg_r with (181 / 10); [lra |].
        unfold Rdiv at 1; rewrite Rmult_assoc, Rinv_l by lra. lra. }
  assert (Hd : hypot2 (x - (632 / 10 + (y - 1072 / 10) / (181 / 10) * (632 / 10 - 632 / 10)))
                      (y - (1072 / 10 + (y - 1072 / 10) / (181 / 10) * (1253 / 10 - 1072 / 10)))
               = 632 / 10 - x).
  { replace (hypot2 _ _) with (hypot2 (632 / 10 - x) 0).
    - apply hypot2_axis; lra.
    - unfold hypot2. f_equal. field. }
  rewrite (nearest_step_take x y st (vD, vE) 5);
    unfold edge_distance, edge_closest, edge_param; cbn [fst snd p2x p2y vD vE].
  - rewrite Ht, Hd. f_equal; field.
  - lra.
  - assumption.
  - rewrite Ht, Hd. lra.
Qed.

(** The two upper edges are farther away than the wall. *)
Lemma notch_upper_edges x y e :
  in_notch x y -> In e [(vE, vF); (vF, vA)] ->
  nearest_step x y (mkNearest (632 / 10) y (Finite (632 / 10 - x))) e
  = mkNearest (632 / 10) y (Finite (632 / 10 - x)).
Proof.
  intros [[Hx0 Hx1] [Hy0 Hy1]] He.
  apply nearest_step_keep with (m := 632 / 10 - x); [reflexivity |].
  unfold edge_distance, edge_closest, edge_param.
  cbn in He; destruct He as [<- | [<- | []]]; cbn [fst snd p2x p2y vA vE vF].
  - apply hypot2_ge_r; right. abstract_clamp. lra.
  - apply hypot2_ge_l; right. abstract_clamp. lra.
Qed.

Lemma nearest_in_notch x y :
  in_notch x y ->
  findNearestBoundaryPoint x y = mkNearest (632 / 10) y (Finite (632 / 10 - x)).
Proof.
  intros H.
  unfold findNearestBoundaryPoint, BOUNDARY_POINTS, with_next.
  cbn [app combine fold_left].
  fold vA vB vC vD vE vF.
  rewrite (notch_wall x y _ H).
  - rewrite !notch_upper_edges; trivial; cbn; tauto.
  - repeat (apply notch_far_edges; [assumption | cbn; tauto |]).
    exact Logic.I.
Qed.

Lemma centroid_value : getPolygonCentroid = mkPoint2 (3673 / 60) (5458 / 60).
Proof.
  unfold getPolygonCentroid, BOUNDARY_POINTS; cbn.
  f_equal; field.
Qed.

(** Clamping a point of the notch moves it down along the wall and leaves it
    to the left of the wall, still in the notch's column. *)
Lemma clamp_in_notch x y :
  in_notch x y ->
  wasClamped (clampToBoundary x y) = true
  /\ 627 / 10 <= cx (clampToBoundary x y) < 632 / 10
  /\ y - 1 / 2 <= cy (clampToBoundary x y) < y.
Proof.
  intros H. pose proof H as [[Hx0 Hx1] [Hy0 Hy1]].
  unfold clampToBoundary.
  rewrite (not_inside_notch x y H), (nearest_in_notch x y H), centroid_value.
  cbn [nx ny distance p2x p2y].
  set (gx := 3673 / 60 - 632 / 10). set (gy := 5458 / 60 - y).
  assert (HL : 0 < hypot2 gx gy) by (apply hypot2_pos_r; unfold gy; lra).
  rewrite (proj2 (ltb_true _ _) HL). cbn [cx cy wasClamped].
  destruct (unit_component gx gy HL) as [Hux Huy].
  assert (Hnx : gx / hypot2 gx gy < 0) by (apply unit_component_neg; [exact HL | unfold gx; lra]).
  assert (Hny : gy / hypot2 gx gy < 0) by (apply unit_component_neg; [exact HL | unfold gy; lra]).
  unfold BOUNDARY_MARGIN.
  repeat split; lra.
Qed.

(** The half of the spec's statement that holds: a point inside the boundary is returned
    unchanged, with [wasClamped = false]. *)
Lemma clamp_inside_unchanged x y :
  isPointInsideBoundary x y = true ->
  clampToBoundary x y = mkClamped x y false None.
Proof. intros H. unfold clampToBoundary. now rewrite H. Qed.

(** C9 (clamping is not idempotent): the point (60, 115), left of the inner
    wall, is clamped to a point that is still outside the boundary, and
    clamping that point again moves it further down the wall. *)
Theorem clampToBoundary_not_idempotent :
  let once := clampToBoundary 60 115 in
  let twice := clampToBoundary (cx once) (cy once) in
  wasClamped once = true
  /\ isPointInsideBoundary (cx once) (cy once) = false
  /\ wasClamped twice = true
  /\ cy twice < cy once
  /\ (cx twice, cy twice) <> (cx once, cy once).
Proof.
  intros once twice.
  assert (H0 : in_notch 60 115) by (unfold in_notch; lra).
  destruct (clamp_in_notch 60 115 H0) as (Hw & Hx & Hy). fold once in Hw, Hx, Hy.
  assert (H1 : in_notch (cx once) (cy once)) by (unfold in_notch; lra).
  destruct (clamp_in_notch _ _ H1) as (Hw2 & Hx2 & Hy2). fold twice in Hw2, Hx2, Hy2.
  repeat split; try assumption.
  - now apply not_inside_notch.
  - lra.
  - intros E. apply (f_equal snd) in E; cbn in E. lra.
Qed.

End BoundaryProofs.

Module Mat3Facts.
Import Mat3.

Ltac vec_destruct :=
  repeat match goal with
         | m : mat3 |- _ => destruct m as [[[[? ?] ?] [[? ?] ?]] [[? ?] ?]]
         | v : vec3 |- _ => destruct v as [[? ?] ?]
         end.

Ltac tuple_eq :=
  repeat match goal with
         | |- @eq _ (_, _) (_, _) => apply (f_equal2 pair)
         end.

(** Componentwise proof of an identity between vectors or matrices. *)
Ltac by_components := intros; vec_destruct; unfold I3, zero3; cbn; tuple_eq; ring.

Lemma mtranspose_involutive m : mtranspose (mtranspose m) = m.
Proof. by_components. Qed.

Lemma mtranspose_mmul a b : mtranspose (mmul a b) = mmul (mtranspose b) (mtranspose a).
Proof. by_components. Qed.

Lemma mmul_assoc a b c : mmul (mmul a b) c = mmul a (mmul b c).
Proof. by_components. Qed.

Lemma mmul_I3_l m : mmul I3 m = m.
Proof. by_components. Qed.

Lemma mmul_I3_r m : mmul m I3 = m.
Proof. by_components. Qed.

Lemma mtranspose_I3 : mtranspose I3 = I3.
Proof. reflexivity. Qed.

Lemma mvec_mmul a b v : mvec (mmul a b) v = mvec a (mvec b v).
Proof. by_components. Qed.

Lemma mvec_I3 v : mvec I3 v = v.
Proof. by_components. Qed.

Lemma mvec_vscale m k v : mvec m (vscale k v) = vscale k (mvec m v).
Proof. by_components. Qed.

Lemma det3_mmul a b : det3 (mmul a b) = det3 a * det3 b.
Proof. intros; vec_destruct; cbn; ring. Qed.

Lemma det3_mtranspose m : det3 (mtranspose m) = det3 m.
Proof. intros; vec_destruct; cbn; ring. Qed.

Lemma det3_I3 : det3 I3 = 1.
Proof. cbn; ring. Qed.

Lemma det3_negate_column2 m : det3 (negate_column2 m) = - det3 m.
Proof. intros; vec_destruct; cbn; ring. Qed.

Lemma negate_column2_mmul m : negate_column2 m = mmul m (diag (1, 1, -1)).
Proof. by_components. Qed.

Lemma orthogonal_I3 : orthogonal I3.
Proof. unfold orthogonal, I3; split; cbn; tuple_eq; ring. Qed.

Lemma orthogonal_mirror : orthogonal (diag (1, 1, -1)).
Proof. unfold orthogonal, I3; split; cbn; tuple_eq; ring. Qed.

Lemma orthogonal_mtranspose m : orthogonal m -> orthogonal (mtranspose m).
Proof.
  intros [H1 H2]; split; rewrite mtranspose_involutive; assumption.
Qed.

Lemma orthogonal_mmul a b : orthogonal a -> orthogonal b -> orthogonal (mmul a b).
Proof.
  intros [Ha1 Ha2] [Hb1 Hb2]; split; rewrite mtranspose_mmul.
  - rewrite mmul_assoc, <- (mmul_assoc (mtranspose a)), Ha1, mmul_I3_l. exact Hb1.
  - rewrite mmul_assoc, <- (mmul_assoc b), Hb2, mmul_I3_l. exact Ha2.
Qed.

Lemma orthogonal_det m : orthogonal m -> det3 m = 1 \/ det3 m = -1.
Proof.
  intros [H _]. apply (f_equal det3) in H.
  rewrite det3_mmul, det3_mtranspose, det3_I3 in H.
  assert (E : (det3 m - 1) * (det3 m + 1) = 0) by lra.
  apply Rmult_integral in E as [E | E]; [left | right]; lra.
Qed.

Lemma orthogonal_negate_column2 m : orthogonal m -> orthogonal (negate_column2 m).
Proof.
  intros H. rewrite negate_column2_mmul.
  apply orthogonal_mmul; [assumption | apply orthogonal_mirror].
Qed.

(** Two points of a cloud in independent directions from its first point. *)
Lemma not_collinear_by_cross p0 q1 q2 rest :
  In q1 rest -> In q2 rest ->
  (let '(a0, a1, _) := vsub q1 p0 in
   let '(b0, b1, _) := vsub q2 p0 in a0 * b1 - a1 * b0 <> 0) ->
  ~ collinear (p0 :: rest).
Proof.
  intros H1 H2 Hx [d Hd].
  destruct (Hd q1 H1) as [k1 E1]. destruct (Hd q2 H2) as [k2 E2].
  rewrite E1, E2 in Hx. destruct d as [[d0 d1] d2]; cbn in Hx.
  apply Hx. ring.
Qed.

End Mat3Facts.

Module CalibrateProofs.
Import Num NumFacts Mat3 Mat3Facts Calibrate.

(** The fields of the object [calculateCalibration] returns. *)
Lemma calculateCalibration_fields svd panoRefs revitRefs :
  (length panoRefs <= length revitRefs)%nat ->
  exists c,
    calculateCalibration svd panoRefs revitRefs = Returned c
    /\ scale c = rms (revit_centered panoRefs revitRefs) (length panoRefs)
                 / rms (flipped_centered panoRefs) (length panoRefs)
    /\ rotation c = corrected_rotation (svd (covariance_of panoRefs revitRefs))
    /\ rotationMatrix c = mtranspose (rotation c)
    /\ translation c
       = vsub (centroid revitRefs (length panoRefs))
              (vscale (scale c)
                      (mvec (rotation c)
                            (centroid (map flipX panoRefs) (length panoRefs)))).
Proof.
  intros Hlen. unfold calculateCalibration.
  replace (Nat.ltb (length revitRefs) (length panoRefs)) with false
    by (symmetry; apply Nat.ltb_ge; exact Hlen).
  fold (flipped_centered panoRefs) (revit_centered panoRefs revitRefs).
  fold (covariance_of panoRefs revitRefs).
  unfold corrected_rotation.
  set (d := svd (covariance_of panoRefs revitRefs)).
  rewrite !mtranspose_mmul, !mtranspose_involutive.
  destruct (ltb (det3 (mmul (U d) (mtranspose (V d)))) 0);
    eexists; (split; [reflexivity |]); cbn [scale rotation rotationMatrix translation];
    rewrite ?mtranspose_mmul, ?mtranspose_involutive; repeat split; reflexivity.
Qed.

(** The reflection correction: with orthogonal factors the kept rotation is
    orthonormal with determinant +1. *)
Lemma corrected_rotation_proper d :
  orthogonal (U d) -> orthogonal (V d) ->
  orthogonal (corrected_rotation d) /\ det3 (corrected_rotation d) = 1.
Proof.
  intros HU HV. unfold corrected_rotation.
  destruct (ltb _ 0) eqn:E.
  - apply ltb_true in E.
    assert (HO : orthogonal (mmul (U d) (mtranspose (negate_column2 (V d)))))
      by (apply orthogonal_mmul, orthogonal_mtranspose, orthogonal_negate_column2;
          assumption).
    split; [exact HO |].
    destruct (orthogonal_det _ HO) as [H1 | H1]; [exact H1 | exfalso].
    rewrite det3_mmul, det3_mtranspose, det3_negate_column2 in H1.
    rewrite det3_mmul, det3_mtranspose in E. lra.
  - apply ltb_false in E.
    assert (HO : orthogonal (mmul (U d) (mtranspose (V d))))
      by (apply orthogonal_mmul, orthogonal_mtranspose; assumption).
    split; [exact HO |].
    destruct (orthogonal_det _ HO) as [H1 | H1]; [exact H1 | lra].
Qed.

Lemma vsub_vadd_cancel a b : vsub (vadd a b) b = a.
Proof. by_components. Qed.

Lemma vscale_inv k w : k <> 0 -> vscale (1 / k) (vscale k w) = w.
Proof. intros Hk; vec_destruct; cbn; tuple_eq; field; assumption. Qed.

Lemma flipX_involutive p : flipX (flipX p) = p.
Proof. by_components. Qed.

(** What the two position transforms compose to: [forgeToPano] multiplies by
    [rotationMatrix.transpose()], which is [rotation] again, so the rotation
    is applied twice instead of being undone. *)
Lemma forgeToPano_panoToForge p c :
  rotationMatrix c = mtranspose (rotation c) -> scale c <> 0 ->
  forgeToPano (panoToForge p c) c
  = flipX (mvec (rotation c) (mvec (rotation c) (flipX p))).
Proof.
  intros HR Hs. unfold forgeToPano, panoToForge.
  rewrite HR, mtranspose_involutive, vsub_vadd_cancel, mvec_vscale.
  now rewrite vscale_inv.
Qed.

(** The round trip is the identity exactly when the rotation is its own
    inverse. *)
Lemma forgeToPano_inverts_iff c :
  rotationMatrix c = mtranspose (rotation c) -> scale c <> 0 ->
  (forall p, forgeToPano (panoToForge p c) c = p)
  <-> mmul (rotation c) (rotation c) = I3.
Proof.
  intros HR Hs. split.
  - intros Hall.
    assert (Hcol : forall v, mvec (mmul (rotation c) (rotation c)) v = v).
    { intros v. specialize (Hall (flipX v)).
      rewrite forgeToPano_panoToForge, flipX_involutive, <- mvec_mmul in Hall
        by assumption.
      apply (f_equal flipX) in Hall. now rewrite !flipX_involutive in Hall. }
    pose proof (Hcol (1, 0, 0)) as H1. pose proof (Hcol (0, 1, 0)) as H2.
    pose proof (Hcol (0, 0, 1)) as H3.
    destruct (mmul (rotation c) (rotation c))
      as [[[[a b] d] [[e f] g]] [[h i] j]].
    cbn in H1, H2, H3.
    injection H1 as A1 A2 A3. injection H2 as B1 B2 B3. injection H3 as C1 C2 C3.
    unfold I3. tuple_eq; lra.
  - intros Hinv p.
    rewrite forgeToPano_panoToForge, <- mvec_mmul, Hinv, mvec_I3 by assumption.
    apply flipX_involutive.
Qed.

Lemma turn_not_collinear :
  ~ collinear panoRefs_turn /\ ~ collinear revitRefs_turn.
Proof.
  split.
  - apply (not_collinear_by_cross _ (1, 1, 0) (1, -1, 0)); cbn; [tauto | tauto | lra].
  - apply (not_collinear_by_cross _ (-1, -1, 0) (1, -1, 0)); cbn; [tauto | tauto | lra].
Qed.

Lemma orthogonal_quarter_turn : orthogonal quarter_turn.
Proof. unfold orthogonal, quarter_turn, I3; split; cbn; tuple_eq; ring. Qed.

Lemma covariance_turn :
  covariance_of panoRefs_turn revitRefs_turn = ((0, -2, 0), (6, 0, 0), (0, 0, 0)).
Proof.
  unfold covariance_of, covariance, flipped_centered, revit_centered, centroid,
    panoRefs_turn, revitRefs_turn, zero3.
  cbn. tuple_eq; field.
Qed.

Lemma svd_turn_valid :
  is_svd (covariance_of panoRefs_turn revitRefs_turn)
         (svd_turn (covariance_of panoRefs_turn revitRefs_turn)).
Proof.
  rewrite covariance_turn. unfold is_svd, svd_turn; cbn [U S V].
  repeat split; try apply orthogonal_quarter_turn; try apply orthogonal_I3; try lra.
  unfold quarter_turn, I3; cbn; tuple_eq; ring.
Qed.

Lemma corrected_rotation_turn H : corrected_rotation (svd_turn H) = quarter_turn.
Proof.
  unfold corrected_rotation, svd_turn; cbn [U S V].
  rewrite mtranspose_I3, mmul_I3_r.
  replace (ltb (det3 quarter_turn) 0) with false; [reflexivity |].
  symmetry; apply ltb_false. cbn; lra.
Qed.

Lemma rms_turn :
  rms (flipped_centered panoRefs_turn) 3 = sqrt (8 / 3)
  /\ rms (revit_centered panoRefs_turn revitRefs_turn) 3 = sqrt (8 / 3).
Proof.
  unfold rms, flipped_centered, revit_centered, centroid, panoRefs_turn, revitRefs_turn.
  split; f_equal; cbn; field.
Qed.

(** C1 (the inverse position transform does not undo the forward one): for
    three non-collinear pairs related by a quarter turn, with a valid
    decomposition of their covariance, [calculateCalibration] returns scale 1,
    the quarter turn and no translation, and [forgeToPano] after [panoToForge]
    sends the point (1, 0, 0) to (-1, 0, 0), two metres away. *)
Theorem forgeToPano_does_not_invert_panoToForge :
  (3 <= length panoRefs_turn)%nat
  /\ ~ collinear panoRefs_turn /\ ~ collinear revitRefs_turn
  /\ is_svd (covariance_of panoRefs_turn revitRefs_turn)
            (svd_turn (covariance_of panoRefs_turn revitRefs_turn))
  /\ exists c,
       calculateCalibration svd_turn panoRefs_turn revitRefs_turn = Returned c
       /\ scale c = 1 /\ rotation c = quarter_turn
       /\ forgeToPano (panoToForge (1, 0, 0) c) c = (-1, 0, 0)
       /\ point_error (1, 0, 0) (forgeToPano (panoToForge (1, 0, 0) c) c) = 2.
Proof.
  split; [cbn; lia |].
  split; [apply turn_not_collinear |]. split; [apply turn_not_collinear |].
  split; [apply svd_turn_valid |].
  destruct (calculateCalibration_fields svd_turn panoRefs_turn revitRefs_turn)
    as (c & Hc & Hs & Hr & Hm & _); [cbn; lia |].
  cbn [length panoRefs_turn] in Hs.
  destruct rms_turn as [Hp Hv]. rewrite Hp, Hv in Hs.
  rewrite corrected_rotation_turn in Hr.
  assert (Hs1 : scale c = 1).
  { rewrite Hs. field. apply Rgt_not_eq, sqrt_lt_R0. lra. }
  assert (Hrt : forgeToPano (panoToForge (1, 0, 0) c) c = (-1, 0, 0)).
  { rewrite forgeToPano_panoToForge by (try assumption; lra).
    rewrite Hr. unfold quarter_turn; cbn. tuple_eq; ring. }
  exists c. do 4 (split; [assumption |]).
  rewrite Hrt. unfold point_error.
  replace ((1 - -1) ^ 2 + (0 - 0) ^ 2 + (0 - 0) ^ 2) with (2 * 2) by ring.
  apply sqrt_square. lra.
Qed.

End CalibrateProofs.

Module FoldFacts.
Import NumFacts Mat3 Mat3Facts.

Lemma vadd_assoc a b c : vadd (vadd a b) c = vadd a (vadd b c).
Proof. by_components. Qed.

Lemma vadd_0_r a : vadd a (0, 0, 0) = a.
Proof. by_components. Qed.

Lemma vadd_0_l a : vadd (0, 0, 0) a = a.
Proof. by_components. Qed.

Lemma madd_assoc a b c : madd (madd a b) c = madd a (madd b c).
Proof. by_components. Qed.

Lemma madd_zero3_r a : madd a zero3 = a.
Proof. by_components. Qed.

Lemma madd_zero3_l a : madd zero3 a = a.
Proof. by_components. Qed.

Lemma vscale_vdiv n v : vscale (1 / n) v = vdiv v n.
Proof. vec_destruct; cbn; tuple_eq; unfold Rdiv; ring. Qed.

Section Folds.
Context {A : Type}.

Lemma fold_left_vadd (f : A -> vec3) l : forall a,
  fold_left (fun c q => vadd c (f q)) l a
  = vadd a (fold_right vadd (0, 0, 0) (map f l)).
Proof.
  induction l as [| q l IH]; intros a; cbn [fold_left map fold_right].
  - now rewrite vadd_0_r.
  - now rewrite IH, vadd_assoc.
Qed.

Lemma fold_left_madd (g : A -> mat3) l : forall H,
  fold_left (fun H q => madd H (g q)) l H
  = madd H (fold_right madd zero3 (map g l)).
Proof.
  induction l as [| q l IH]; intros H; cbn [fold_left map fold_right].
  - now rewrite madd_zero3_r.
  - now rewrite IH, madd_assoc.
Qed.

Lemma fold_left_plus (h : A -> R) l : forall a,
  fold_left (fun acc q => acc + h q) l a
  = a + fold_right Rplus 0 (map h l).
Proof.
  induction l as [| q l IH]; intros a; cbn [fold_left map fold_right].
  - ring.
  - rewrite IH. ring.
Qed.

End Folds.

Lemma lengthSq_nonneg v : 0 <= lengthSq v.
Proof.
  vec_destruct; cbn.
  pose proof (sq_nonneg r); pose proof (sq_nonneg r0); pose proof (sq_nonneg r1). lra.
Qed.

Lemma sum_sq_zero a b c : a * a + b * b + c * c = 0 -> a = 0 /\ b = 0 /\ c = 0.
Proof.
  intros E.
  pose proof (sq_nonneg a); pose proof (sq_nonneg b); pose proof (sq_nonneg c).
  assert (Ha : a * a = 0) by lra.
  assert (Hb : b * b = 0) by lra.
  assert (Hc : c * c = 0) by lra.
  repeat split;
    match goal with |- ?v = 0 => destruct (Rmult_integral v v); auto end.
Qed.

Lemma sum_lengthSq_nonneg l : 0 <= fold_right Rplus 0 (map lengthSq l).
Proof.
  induction l as [| v l IH]; cbn; [lra |].
  pose proof (lengthSq_nonneg v). lra.
Qed.

(** A cloud with a point away from [c] has positive spread about [c]. *)
Lemma sum_lengthSq_pos l c :
  (exists q, In q l /\ q <> c) ->
  0 < fold_right Rplus 0 (map lengthSq (map (fun q => vsub q c) l)).
Proof.
  intros (q & Hin & Hne).
  induction l as [| v l IH]; [contradiction |].
  cbn [map fold_right].
  pose proof (lengthSq_nonneg (vsub v c)).
  pose proof (sum_lengthSq_nonneg (map (fun q => vsub q c) l)).
  destruct Hin as [-> | Hin].
  - assert (lengthSq (vsub q c) <> 0); [| lra].
    intros E. apply Hne. clear - E.
    vec_destruct; cbn in E.
    apply sum_sq_zero in E as (E0 & E1 & E2).
    tuple_eq; lra.
  - specialize (IH Hin). lra.
Qed.

(** A cloud that is not collinear has a point away from any given point. *)
Lemma not_collinear_spread l c : ~ collinear l -> exists q, In q l /\ q <> c.
Proof.
  intros Hn.
  assert (Hdec : forall a b : vec3, a = b \/ a <> b).
  { intros a b; vec_destruct.
    destruct (Req_dec r2 r); destruct (Req_dec r3 r0); destruct (Req_dec r4 r1);
      try (right; intros E; inversion E; contradiction).
    left; subst; reflexivity. }
  assert (Hall : (forall q, In q l -> q = c) \/ exists q, In q l /\ q <> c).
  { clear Hn. induction l as [| v l IH]; [left; intros ? [] |].
    destruct (Hdec v c) as [-> | Hv].
    - destruct IH as [IH | (q & Hq & Hne)].
      + left. intros q [<- | Hq]; auto.
      + right. exists q. split; [now right | assumption].
    - right. exists v. split; [now left | assumption]. }
  destruct Hall as [Hall | Hex]; [exfalso | assumption].
  apply Hn. destruct l as [| p0 rest]; [exact Logic.I |].
  exists (0, 0, 0). intros q Hq. exists 0.
  rewrite (Hall q (or_intror Hq)), (Hall p0 (or_introl eq_refl)).
  destruct c as [[c0 c1] c2]; cbn; tuple_eq; ring.
Qed.

End FoldFacts.

Module SolverProofs.
Import Num NumFacts Mat3 Mat3Facts FoldFacts.

(** *** [computeTransform] *)

Lemma computeTransform_insufficient numeric revitPoints panoPoints :
  (length revitPoints < 3)%nat ->
  ForgeHelpers.computeTransform numeric revitPoints panoPoints
  = Thrown "Need at least 3 matching points".
Proof.
  intros H. unfold ForgeHelpers.computeTransform.
  replace (Nat.ltb (length revitPoints) 3) with true
    by (symmetry; now apply Nat.ltb_lt).
  now rewrite orb_true_r.
Qed.

Lemma computeTransform_fields svd revitPoints panoPoints :
  length revitPoints = length panoPoints -> (3 <= length revitPoints)%nat ->
  exists r,
    ForgeHelpers.computeTransform (Some svd) revitPoints panoPoints = Returned r
    /\ ForgeHelpers.scale r
       = (let '(s0, s1, s2) := S (svd (ForgeHelpers.solver_covariance revitPoints panoPoints)) in
          0 + s0 + s1 + s2)
         / (fold_left (fun acc q =>
                         acc + lengthSq (vsub (ForgeHelpers.vector3 q)
                                 (ForgeHelpers.centroid_of panoPoints (length revitPoints))))
                      panoPoints 0
            + 1 / 10 ^ 12)
    /\ ForgeHelpers.rows_of (ForgeHelpers.R_ r)
       = mtranspose (ForgeHelpers.proper_rotation
                       (svd (ForgeHelpers.solver_covariance revitPoints panoPoints))).
Proof.
  intros Hlen Hn. unfold ForgeHelpers.computeTransform.
  rewrite Hlen, Nat.eqb_refl. rewrite <- Hlen.
  replace (Nat.ltb (length revitPoints) 3) with false
    by (symmetry; now apply Nat.ltb_ge).
  cbn [negb orb].
  fold (ForgeHelpers.solver_covariance revitPoints panoPoints).
  set (d := svd (ForgeHelpers.solver_covariance revitPoints panoPoints)).
  fold (ForgeHelpers.proper_rotation d).
  destruct (ForgeHelpers.proper_rotation d) as [[[[r00 r01] r02] [[r10 r11] r12]] [[r20 r21] r22]].
  match goal with
  | |- context [vsub ?a (mvec ?m ?v)] => destruct (vsub a (mvec m v)) as [[tx ty] tz]
  end.
  eexists; split; [reflexivity |]. split; reflexivity.
Qed.

Lemma proper_rotation_proper d :
  orthogonal (U d) -> orthogonal (V d) ->
  orthogonal (ForgeHelpers.proper_rotation d)
  /\ det3 (ForgeHelpers.proper_rotation d) = 1.
Proof.
  intros HU HV. unfold ForgeHelpers.proper_rotation.
  destruct (orthogonal_det _ HU) as [EU | EU];
    destruct (orthogonal_det _ HV) as [EV | EV];
    rewrite EU, EV;
    match goal with
    | |- context [ltb ?a 0] =>
        first [ rewrite (proj2 (ltb_true a 0)) by lra
              | rewrite (proj2 (ltb_false a 0)) by lra ]
    end.
  all: split;
    [ repeat apply orthogonal_mmul;
      first [ assumption | apply orthogonal_mirror | apply orthogonal_I3
            | now apply orthogonal_mtranspose ]
    | rewrite !det3_mmul, det3_mtranspose, EU, EV; cbn; ring ].
Qed.

Lemma orthogonal_transposed m :
  orthogonal m /\ det3 m = 1 -> orthogonal (mtranspose m) /\ det3 (mtranspose m) = 1.
Proof.
  intros [H1 H2]. split; [now apply orthogonal_mtranspose | now rewrite det3_mtranspose].
Qed.

(** *** The code's sums and the spec's *)

Lemma FH_centroid_mean l :
  ForgeHelpers.centroid_of l (length l) = ForgeHelpers.mean (map ForgeHelpers.vector3 l).
Proof.
  unfold ForgeHelpers.centroid_of, ForgeHelpers.mean.
  rewrite fold_left_vadd, vadd_0_l, vscale_vdiv, length_map. reflexivity.
Qed.

Lemma FH_covariance_cross cA cB revitPoints : forall panoPoints,
  ForgeHelpers.covariance_loop cA cB revitPoints panoPoints
  = ForgeHelpers.cross_covariance
      (map (fun v => vsub v cA) (map ForgeHelpers.vector3 revitPoints))
      (map (fun v => vsub v cB) (map ForgeHelpers.vector3 panoPoints)).
Proof.
  intros panoPoints. unfold ForgeHelpers.covariance_loop.
  rewrite fold_left_madd, madd_zero3_l.
  revert panoPoints.
  induction revitPoints as [| a l IH]; intros [| b l'];
    cbn [combine map fold_right ForgeHelpers.cross_covariance fst snd];
    try reflexivity.
  now rewrite IH.
Qed.

Lemma FH_sum_sq cB panoPoints :
  fold_left (fun acc q => acc + lengthSq (vsub (ForgeHelpers.vector3 q) cB)) panoPoints 0
  = ForgeHelpers.sum_sq_norms
      (map (fun v => vsub v cB) (map ForgeHelpers.vector3 panoPoints)).
Proof.
  rewrite (fold_left_plus (fun q => lengthSq (vsub (ForgeHelpers.vector3 q) cB))), Rplus_0_l.
  induction panoPoints as [| b l IH];
    cbn [map fold_right ForgeHelpers.sum_sq_norms]; [reflexivity |].
  now rewrite IH.
Qed.

Lemma sum_sq_norms_fold l :
  ForgeHelpers.sum_sq_norms l = fold_right Rplus 0 (map lengthSq l).
Proof. induction l as [| b l IH]; cbn; [reflexivity | now rewrite IH]. Qed.

Lemma Cal_centroid_mean l : Calibrate.centroid l (length l) = ForgeHelpers.mean l.
Proof.
  unfold Calibrate.centroid, ForgeHelpers.mean. f_equal.
  rewrite (fold_left_vadd (fun q => q)), vadd_0_l, map_id. reflexivity.
Qed.

Lemma Cal_rms centered n :
  Calibrate.rms centered n = sqrt (ForgeHelpers.sum_sq_norms centered / INR n).
Proof.
  unfold Calibrate.rms. do 2 f_equal.
  transitivity (fold_left (fun acc q => acc + lengthSq q) centered 0).
  - generalize 0. induction centered as [| q l IH]; intros a; cbn [fold_left].
    + reflexivity.
    + rewrite IH. f_equal. destruct q as [[q0 q1] q2]; cbn; ring.
  - rewrite (fold_left_plus lengthSq), Rplus_0_l. symmetry. apply sum_sq_norms_fold.
Qed.

Lemma Cal_flipped_centered panoRefs :
  Calibrate.flipped_centered panoRefs
  = ForgeHelpers.centered (map Calibrate.flipX panoRefs).
Proof.
  unfold Calibrate.flipped_centered, ForgeHelpers.centered.
  rewrite <- Cal_centroid_mean, length_map. reflexivity.
Qed.

Lemma Cal_revit_centered panoRefs revitRefs :
  length panoRefs = length revitRefs ->
  Calibrate.revit_centered panoRefs revitRefs = ForgeHelpers.centered revitRefs.
Proof.
  intros H. unfold Calibrate.revit_centered, ForgeHelpers.centered.
  rewrite <- Cal_centroid_mean, H. reflexivity.
Qed.

(** *** The scale *)

Lemma computeTransform_scale svd revitPoints panoPoints :
  length revitPoints = length panoPoints -> (3 <= length revitPoints)%nat ->
  exists r,
    ForgeHelpers.computeTransform (Some svd) revitPoints panoPoints = Returned r
    /\ (let A := ForgeHelpers.centered (map ForgeHelpers.vector3 revitPoints) in
        let B := ForgeHelpers.centered (map ForgeHelpers.vector3 panoPoints) in
        ForgeHelpers.scale r
        = ForgeHelpers.trace_sigma (svd (ForgeHelpers.cross_covariance A B))
          / (ForgeHelpers.sum_sq_norms B + 1 / 10 ^ 12)).
Proof.
  intros Hlen Hn.
  destruct (computeTransform_fields svd revitPoints panoPoints Hlen Hn)
    as (r & Hr & Hs & _).
  exists r; split; [assumption |]. cbv zeta.
  rewrite Hs, FH_sum_sq. unfold ForgeHelpers.solver_covariance.
  rewrite FH_covariance_cross.
  assert (EB : ForgeHelpers.centroid_of panoPoints (length revitPoints)
               = ForgeHelpers.mean (map ForgeHelpers.vector3 panoPoints))
    by (rewrite Hlen; apply FH_centroid_mean).
  rewrite EB, FH_centroid_mean.
  unfold ForgeHelpers.centered, ForgeHelpers.trace_sigma.
  clear Hs Hr.
  destruct (S _) as [[s0 s1] s2]. apply (f_equal2 Rdiv); [ring | reflexivity].
Qed.

Lemma calculateCalibration_scale svd panoRefs revitRefs :
  length panoRefs = length revitRefs ->
  exists c,
    Calibrate.calculateCalibration svd panoRefs revitRefs = Returned c
    /\ Calibrate.scale c
       = sqrt (ForgeHelpers.sum_sq_norms (ForgeHelpers.centered revitRefs)
               / INR (length panoRefs))
         / sqrt (ForgeHelpers.sum_sq_norms
                   (ForgeHelpers.centered (map Calibrate.flipX panoRefs))
                 / INR (length panoRefs)).
Proof.
  intros Hlen.
  destruct (CalibrateProofs.calculateCalibration_fields svd panoRefs revitRefs)
    as (c & Hc & Hs & _); [lia |].
  exists c; split; [assumption |].
  now rewrite Hs, !Cal_rms, Cal_flipped_centered, Cal_revit_centered.
Qed.

(** C2, as amended: on at least three pairs, [computeTransform] returns the
    scale trace(Sigma) / (sum of the squared norms of the centred source
    points + 1e-12), Sigma being the singular values of the cross-covariance
    of the centred clouds, and [calculateCalibration] returns the ratio of the
    root-mean-square spreads of the two centred clouds. *)
Theorem solver_scale_formulas
    (numeric_svd svd : mat3 -> SVD) (revitPoints panoPoints : list Point3)
    (panoRefs revitRefs : list vec3) :
  length revitPoints = length panoPoints -> (3 <= length revitPoints)%nat ->
  length panoRefs = length revitRefs -> (3 <= length panoRefs)%nat ->
  (exists r,
     ForgeHelpers.computeTransform (Some numeric_svd) revitPoints panoPoints = Returned r
     /\ (let A := ForgeHelpers.centered (map ForgeHelpers.vector3 revitPoints) in
         let B := ForgeHelpers.centered (map ForgeHelpers.vector3 panoPoints) in
         ForgeHelpers.scale r
         = ForgeHelpers.trace_sigma (numeric_svd (ForgeHelpers.cross_covariance A B))
           / (ForgeHelpers.sum_sq_norms B + 1 / 10 ^ 12)))
  /\ (exists c,
        Calibrate.calculateCalibration svd panoRefs revitRefs = Returned c
        /\ Calibrate.scale c
           = sqrt (ForgeHelpers.sum_sq_norms (ForgeHelpers.centered revitRefs)
                   / INR (length panoRefs))
             / sqrt (ForgeHelpers.sum_sq_norms
                       (ForgeHelpers.centered (map Calibrate.flipX panoRefs))
                     / INR (length panoRefs))).
Proof.
  intros H1 H2 H3 H4. split.
  - now apply computeTransform_scale.
  - now apply calculateCalibration_scale.
Qed.

Lemma solver_scale_formulas_witness :
  (length ForgeHelpers.revit_stretch = length ForgeHelpers.pano_stretch
   /\ (3 <= length ForgeHelpers.revit_stretch)%nat
   /\ length Calibrate.panoRefs_stretch = length Calibrate.revitRefs_stretch
   /\ (3 <= length Calibrate.panoRefs_stretch)%nat)
  /\ exists r,
       ForgeHelpers.computeTransform (Some Calibrate.svd_stretch)
         ForgeHelpers.revit_stretch ForgeHelpers.pano_stretch = Returned r
       /\ ForgeHelpers.scale r
          = ForgeHelpers.trace_sigma
              (Calibrate.svd_stretch
                 (ForgeHelpers.cross_covariance
                    (ForgeHelpers.centered
                       (map ForgeHelpers.vector3 ForgeHelpers.revit_stretch))
                    (ForgeHelpers.centered
                       (map ForgeHelpers.vector3 ForgeHelpers.pano_stretch))))
            / (ForgeHelpers.sum_sq_norms
                 (ForgeHelpers.centered
                    (map ForgeHelpers.vector3 ForgeHelpers.pano_stretch))
               + 1 / 10 ^ 12).
Proof.
  split; [cbn; repeat split; lia |].
  apply (solver_scale_formulas Calibrate.svd_stretch Calibrate.svd_stretch
           ForgeHelpers.revit_stretch ForgeHelpers.pano_stretch
           Calibrate.panoRefs_stretch Calibrate.revitRefs_stretch);
    cbn; lia.
Defined.

Lemma stretch_objects :
  ForgeHelpers.cross_covariance
    (ForgeHelpers.centered (map ForgeHelpers.vector3 ForgeHelpers.revit_stretch))
    (ForgeHelpers.centered (map ForgeHelpers.vector3 ForgeHelpers.pano_stretch))
  = diag (6, 4, 0)
  /\ ForgeHelpers.sum_sq_norms
       (ForgeHelpers.centered (map ForgeHelpers.vector3 ForgeHelpers.pano_stretch)) = 8.
Proof.
  unfold ForgeHelpers.centered, ForgeHelpers.mean,
    ForgeHelpers.revit_stretch, ForgeHelpers.pano_stretch.
  split; cbn; [tuple_eq |]; field.
Qed.

Lemma stretch_arrays :
  ForgeHelpers.cross_covariance
    (ForgeHelpers.centered Calibrate.revitRefs_stretch)
    (ForgeHelpers.centered (map Calibrate.flipX Calibrate.panoRefs_stretch))
  = diag (6, 4, 0)
  /\ ForgeHelpers.sum_sq_norms
       (ForgeHelpers.centered (map Calibrate.flipX Calibrate.panoRefs_stretch)) = 8
  /\ ForgeHelpers.sum_sq_norms (ForgeHelpers.centered Calibrate.revitRefs_stretch) = 14.
Proof.
  unfold ForgeHelpers.centered, ForgeHelpers.mean,
    Calibrate.revitRefs_stretch, Calibrate.panoRefs_stretch.
  repeat split; cbn; [tuple_eq | |]; field.
Qed.

Lemma svd_stretch_valid H :
  H = diag (6, 4, 0) -> is_svd H (Calibrate.svd_stretch H).
Proof.
  intros ->. unfold is_svd, Calibrate.svd_stretch; cbn [U S V].
  repeat split; try apply orthogonal_I3; try lra.
  unfold I3; cbn; tuple_eq; ring.
Qed.

(** C2, counterexample to the spec's statement: on three pairs whose target
    cloud is the source cloud stretched along one axis, with singular values
    6, 4, 0 and source spread 8, neither solver returns trace(Sigma) / spread
    = 10 / 8. *)
Lemma scale_is_not_trace_over_spread :
  (exists r,
     ForgeHelpers.computeTransform (Some Calibrate.svd_stretch)
       ForgeHelpers.revit_stretch ForgeHelpers.pano_stretch = Returned r
     /\ (let A := ForgeHelpers.centered
                    (map ForgeHelpers.vector3 ForgeHelpers.revit_stretch) in
         let B := ForgeHelpers.centered
                    (map ForgeHelpers.vector3 ForgeHelpers.pano_stretch) in
         is_svd (ForgeHelpers.cross_covariance A B)
                (Calibrate.svd_stretch (ForgeHelpers.cross_covariance A B))
         /\ ForgeHelpers.scale r
            <> ForgeHelpers.trace_sigma
                 (Calibrate.svd_stretch (ForgeHelpers.cross_covariance A B))
               / ForgeHelpers.sum_sq_norms B))
  /\ (exists c,
        Calibrate.calculateCalibration Calibrate.svd_stretch
          Calibrate.panoRefs_stretch Calibrate.revitRefs_stretch = Returned c
        /\ (let A := ForgeHelpers.centered Calibrate.revitRefs_stretch in
            let B := ForgeHelpers.centered
                       (map Calibrate.flipX Calibrate.panoRefs_stretch) in
            is_svd (ForgeHelpers.cross_covariance A B)
                   (Calibrate.svd_stretch (ForgeHelpers.cross_covariance A B))
            /\ Calibrate.scale c
               <> ForgeHelpers.trace_sigma
                    (Calibrate.svd_stretch (ForgeHelpers.cross_covariance A B))
                  / ForgeHelpers.sum_sq_norms B)).
Proof.
  split.
  - destruct (computeTransform_scale Calibrate.svd_stretch
                ForgeHelpers.revit_stretch ForgeHelpers.pano_stretch)
      as (r & Hr & Hs); [reflexivity | cbn; lia |].
    exists r; split; [assumption |]. cbv zeta in *.
    destruct stretch_objects as [HH HB].
    split; [now apply svd_stretch_valid |].
    rewrite Hs, HB. unfold ForgeHelpers.trace_sigma, Calibrate.svd_stretch; cbn [S].
    intros E.
    assert (E' : (6 + 4 + 0) * 8 = (6 + 4 + 0) * (8 + 1 / 10 ^ 12)).
    { apply (f_equal (fun v => v * 8 * (8 + 1 / 10 ^ 12))) in E.
      field_simplify in E. lra. }
    lra.
  - destruct (calculateCalibration_scale Calibrate.svd_stretch
                Calibrate.panoRefs_stretch Calibrate.revitRefs_stretch)
      as (c & Hc & Hs); [reflexivity |].
    exists c; split; [assumption |]. cbv zeta.
    destruct stretch_arrays as (HH & HB & HA).
    split; [now apply svd_stretch_valid |].
    rewrite Hs, HB, HA. unfold ForgeHelpers.trace_sigma, Calibrate.svd_stretch; cbn [S].
    cbn [length Calibrate.panoRefs_stretch INR].
    set (a := sqrt (14 / (1 + 1 + 1))). set (b := sqrt (8 / (1 + 1 + 1))).
    assert (Ha : a * a = 14 / 3).
    { unfold a. rewrite sqrt_sqrt; lra. }
    assert (Hb : b * b = 8 / 3).
    { unfold b. rewrite sqrt_sqrt; lra. }
    assert (Hb0 : 0 < b) by (apply sqrt_lt_R0; lra).
    intros E.
    assert (E' : a = (6 + 4 + 0) / 8 * b).
    { rewrite <- E. field. lra. }
    rewrite E' in Ha. nra.
Qed.

(** *** The rotation and the sign of the scale *)

Lemma mmul_zero3 a b : mmul (mmul a zero3) b = zero3.
Proof. by_components. Qed.

Lemma trace_pos H d :
  is_svd H d -> 0 <= ForgeHelpers.trace_sigma d
                /\ (H <> zero3 -> 0 < ForgeHelpers.trace_sigma d).
Proof.
  intros (HH & _ & _ & HS). unfold ForgeHelpers.trace_sigma.
  destruct (S d) as [[s0 s1] s2] eqn:ES. destruct HS as (H0 & H1 & H2).
  split; [lra |]. intros Hne.
  destruct (Rle_lt_dec (s0 + s1 + s2) 0) as [Hle | Hlt]; [exfalso | assumption].
  apply Hne. rewrite <- HH.
  assert (s0 = 0 /\ s1 = 0 /\ s2 = 0) as (-> & -> & ->) by lra.
  apply mmul_zero3.
Qed.

Lemma calculateCalibration_proper svd panoRefs revitRefs :
  length panoRefs = length revitRefs -> (3 <= length panoRefs)%nat ->
  is_svd (Calibrate.covariance_of panoRefs revitRefs)
         (svd (Calibrate.covariance_of panoRefs revitRefs)) ->
  exists c,
    Calibrate.calculateCalibration svd panoRefs revitRefs = Returned c
    /\ orthogonal (Calibrate.rotation c) /\ det3 (Calibrate.rotation c) = 1
    /\ (~ collinear panoRefs -> ~ collinear revitRefs -> 0 < Calibrate.scale c).
Proof.
  intros Hlen Hn (_ & HU & HV & _).
  destruct (CalibrateProofs.calculateCalibration_fields svd panoRefs revitRefs)
    as (c & Hc & Hs & Hrot & _); [lia |].
  exists c; split; [assumption |].
  rewrite Hrot.
  destruct (CalibrateProofs.corrected_rotation_proper _ HU HV) as [HO HD].
  do 2 (split; [assumption |]).
  intros Hp Hr.
  rewrite Hs, !Cal_rms, !sum_sq_norms_fold.
  assert (Hpos : 0 < INR (length panoRefs)) by (apply lt_0_INR; lia).
  apply Rdiv_lt_0_compat; apply sqrt_lt_R0; apply Rdiv_lt_0_compat; try assumption.
  - apply sum_lengthSq_pos, not_collinear_spread, Hr.
  - unfold Calibrate.flipped_centered. apply sum_lengthSq_pos.
    destruct (not_collinear_spread panoRefs
                (Calibrate.flipX (Calibrate.centroid (map Calibrate.flipX panoRefs)
                                    (length panoRefs))) Hp) as (q & Hq & Hne).
    exists (Calibrate.flipX q). split; [now apply in_map |].
    intros E. apply Hne. now rewrite <- E, CalibrateProofs.flipX_involutive.
Qed.

Lemma computeTransform_proper svd revitPoints panoPoints :
  length revitPoints = length panoPoints -> (3 <= length revitPoints)%nat ->
  is_svd (ForgeHelpers.solver_covariance revitPoints panoPoints)
         (svd (ForgeHelpers.solver_covariance revitPoints panoPoints)) ->
  exists r,
    ForgeHelpers.computeTransform (Some svd) revitPoints panoPoints = Returned r
    /\ orthogonal (ForgeHelpers.rows_of (ForgeHelpers.R_ r))
    /\ det3 (ForgeHelpers.rows_of (ForgeHelpers.R_ r)) = 1
    /\ 0 <= ForgeHelpers.scale r
    /\ (ForgeHelpers.solver_covariance revitPoints panoPoints <> zero3 ->
        0 < ForgeHelpers.scale r).
Proof.
  intros Hlen Hn Hsvd.
  destruct (computeTransform_fields svd revitPoints panoPoints Hlen Hn)
    as (r & Hr & Hs & HR).
  exists r; split; [assumption |].
  pose proof Hsvd as (_ & HU & HV & _).
  destruct (orthogonal_transposed _ (proper_rotation_proper _ HU HV)) as [HO HD].
  rewrite HR. do 2 (split; [assumption |]).
  destruct (trace_pos _ _ Hsvd) as [Ht0 Ht1].
  unfold ForgeHelpers.trace_sigma in Ht0, Ht1.
  rewrite Hs, FH_sum_sq, sum_sq_norms_fold.
  match goal with
  | |- context [fold_right Rplus 0 (map lengthSq ?l)] =>
      pose proof (sum_lengthSq_nonneg l) as Hden;
      set (den := fold_right Rplus 0 (map lengthSq l)) in *
  end.
  destruct (S _) as [[s0 s1] s2].
  assert (Hd : 0 < den + 1 / 10 ^ 12) by lra.
  split.
  - apply Rmult_le_pos; [lra | left; now apply Rinv_0_lt_compat].
  - intros Hne. apply Rdiv_lt_0_compat; [| assumption].
    specialize (Ht1 Hne). lra.
Qed.

(** C5, as amended: for at least three pairs and a valid decomposition of
    the covariance, collinear clouds included, both solvers return an
    orthonormal rotation of determinant +1; the scale of
    [calculateCalibration] is strictly positive when neither cloud is
    collinear, the scale of [computeTransform] is non-negative and strictly
    positive when the covariance is not zero. *)
Theorem solver_rotation_proper_scale_sign
    (svd numeric_svd : mat3 -> SVD) (panoRefs revitRefs : list vec3)
    (revitPoints panoPoints : list Point3) :
  length panoRefs = length revitRefs -> (3 <= length panoRefs)%nat ->
  is_svd (Calibrate.covariance_of panoRefs revitRefs)
         (svd (Calibrate.covariance_of panoRefs revitRefs)) ->
  length revitPoints = length panoPoints -> (3 <= length revitPoints)%nat ->
  is_svd (ForgeHelpers.solver_covariance revitPoints panoPoints)
         (numeric_svd (ForgeHelpers.solver_covariance revitPoints panoPoints)) ->
  (exists c,
     Calibrate.calculateCalibration svd panoRefs revitRefs = Returned c
     /\ orthogonal (Calibrate.rotation c) /\ det3 (Calibrate.rotation c) = 1
     /\ (~ collinear panoRefs -> ~ collinear revitRefs -> 0 < Calibrate.scale c))
  /\ (exists r,
        ForgeHelpers.computeTransform (Some numeric_svd) revitPoints panoPoints
        = Returned r
        /\ orthogonal (ForgeHelpers.rows_of (ForgeHelpers.R_ r))
        /\ det3 (ForgeHelpers.rows_of (ForgeHelpers.R_ r)) = 1
        /\ 0 <= ForgeHelpers.scale r
        /\ (ForgeHelpers.solver_covariance revitPoints panoPoints <> zero3 ->
            0 < ForgeHelpers.scale r)).
Proof.
  intros. split.
  - now apply calculateCalibration_proper.
  - now apply computeTransform_proper.
Qed.

Lemma stretch_covariance :
  ForgeHelpers.solver_covariance ForgeHelpers.revit_stretch ForgeHelpers.pano_stretch
  = diag (6, 4, 0).
Proof.
  unfold ForgeHelpers.solver_covariance, ForgeHelpers.covariance_loop, ForgeHelpers.centroid_of,
    ForgeHelpers.revit_stretch, ForgeHelpers.pano_stretch, zero3.
  cbn. tuple_eq; field.
Qed.

Lemma solver_rotation_proper_scale_sign_witness :
  (length Calibrate.panoRefs_turn = length Calibrate.revitRefs_turn
   /\ (3 <= length Calibrate.panoRefs_turn)%nat
   /\ is_svd (Calibrate.covariance_of Calibrate.panoRefs_turn Calibrate.revitRefs_turn)
             (Calibrate.svd_turn
                (Calibrate.covariance_of Calibrate.panoRefs_turn Calibrate.revitRefs_turn))
   /\ length ForgeHelpers.revit_stretch = length ForgeHelpers.pano_stretch
   /\ (3 <= length ForgeHelpers.revit_stretch)%nat
   /\ is_svd (ForgeHelpers.solver_covariance ForgeHelpers.revit_stretch
                ForgeHelpers.pano_stretch)
             (Calibrate.svd_stretch
                (ForgeHelpers.solver_covariance ForgeHelpers.revit_stretch
                   ForgeHelpers.pano_stretch)))
  /\ (exists c,
        Calibrate.calculateCalibration Calibrate.svd_turn
          Calibrate.panoRefs_turn Calibrate.revitRefs_turn = Returned c
        /\ orthogonal (Calibrate.rotation c) /\ det3 (Calibrate.rotation c) = 1
        /\ 0 < Calibrate.scale c)
  /\ (exists r,
        ForgeHelpers.computeTransform (Some Calibrate.svd_stretch)
          ForgeHelpers.revit_stretch ForgeHelpers.pano_stretch = Returned r
        /\ orthogonal (ForgeHelpers.rows_of (ForgeHelpers.R_ r))
        /\ det3 (ForgeHelpers.rows_of (ForgeHelpers.R_ r)) = 1
        /\ 0 <= ForgeHelpers.scale r).
Proof.
  assert (H1 : (3 <= length Calibrate.panoRefs_turn)%nat) by (cbn; lia).
  assert (H2 : (3 <= length ForgeHelpers.revit_stretch)%nat) by (cbn; lia).
  pose proof CalibrateProofs.turn_not_collinear as [H3 H4].
  pose proof CalibrateProofs.svd_turn_valid as H5.
  pose proof (svd_stretch_valid _ stretch_covariance) as H6.
  split; [exact (conj eq_refl (conj H1 (conj H5 (conj eq_refl (conj H2 H6))))) |].
  destruct (solver_rotation_proper_scale_sign
              Calibrate.svd_turn Calibrate.svd_stretch
              Calibrate.panoRefs_turn Calibrate.revitRefs_turn
              ForgeHelpers.revit_stretch ForgeHelpers.pano_stretch
              eq_refl H1 H5 eq_refl H2 H6)
    as [(c & Hc & HO & HD & Hs) (r & Hr & HRo & HRd & Hr0 & _)].
  split.
  - exists c. exact (conj Hc (conj HO (conj HD (Hs H3 H4)))).
  - exists r. exact (conj Hr (conj HRo (conj HRd Hr0))).
Defined.

Lemma uncorrelated_covariance :
  ForgeHelpers.solver_covariance ForgeHelpers.revit_uncorrelated
    ForgeHelpers.pano_uncorrelated = zero3.
Proof.
  unfold ForgeHelpers.solver_covariance, ForgeHelpers.covariance_loop, ForgeHelpers.centroid_of,
    ForgeHelpers.revit_uncorrelated, ForgeHelpers.pano_uncorrelated, zero3.
  cbn. tuple_eq; field.
Qed.

Lemma svd_zero_valid : is_svd zero3 (ForgeHelpers.svd_zero zero3).
Proof.
  unfold is_svd, ForgeHelpers.svd_zero; cbn [U S V].
  repeat split; try apply orthogonal_I3; try lra.
  unfold I3, zero3; cbn; tuple_eq; ring.
Qed.

(** C5, counterexample to the spec's statement: five pairs of non-collinear
    clouds whose cross-covariance is zero; every singular value is zero and
    [computeTransform] returns the scale 0, which is not strictly positive. *)
Lemma computeTransform_scale_not_positive :
  length ForgeHelpers.revit_uncorrelated = length ForgeHelpers.pano_uncorrelated
  /\ (3 <= length ForgeHelpers.revit_uncorrelated)%nat
  /\ ~ collinear (map ForgeHelpers.vector3 ForgeHelpers.revit_uncorrelated)
  /\ ~ collinear (map ForgeHelpers.vector3 ForgeHelpers.pano_uncorrelated)
  /\ is_svd (ForgeHelpers.solver_covariance ForgeHelpers.revit_uncorrelated
               ForgeHelpers.pano_uncorrelated)
            (ForgeHelpers.svd_zero
               (ForgeHelpers.solver_covariance ForgeHelpers.revit_uncorrelated
                  ForgeHelpers.pano_uncorrelated))
  /\ exists r,
       ForgeHelpers.computeTransform (Some ForgeHelpers.svd_zero)
         ForgeHelpers.revit_uncorrelated ForgeHelpers.pano_uncorrelated = Returned r
       /\ ~ (0 < ForgeHelpers.scale r).
Proof.
  split; [reflexivity |]. split; [cbn; lia |].
  split.
  { apply (not_collinear_by_cross _ (-1, 1, 0) (0, -4, 0)); cbn; [tauto | tauto | lra]. }
  split.
  { apply (not_collinear_by_cross _ (-1, 0, 0) (0, 1, 0)); cbn; [tauto | tauto | lra]. }
  split; [rewrite uncorrelated_covariance; apply svd_zero_valid |].
  destruct (computeTransform_fields ForgeHelpers.svd_zero
              ForgeHelpers.revit_uncorrelated ForgeHelpers.pano_uncorrelated)
    as (r & Hr & Hs & _); [reflexivity | cbn; lia |].
  exists r; split; [assumption |].
  rewrite Hs. unfold ForgeHelpers.svd_zero; cbn [S].
  unfold Rdiv. rewrite !Rplus_0_l, Rmult_0_l. lra.
Qed.

(** *** Validation of the number of pairs *)

(** [calculateCalibration] has no failure for a short input: whenever the two
    lists have the same length it returns a calibration. *)
Lemma calculateCalibration_always_returns svd panoRefs revitRefs :
  length panoRefs = length revitRefs ->
  exists c, Calibrate.calculateCalibration svd panoRefs revitRefs = Returned c.
Proof.
  intros H.
  destruct (CalibrateProofs.calculateCalibration_fields svd panoRefs revitRefs)
    as (c & Hc & _); [lia |].
  now exists c.
Qed.

Lemma two_pairs_values :
  Calibrate.covariance_of Calibrate.panoRefs_two Calibrate.revitRefs_two = diag (2, 0, 0)
  /\ Calibrate.rms (Calibrate.flipped_centered Calibrate.panoRefs_two) 2 = sqrt 1
  /\ Calibrate.rms (Calibrate.revit_centered Calibrate.panoRefs_two
                      Calibrate.revitRefs_two) 2 = sqrt 1
  /\ Calibrate.centroid Calibrate.revitRefs_two 2 = (1, 0, 0)
  /\ Calibrate.centroid (map Calibrate.flipX Calibrate.panoRefs_two) 2 = (1, 0, 0).
Proof.
  unfold Calibrate.covariance_of, Calibrate.covariance, Calibrate.rms,
    Calibrate.flipped_centered, Calibrate.revit_centered, Calibrate.centroid,
    Calibrate.panoRefs_two, Calibrate.revitRefs_two, zero3.
  repeat split; cbn; try tuple_eq; try (f_equal; field); field.
Qed.

(** C6 (a solver that does not validate): called with two pairs,
    [calculateCalibration] raises no error and returns a transform, here the
    identity rotation with scale 1 and no translation. *)
Theorem calculateCalibration_accepts_two_pairs :
  (length Calibrate.panoRefs_two < 3)%nat
  /\ is_svd (Calibrate.covariance_of Calibrate.panoRefs_two Calibrate.revitRefs_two)
            (Calibrate.svd_two
               (Calibrate.covariance_of Calibrate.panoRefs_two Calibrate.revitRefs_two))
  /\ exists c,
       Calibrate.calculateCalibration Calibrate.svd_two
         Calibrate.panoRefs_two Calibrate.revitRefs_two = Returned c
       /\ Calibrate.scale c = 1 /\ Calibrate.rotation c = I3
       /\ Calibrate.translation c = (0, 0, 0).
Proof.
  destruct two_pairs_values as (HH & Hp & Hv & HcR & HcP).
  split; [cbn; lia |]. split.
  { rewrite HH. unfold is_svd, Calibrate.svd_two; cbn [U S V].
    repeat split; try apply orthogonal_I3; try lra.
    unfold I3; cbn; tuple_eq; ring. }
  destruct (CalibrateProofs.calculateCalibration_fields Calibrate.svd_two
              Calibrate.panoRefs_two Calibrate.revitRefs_two)
    as (c & Hc & Hs & Hr & _ & Ht); [cbn; lia |].
  exists c. split; [assumption |].
  cbn [length Calibrate.panoRefs_two] in Hs, Ht.
  rewrite Hp, Hv, sqrt_1 in Hs.
  assert (Hs1 : Calibrate.scale c = 1) by (rewrite Hs; field).
  assert (Hr1 : Calibrate.rotation c = I3).
  { rewrite Hr. unfold Calibrate.corrected_rotation, Calibrate.svd_two; cbn [U S V].
    rewrite mtranspose_I3, mmul_I3_r.
    replace (ltb (det3 I3) 0) with false; [reflexivity |].
    symmetry; apply ltb_false. rewrite det3_I3. lra. }
  repeat split; try assumption.
  rewrite Ht, HcR, HcP, Hs1, Hr1, mvec_I3. cbn. tuple_eq; ring.
Qed.

End SolverProofs.

(** ** Further properties of [src/lib/kalman_filter.js] *)

Module KalmanInvariants.
Import Kalman.

Lemma gain_bounds p1 mn :
  0 < p1 -> 0 < mn -> 0 < p1 / (p1 + mn) < 1.
Proof.
  intros Hp Hm. split.
  - apply Rdiv_lt_0_compat; lra.
  - apply Rmult_lt_reg_r with (p1 + mn); [lra |].
    unfold Rdiv; rewrite Rmult_assoc, Rinv_l by lra. lra.
Qed.

Lemma posterior_bounds p1 mn :
  0 < p1 -> 0 < mn -> 0 < (1 - p1 / (p1 + mn)) * p1 < mn.
Proof.
  intros Hp Hm.
  replace ((1 - p1 / (p1 + mn)) * p1) with (mn * (p1 / (p1 + mn))) by (field; lra).
  destruct (gain_bounds p1 mn Hp Hm) as [H0 H1]. split; nra.
Qed.

(** Every update leaves the filter initialised, keeps the two noise
    parameters, and brings each error variance strictly between 0 and the
    measurement noise. *)
Theorem update_variance_bounds (m : Point3) (kf : KalmanFilter3D) :
  0 <= processNoise kf -> 0 < measurementNoise kf ->
  (initd kf = true -> 0 < px (p kf) /\ 0 < py (p kf) /\ 0 < pz (p kf)) ->
  let kf' := fst (update m kf) in
  initd kf' = true
  /\ processNoise kf' = processNoise kf
  /\ measurementNoise kf' = measurementNoise kf
  /\ 0 < px (p kf') < measurementNoise kf
  /\ 0 < py (p kf') < measurementNoise kf
  /\ 0 < pz (p kf') < measurementNoise kf.
Proof.
  intros Hpn Hmn Hp. unfold update.
  destruct (initd kf) eqn:Hi; cbn.
  - destruct (Hp eq_refl) as (Hx & Hy & Hz).
    rewrite Hi. repeat split; try apply posterior_bounds; lra.
  - repeat split; try apply posterior_bounds; lra.
Qed.

Lemma update_variance_bounds_witness :
  let kf := new None None in
  (0 <= processNoise kf /\ 0 < measurementNoise kf)
  /\ 0 < px (p (fst (update (mkPoint3 1 2 3) kf))) < measurementNoise kf.
Proof.
  cbv zeta. split; [cbn; lra |].
  apply (update_variance_bounds (mkPoint3 1 2 3) (new None None));
    cbn; try lra; try discriminate.
Defined.




Lemma update_same m kf :
  initd kf = false \/ x kf = m ->
  snd (update m kf) = m
  /\ x (fst (update m kf)) = m /\ initd (fst (update m kf)) = true.
Proof.
  intros H. unfold update.
  destruct (initd kf) eqn:Hi; cbn.
  - destruct H as [H | H]; [discriminate |]. rewrite H.
    destruct m as [mx my mz]; cbn.
    assert (E : forall k v : R, v + k * (v - v) = v) by (intros; ring).
    now rewrite !E.
  - destruct m as [mx my mz]; cbn.
    assert (E : forall k v : R, v + k * (v - v) = v) by (intros; ring).
    now rewrite !E.
Qed.

Lemma update_keeps_positive m kf :
  0 <= processNoise kf -> 0 < measurementNoise kf ->
  (initd kf = true -> 0 < px (p kf) /\ 0 < py (p kf) /\ 0 < pz (p kf)) ->
  initd (fst (update m kf)) = true
  /\ processNoise (fst (update m kf)) = processNoise kf
  /\ measurementNoise (fst (update m kf)) = measurementNoise kf
  /\ 0 < px (p (fst (update m kf))) /\ 0 < py (p (fst (update m kf)))
  /\ 0 < pz (p (fst (update m kf))).
Proof.
  intros Hpn Hmn Hp. unfold update.
  destruct (initd kf) eqn:Hi; cbn.
  - destruct (Hp eq_refl) as (Hx & Hy & Hz).
    rewrite Hi. repeat split; apply posterior_bounds; lra.
  - repeat split; apply posterior_bounds; lra.
Qed.

(** With a non-negative process noise, a positive measurement noise and
    positive variances, no gain has a zero divisor. *)
Lemma divisors_nonzero m kf :
  0 <= processNoise kf -> 0 < measurementNoise kf ->
  (initd kf = true -> 0 < px (p kf) /\ 0 < py (p kf) /\ 0 < pz (p kf)) ->
  let '(dx, dy, dz) := divisors m kf in dx <> 0 /\ dy <> 0 /\ dz <> 0.
Proof.
  intros Hpn Hmn Hp. unfold divisors.
  destruct (initd kf) eqn:Hi; cbn.
  - destruct (Hp eq_refl) as (Hx & Hy & Hz). repeat split; lra.
  - repeat split; lra.
Qed.

(** Under the same conditions the filter threaded over a finite sequence
    stays finite: the run in [KalmanJs] is the run in [R]. *)
Lemma run_finite ms : forall kf,
  0 <= processNoise kf -> 0 < measurementNoise kf ->
  (initd kf = true -> 0 < px (p kf) /\ 0 < py (p kf) /\ 0 < pz (p kf)) ->
  KalmanJs.run (KalmanJs.of_filter kf) (map KalmanJs.of_point ms)
  = map KalmanJs.of_point (run kf ms).
Proof.
  induction ms as [| m ms IH]; intros kf Hpn Hmn Hp; [reflexivity |].
  cbn [map run KalmanJs.run].
  rewrite (KalmanProofs.update_finite m kf) by now apply divisors_nonzero.
  destruct (update_keeps_positive m kf Hpn Hmn Hp) as (Hi & Hn & Hm & Hx & Hy & Hz).
  destruct (update m kf) as [kf' out]; cbn [fst snd map] in *.
  f_equal. apply IH; [now rewrite Hn | now rewrite Hm | now intros _].
Qed.

Lemma run_repeat m : forall k kf,
  initd kf = false \/ x kf = m -> run kf (repeat m k) = repeat m k.
Proof.
  induction k as [| k IH]; intros kf H; cbn [repeat run]; [reflexivity |].
  destruct (update_same m kf H) as (Ho & Hx & _).
  destruct (update m kf) as [kf' out]; cbn in *.
  rewrite Ho, IH; [reflexivity | now right].
Qed.

Lemma new_finite pn mn :
  KalmanJs.new (option_map Js.Fin pn) (option_map Js.Fin mn)
  = KalmanJs.of_filter (new pn mn).
Proof. destruct pn, mn; reflexivity. Qed.

(** A stream that repeats one finite measurement passes through a fresh
    filter unchanged, for a non-negative process noise and a positive
    measurement noise; stated on the model with the non-finite values. *)
Theorem run_constant (pn mn : option R) (m : Point3) (n : nat) :
  0 <= processNoise (new pn mn) -> 0 < measurementNoise (new pn mn) ->
  KalmanJs.run (KalmanJs.new (option_map Js.Fin pn) (option_map Js.Fin mn))
               (repeat (KalmanJs.of_point m) n)
  = repeat (KalmanJs.of_point m) n.
Proof.
  intros Hpn Hmn.
  rewrite new_finite, <- map_repeat, run_finite; try assumption.
  - now rewrite run_repeat; [| left].
  - discriminate.
Qed.

Lemma run_constant_witness :
  (0 <= processNoise (new None None) /\ 0 < measurementNoise (new None None))
  /\ KalmanJs.run (KalmanJs.new None None) (repeat (KalmanJs.of_point (mkPoint3 1 2 3)) 2)
     = repeat (KalmanJs.of_point (mkPoint3 1 2 3)) 2.
Proof.
  assert (H1 : 0 <= processNoise (new None None)) by (cbn; lra).
  assert (H2 : 0 < measurementNoise (new None None)) by (cbn; lra).
  split; [exact (conj H1 H2) |].
  exact (run_constant None None (mkPoint3 1 2 3) 2 H1 H2).
Defined.

End KalmanInvariants.

(** ** Further properties of [src/lib/pano_helpers.js]: path helpers *)

Module PathRepair.
Import Num NumFacts PanoHelpers PanoHelpersProofs.

Lemma hypot3_swap (a b : Point3) :
  hypot3 (px a - px b) (py a - py b) (pz a - pz b)
  = hypot3 (px b - px a) (py b - py a) (pz b - pz a).
Proof. unfold hypot3. f_equal. ring. Qed.

Lemma fix_loop_separated rng minDist rest : forall prev acc c,
  separated minDist (prev :: rest) ->
  fold_left (fix_step rng minDist) rest (prev :: acc, c)
  = (rev rest ++ prev :: acc, c).
Proof.
  induction rest as [| curr rest IH]; intros prev acc c Hsep; [reflexivity |].
  cbn [fold_left]. destruct Hsep as [Hd Hsep].
  rewrite fix_step_far.
  - rewrite IH by assumption. cbn [rev]. now rewrite <- app_assoc.
  - unfold dist3 in Hd. rewrite <- hypot3_swap. lra.
Qed.

(** A path that already keeps the minimum separation is returned as it is,
    and no random number is drawn. *)
Theorem fixOverlappingPoints_separated_unchanged
    (rng : nat -> R) (points : list Point3) (minDist : R) :
  separated minDist points ->
  fixOverlappingPoints rng points minDist = points.
Proof.
  intros Hsep. unfold fixOverlappingPoints.
  destruct points as [| p0 [| p1 rest]]; try reflexivity.
  rewrite fix_loop_separated by assumption.
  cbn [fst]. rewrite rev_app_distr, rev_involutive. reflexivity.
Qed.

Lemma fixOverlappingPoints_separated_unchanged_witness :
  separated 1 [mkPoint3 0 0 0; mkPoint3 1 0 0; mkPoint3 3 0 0]
  /\ fixOverlappingPoints (fun _ => 0) [mkPoint3 0 0 0; mkPoint3 1 0 0; mkPoint3 3 0 0] 1
     = [mkPoint3 0 0 0; mkPoint3 1 0 0; mkPoint3 3 0 0].
Proof.
  assert (H : separated 1 [mkPoint3 0 0 0; mkPoint3 1 0 0; mkPoint3 3 0 0]).
  { cbn. unfold dist3; cbn. repeat split; trivial.
    - replace (0 - 1) with (- (1)) by lra. replace (0 - 0) with 0 by lra.
      unfold hypot3. replace (- (1) * - (1) + 0 * 0 + 0 * 0) with (1 * 1) by ring.
      rewrite sqrt_square; lra.
    - replace (1 - 3) with (- (2)) by lra. replace (0 - 0) with 0 by lra.
      unfold hypot3. replace (- (2) * - (2) + 0 * 0 + 0 * 0) with (2 * 2) by ring.
      rewrite sqrt_square; lra. }
  split; [exact H |].
  exact (fixOverlappingPoints_separated_unchanged (fun _ => 0) _ 1 H).
Defined.

(** A pair of distinct points closer than the threshold is replaced by two
    points exactly the threshold apart, with the same midpoint. *)
Theorem fixOverlappingPoints_pair (rng : nat -> R) (a b : Point3) (minDist : R) :
  1 / 10 ^ 6 <= dist3 b a -> dist3 b a < minDist ->
  exists a' b',
    fixOverlappingPoints rng [a; b] minDist = [a'; b']
    /\ dist3 a' b' = minDist
    /\ px a' + px b' = px a + px b
    /\ py a' + py b' = py a + py b
    /\ pz a' + pz b' = pz a + pz b.
Proof.
  intros Hlo Hhi. unfold fixOverlappingPoints; cbn [fold_left].
  unfold dist3 in Hlo, Hhi.
  rewrite fix_step_near by assumption. cbn [fst rev app].
  set (d := hypot3 (px b - px a) (py b - py a) (pz b - pz a)) in *.
  assert (Hd : 0 < d) by (assert (0 < 1 / 10 ^ 6) by lra; lra).
  assert (Hm : 0 < minDist) by lra.
  pose proof (hypot3_sqr (px b - px a) (py b - py a) (pz b - pz a)) as Hsq.
  fold d in Hsq.
  do 2 eexists. split; [reflexivity |].
  split; [| cbn; repeat split; field; lra].
  unfold dist3; cbn. unfold hypot3.
  match goal with |- sqrt ?e = _ =>
    replace e with (minDist * minDist * (((px b - px a) * (px b - px a)
        + (py b - py a) * (py b - py a) + (pz b - pz a) * (pz b - pz a)) / (d * d)))
      by (field; lra)
  end.
  rewrite <- Hsq.
  replace (d * d / (d * d)) with 1 by (field; lra).
  rewrite Rmult_1_r. apply sqrt_square. lra.
Qed.

Lemma fixOverlappingPoints_pair_witness :
  (1 / 10 ^ 6 <= dist3 (mkPoint3 1 0 0) (mkPoint3 0 0 0)
   /\ dist3 (mkPoint3 1 0 0) (mkPoint3 0 0 0) < 2)
  /\ exists a' b',
       fixOverlappingPoints (fun _ => 0) [mkPoint3 0 0 0; mkPoint3 1 0 0] 2 = [a'; b']
       /\ dist3 a' b' = 2.
Proof.
  assert (H : dist3 (mkPoint3 1 0 0) (mkPoint3 0 0 0) = 1).
  { unfold dist3; cbn. replace (1 - 0) with 1 by lra. replace (0 - 0) with 0 by lra.
    apply hypot3_axis; lra. }
  split; [rewrite H; lra |].
  destruct (fixOverlappingPoints_pair (fun _ => 0) (mkPoint3 0 0 0) (mkPoint3 1 0 0) 2)
    as (a' & b' & E & D & _); [rewrite H; lra | rewrite H; lra |].
  now exists a', b'.
Defined.

(** With a negative polynomial order the matrix product throws and the
    [catch] branch returns the input: the samples come back unsmoothed. *)
Theorem savitzkyGolay_negative_order (points : list Point3) (windowSize polyOrder : Z) :
  (0 <= windowSize)%Z -> (polyOrder < 0)%Z ->
  savitzkyGolay points windowSize polyOrder = points.
Proof.
  intros Hw Hp. unfold savitzkyGolay.
  destruct points as [| p0 rest]; [reflexivity |].
  set (w := if Z.eqb (Z.rem windowSize 2) 0 then (windowSize + 1)%Z else windowSize).
  assert (Hw' : (0 <= w)%Z) by (unfold w; destruct (Z.eqb _ 0); lia).
  assert (Hhalf : (0 <= w / 2)%Z) by (apply Z.div_pos; lia).
  unfold design.
  replace (zrange 0 polyOrder) with (@nil Z)
    by (unfold zrange; replace (Z.to_nat (polyOrder - 0 + 1)) with 0%nat by lia;
        reflexivity).
  destruct (zrange (- (w / 2)) (w / 2)) as [| i0 tl] eqn:Ek.
  - apply (f_equal (@length Z)) in Ek. unfold zrange in Ek.
    rewrite length_map, length_seq in Ek. cbn in Ek. lia.
  - reflexivity.
Qed.

Lemma savitzkyGolay_negative_order_witness :
  ((0 <= 11)%Z /\ (-1 < 0)%Z)
  /\ savitzkyGolay [mkPoint3 1 2 3; mkPoint3 4 5 6] 11 (-1)
     = [mkPoint3 1 2 3; mkPoint3 4 5 6].
Proof.
  split; [lia |].
  apply (savitzkyGolay_negative_order [mkPoint3 1 2 3; mkPoint3 4 5 6] 11 (-1)); lia.
Defined.

End PathRepair.

(** ** Further properties of the quaternion helpers of
    [camera_transformation.js] *)

Module QuatRoundTrip.
Import Quat QuatProofs.

Lemma qNormalize_unit a : len2 a = 1 -> qNormalize a = a.
Proof.
  intros H. destruct a as [[[x y] z] w]. cbn in *.
  rewrite H, sqrt_1. quat_eq; field.
Qed.

Lemma reverseTransform_along f g :
  along f g -> along (reverseTransform f) (qMul (qConj QUAT_TRANSFORM) g).
Proof.
  intros H. unfold reverseTransform.
  apply along_qNormalize, along_qMul; [| assumption].
  apply along_qInverse, len2_QUAT_TRANSFORM.
Qed.

Lemma transformQuaternion_unit q : len2 q <> 0 -> len2 (transformQuaternion q) = 1.
Proof.
  intros H. apply len2_qNormalize. rewrite len2_qMul.
  apply Rmult_integral_contrapositive. split; [apply len2_QUAT_TRANSFORM | exact H].
Qed.

Lemma reverseTransform_unit q : len2 q <> 0 -> len2 (reverseTransform q) = 1.
Proof.
  intros H. apply len2_qNormalize. rewrite len2_qMul.
  apply Rmult_integral_contrapositive. split; [| exact H].
  pose proof (along_len2 _ _ (along_qInverse _ len2_QUAT_TRANSFORM)). lra.
Qed.

(** [qInverse] returns the two-sided inverse for [qMul]. *)
Theorem qInverse_inverse (q : quat) :
  len2 q <> 0 ->
  qMul (qInverse q) q = qIdentity /\ qMul q (qInverse q) = qIdentity.
Proof.
  intros H. destruct q as [[[x y] z] w]. cbn in H.
  split; cbn; unfold qIdentity; quat_eq; field; exact H.
Qed.

Lemma qInverse_inverse_witness :
  len2 QUAT_TRANSFORM <> 0
  /\ qMul (qInverse QUAT_TRANSFORM) QUAT_TRANSFORM = qIdentity
  /\ qMul QUAT_TRANSFORM (qInverse QUAT_TRANSFORM) = qIdentity.
Proof.
  split; [cbn; lra |]. apply (qInverse_inverse QUAT_TRANSFORM). cbn; lra.
Defined.

(** [reverseTransform] undoes [transformQuaternion] and the other way round:
    either composition returns the normalised input. *)
Theorem reverseTransform_transformQuaternion (q : quat) :
  len2 q <> 0 ->
  reverseTransform (transformQuaternion q) = qNormalize q
  /\ transformQuaternion (reverseTransform q) = qNormalize q.
Proof.
  intros Hq.
  pose proof (len2_pos _ len2_QUAT_TRANSFORM) as HT.
  pose proof (along_refl q Hq) as Hrefl.
  split.
  - apply along_unit with q.
    + eapply along_trans.
      * apply reverseTransform_along, transformQuaternion_along, Hrefl.
      * replace (qMul _ _) with (qScale (len2 QUAT_TRANSFORM) q)
          by (destruct q as [[[x y] z] w]; cbn; quat_eq; ring).
        now apply along_qScale.
    + now apply along_qNormalize.
    + apply reverseTransform_unit.
      pose proof (transformQuaternion_unit q Hq). lra.
    + now apply len2_qNormalize.
  - apply along_unit with q.
    + eapply along_trans.
      * apply transformQuaternion_along, reverseTransform_along, Hrefl.
      * replace (qMul _ _) with (qScale (len2 QUAT_TRANSFORM) q)
          by (destruct q as [[[x y] z] w]; cbn; quat_eq; ring).
        now apply along_qScale.
    + now apply along_qNormalize.
    + apply transformQuaternion_unit.
      pose proof (reverseTransform_unit q Hq). lra.
    + now apply len2_qNormalize.
Qed.

Lemma reverseTransform_transformQuaternion_witness :
  len2 (0, 0, 0, 2) <> 0
  /\ reverseTransform (transformQuaternion (0, 0, 0, 2)) = qNormalize (0, 0, 0, 2)
  /\ transformQuaternion (reverseTransform (0, 0, 0, 2)) = qNormalize (0, 0, 0, 2).
Proof.
  split; [cbn; lra |]. apply (reverseTransform_transformQuaternion (0, 0, 0, 2)). cbn; lra.
Defined.

(** Every exported quaternion transform returns a unit quaternion on a
    non-zero input. *)
Theorem transforms_return_unit (q : quat) :
  len2 q <> 0 ->
  len2 (transformQuaternion q) = 1
  /\ len2 (transformQuaternionMirrored q) = 1
  /\ len2 (reverseTransform q) = 1
  /\ len2 (forgeToPanoQuaternion q) = 1.
Proof.
  intros Hq. repeat split.
  - now apply transformQuaternion_unit.
  - unfold transformQuaternionMirrored. apply len2_qNormalize.
    rewrite len2_qMul, transformQuaternion_unit by assumption. cbn; lra.
  - now apply reverseTransform_unit.
  - apply forgeToPanoQuaternion_unit with q. now apply along_refl.
Qed.

Lemma transforms_return_unit_witness :
  len2 (1, 2, 3, 4) <> 0
  /\ len2 (transformQuaternion (1, 2, 3, 4)) = 1
  /\ len2 (transformQuaternionMirrored (1, 2, 3, 4)) = 1
  /\ len2 (reverseTransform (1, 2, 3, 4)) = 1
  /\ len2 (forgeToPanoQuaternion (1, 2, 3, 4)) = 1.
Proof.
  split; [cbn; lra |]. apply (transforms_return_unit (1, 2, 3, 4)). cbn; lra.
Defined.

(** The mirrored transform is the normal one with its components permuted:
    [[x, y, z, w]] becomes [[-y, x, w, -z]]; the second normalisation changes
    nothing. *)
Theorem transformQuaternionMirrored_components (q : quat) :
  len2 q <> 0 ->
  transformQuaternionMirrored q
  = (let '(x, y, z, w) := transformQuaternion q in (- y, x, w, - z)).
Proof.
  intros Hq. unfold transformQuaternionMirrored.
  pose proof (transformQuaternion_unit q Hq) as Hu.
  destruct (transformQuaternion q) as [[[x y] z] w].
  rewrite qNormalize_unit.
  - cbn. quat_eq; ring.
  - rewrite len2_qMul, Hu. cbn; lra.
Qed.

Lemma transformQuaternionMirrored_components_witness :
  len2 qIdentity <> 0
  /\ transformQuaternionMirrored qIdentity
     = (let '(x, y, z, w) := transformQuaternion qIdentity in (- y, x, w, - z)).
Proof.
  split; [cbn; lra |]. apply (transformQuaternionMirrored_components qIdentity). cbn; lra.
Defined.

Lemma forgeToPanoQuaternion_turnPitchCalibrate_witness :
  len2 qIdentity <> 0
  /\ forgeToPanoQuaternion (turnPitchCalibrate qIdentity) = qNormalize qIdentity.
Proof.
  split; [cbn; lra |]. apply (forgeToPanoQuaternion_turnPitchCalibrate qIdentity). cbn; lra.
Defined.

End QuatRoundTrip.

(** ** Further properties of [calibratePanoToForge.js] *)

Module DatasetProofs.
Import Num NumFacts Mat3 Calibrate Dataset.

Lemma fold_unchanged {A : Type} (f : A -> bool) (l : list A) : forall b,
  (forall e, In e l -> f e = false) ->
  fold_left (fun inside e => if f e then negb inside else inside) l b = b.
Proof.
  induction l as [| e l IH]; intros b H; [reflexivity |].
  cbn [fold_left]. rewrite (H e (or_introl eq_refl)).
  apply IH. intros e' He'. apply H. now right.
Qed.

Lemma fold_agree {A : Type} (f g : A -> bool) (l : list A) : forall b,
  (forall e, In e l -> f e = g e) ->
  fold_left (fun inside e => if f e then negb inside else inside) l b
  = fold_left (fun inside e => if g e then negb inside else inside) l b.
Proof.
  induction l as [| e l IH]; intros b H; [reflexivity |].
  cbn [fold_left]. rewrite (H e (or_introl eq_refl)).
  apply IH. intros e' He'. apply H. now right.
Qed.

Lemma in_removelast {A : Type} (l : list A) (a : A) : In a (removelast l) -> In a l.
Proof.
  induction l as [| b l IH]; [easy |].
  destruct l as [| c l]; [easy |].
  change (removelast (b :: c :: l)) with (b :: removelast (c :: l)).
  intros [-> | H]; [now left | right; now apply IH].
Qed.

Lemma in_last {A : Type} (l : list A) (d : A) : l <> [] -> In (last l d) l.
Proof.
  induction l as [| b l IH]; [easy |]. intros _.
  destruct l as [| c l]; [now left |].
  right. apply IH. discriminate.
Qed.

Lemma in_edges polygon a b :
  In (a, b) (edges polygon) -> In a polygon /\ In b polygon.
Proof.
  destruct polygon as [| p0 rest]; [easy |].
  unfold edges. intros H. split.
  - eapply in_combine_l, H.
  - apply in_combine_r in H. destruct H as [<- | H].
    + apply in_last. discriminate.
    + now apply in_removelast.
Qed.

Lemma removelast_cons2 {A : Type} (a : A) (l : list A) :
  l <> [] -> removelast (a :: l) = a :: removelast l.
Proof. destruct l; [easy | reflexivity]. Qed.

Lemma last_cons2 {A : Type} (a d : A) (l : list A) :
  l <> [] -> last (a :: l) d = last l d.
Proof. destruct l; [easy | reflexivity]. Qed.

Lemma last_default {A : Type} (l : list A) (d d' : A) :
  l <> [] -> last l d = last l d'.
Proof.
  induction l as [| a l IH]; [easy |]. intros _.
  destruct l as [| b l]; [reflexivity |].
  rewrite !(last_cons2 a) by discriminate. apply IH. discriminate.
Qed.

(** Going once round a closed polygon, the side of the ray changes an even
    number of times. *)
Lemma fold_cycle {A : Type} (side : A -> bool) (l : list A) : forall p acc,
  fold_left (fun inside e => if xorb (side (fst e)) (side (snd e))
                             then negb inside else inside)
            (combine l (p :: removelast l)) acc
  = xorb acc (xorb (side p) (side (last l p))).
Proof.
  induction l as [| a l IH]; intros p acc.
  - cbn. now rewrite xorb_nilpotent, xorb_false_r.
  - destruct l as [| c l].
    + cbn. destruct acc, (side a), (side p); reflexivity.
    + assert (Hne : c :: l <> []) by discriminate.
      revert IH Hne. generalize (c :: l). intros l' IH Hne.
      rewrite removelast_cons2 by assumption.
      cbn [combine fold_left fst snd]. rewrite IH.
      rewrite last_cons2 by assumption.
      rewrite (last_default l' a p) by assumption.
      destruct acc, (side a), (side p), (side (last l' p)); reflexivity.
Qed.

Lemma last_last {A : Type} (l : list A) (d : A) : l <> [] -> last l (last l d) = last l d.
Proof. intros H. now apply last_default. Qed.

(** Where the ray meets an edge whose ends are on opposite sides of it, the
    meeting point is between the ends. *)
Lemma crossing_between xi yi xj yj y :
  ltb y yi <> ltb y yj ->
  Rmin xi xj <= (xj - xi) * (y - yi) / (yj - yi) + xi <= Rmax xi xj.
Proof.
  intros Hside.
  assert (Ht : 0 <= (y - yi) / (yj - yi) <= 1).
  { destruct (Rlt_dec y yi) as [Hi | Hi]; destruct (Rlt_dec y yj) as [Hj | Hj].
    - exfalso. apply Hside.
      now rewrite (proj2 (ltb_true _ _) Hi), (proj2 (ltb_true _ _) Hj).
    - assert (Hd : yj - yi < 0) by lra.
      split.
      + replace ((y - yi) / (yj - yi)) with ((yi - y) / (yi - yj)) by (field; lra).
        apply Rmult_le_pos; [lra | apply Rlt_le, Rinv_0_lt_compat; lra].
      + replace ((y - yi) / (yj - yi)) with ((yi - y) / (yi - yj)) by (field; lra).
        apply Rmult_le_reg_r with (yi - yj); [lra |].
        unfold Rdiv. rewrite Rmult_assoc, Rinv_l by lra. lra.
    - assert (Hd : 0 < yj - yi) by lra.
      split.
      + apply Rmult_le_pos; [lra | apply Rlt_le, Rinv_0_lt_compat; lra].
      + apply Rmult_le_reg_r with (yj - yi); [lra |].
        unfold Rdiv. rewrite Rmult_assoc, Rinv_l by lra. lra.
    - exfalso. apply Hside.
      rewrite (proj2 (ltb_false _ _)) by lra.
      now rewrite (proj2 (ltb_false _ _)) by lra. }
  set (t := (y - yi) / (yj - yi)) in *.
  replace ((xj - xi) * (y - yi) / (yj - yi) + xi) with (xi + t * (xj - xi))
    by (unfold t, Rdiv; ring).
  unfold Rmin, Rmax. destruct (Rle_dec xi xj); split; nra.
Qed.

Lemma ray_left (x y : R) (polygon : list (R * R)) :
  (forall p, In p polygon -> x < fst p) -> isPointInPolygon (x, y) polygon = false.
Proof.
  intros H. unfold isPointInPolygon.
  rewrite (fold_agree (crosses x y)
             (fun e => xorb (ltb y (snd (fst e))) (ltb y (snd (snd e))))).
  - destruct polygon as [| p0 rest]; [reflexivity |].
    unfold edges.
    rewrite (fold_cycle (fun p => ltb y (snd p))).
    rewrite last_last by discriminate. now rewrite xorb_nilpotent.
  - intros [[xi yi] [xj yj]] He. apply in_edges in He. destruct He as [Hi Hj].
    apply H in Hi; apply H in Hj. cbn [fst snd] in *.
    unfold crosses.
    destruct (Bool.eqb (ltb y yi) (ltb y yj)) eqn:E.
    + apply Bool.eqb_prop in E. rewrite E. now rewrite xorb_nilpotent.
    + assert (Hne : ltb y yi <> ltb y yj)
        by (intros E'; rewrite E' in E; now rewrite Bool.eqb_reflx in E).
      pose proof (crossing_between xi yi xj yj y Hne) as [Hlo _].
      rewrite (proj2 (ltb_true _ _)).
      * destruct (ltb y yi), (ltb y yj); try reflexivity; now elim Hne.
      * unfold Rmin in Hlo. destruct (Rle_dec xi xj); lra.
Qed.

Lemma ray_right (x y : R) (polygon : list (R * R)) :
  (forall p, In p polygon -> fst p <= x) -> isPointInPolygon (x, y) polygon = false.
Proof.
  intros H. unfold isPointInPolygon. apply fold_unchanged.
  intros [[xi yi] [xj yj]] He. apply in_edges in He. destruct He as [Hi Hj].
  apply H in Hi; apply H in Hj. cbn [fst snd] in *.
  unfold crosses.
  destruct (Bool.eqb (ltb y yi) (ltb y yj)) eqn:E; [reflexivity |].
  assert (Hne : ltb y yi <> ltb y yj)
    by (intros E'; rewrite E' in E; now rewrite Bool.eqb_reflx in E).
  pose proof (crossing_between xi yi xj yj y Hne) as [_ Hhi].
  cbn [negb andb]. apply ltb_false.
  unfold Rmax in Hhi. destruct (Rle_dec xi xj); lra.
Qed.

Lemma ray_below (x y : R) (polygon : list (R * R)) :
  (forall p, In p polygon -> y < snd p) -> isPointInPolygon (x, y) polygon = false.
Proof.
  intros H. unfold isPointInPolygon. apply fold_unchanged.
  intros [[xi yi] [xj yj]] He. apply in_edges in He. destruct He as [Hi Hj].
  apply H in Hi; apply H in Hj. cbn [fst snd] in *.
  unfold crosses.
  now rewrite (proj2 (ltb_true _ _) Hi), (proj2 (ltb_true _ _) Hj).
Qed.

Lemma ray_above (x y : R) (polygon : list (R * R)) :
  (forall p, In p polygon -> snd p <= y) -> isPointInPolygon (x, y) polygon = false.
Proof.
  intros H. unfold isPointInPolygon. apply fold_unchanged.
  intros [[xi yi] [xj yj]] He. apply in_edges in He. destruct He as [Hi Hj].
  apply H in Hi; apply H in Hj. cbn [fst snd] in *.
  unfold crosses.
  rewrite (proj2 (ltb_false y yi)) by lra.
  now rewrite (proj2 (ltb_false y yj)) by lra.
Qed.

(** A point left of, right of, below or above every vertex is outside the
    polygon, whatever the polygon. *)
Theorem isPointInPolygon_outside_box (x y : R) (polygon : list (R * R)) :
  Forall (fun p => x < fst p) polygon \/ Forall (fun p => fst p <= x) polygon
  \/ Forall (fun p => y < snd p) polygon \/ Forall (fun p => snd p <= y) polygon ->
  isPointInPolygon (x, y) polygon = false.
Proof.
  intros H.
  destruct H as [H | [H | [H | H]]]; rewrite Forall_forall in H.
  - now apply ray_left.
  - now apply ray_right.
  - now apply ray_below.
  - now apply ray_above.
Qed.

Lemma isPointInPolygon_outside_box_witness :
  (Forall (fun p => 25 < fst p) Boundary \/ Forall (fun p => fst p <= 25) Boundary
   \/ Forall (fun p => 20 < snd p) Boundary \/ Forall (fun p => snd p <= 20) Boundary)
  /\ isPointInPolygon (25, 20) Boundary = false.
Proof.
  assert (H : Forall (fun p => fst p <= 25) Boundary).
  { unfold Boundary. repeat constructor; cbn; lra. }
  split; [right; left; exact H |].
  apply (isPointInPolygon_outside_box 25 20 Boundary). right; left; exact H.
Defined.

End DatasetProofs.

(** ** Further properties of the boundary constraint of
    [camera_transformation.js] *)

Module BoundaryFacts.
Import Num NumFacts Boundary BoundaryProofs BoundaryTransform.

Lemma edge_nondegenerate e :
  In e (with_next BOUNDARY_POINTS) -> edge_length2 e <> 0.
Proof.
  unfold BOUNDARY_POINTS, with_next; cbn [app combine In].
  intros H; repeat (destruct H as [<- | H]; [unfold edge_length2; cbn; lra |]).
  destruct H.
Qed.

Lemma edge_closest_point x y e :
  edge_closest x y e = edge_point e (edge_param x y e).
Proof. reflexivity. Qed.

(** The clamped projection is the point of the segment nearest to [(x, y)]. *)
Lemma segment_nearest x y e t :
  edge_length2 e <> 0 -> 0 <= t <= 1 ->
  edge_distance x y e <= hypot2 (x - fst (edge_point e t)) (y - snd (edge_point e t)).
Proof.
  intros HL Ht. unfold edge_distance, edge_closest, edge_point, hypot2. cbn [fst snd].
  apply sqrt_le_1_alt.
  unfold edge_param, edge_length2 in *.
  set (dx := p2x (snd e) - p2x (fst e)) in *.
  set (dy := p2y (snd e) - p2y (fst e)) in *.
  set (a := x - p2x (fst e)). set (b := y - p2y (fst e)).
  set (L := dx * dx + dy * dy) in *.
  assert (HLpos : 0 < L).
  { pose proof (sq_nonneg dx). pose proof (sq_nonneg dy). unfold L in *. lra. }
  set (u := (a * dx + b * dy) / L).
  assert (Hn : a * dx + b * dy = u * L) by (unfold u; field; lra).
  set (t0 := Rmax 0 (Rmin 1 u)).
  assert (Hkey : (t0 - t) * (t0 + t - 2 * u) <= 0).
  { unfold t0, Rmax, Rmin.
    destruct (Rle_dec 1 u); destruct (Rle_dec 0 _); try lra.
    - assert (0 <= (1 - t) * (2 * u - 1 - t)) by (apply Rmult_le_pos; lra). lra.
    - pose proof (sq_nonneg (u - t)). lra.
    - assert (0 <= t * (t - 2 * u)) by (apply Rmult_le_pos; lra). lra. }
  replace (x - (p2x (fst e) + t0 * dx)) with (a - t0 * dx) by (unfold a; ring).
  replace (y - (p2y (fst e) + t0 * dy)) with (b - t0 * dy) by (unfold b; ring).
  replace (x - (p2x (fst e) + t * dx)) with (a - t * dx) by (unfold a; ring).
  replace (y - (p2y (fst e) + t * dy)) with (b - t * dy) by (unfold b; ring).
  assert (E : (a - t * dx) * (a - t * dx) + (b - t * dy) * (b - t * dy)
              - ((a - t0 * dx) * (a - t0 * dx) + (b - t0 * dy) * (b - t0 * dy))
              = - (L * ((t0 - t) * (t0 + t - 2 * u)))).
  { unfold L. replace (2 * u) with (2 * u * 1) by ring.
    transitivity ((t * t - t0 * t0) * (dx * dx + dy * dy)
                  - 2 * (t - t0) * (a * dx + b * dy)); [ring |].
    rewrite Hn. unfold L. ring. }
  assert (0 <= L * - ((t0 - t) * (t0 + t - 2 * u))) by (apply Rmult_le_pos; lra).
  lra.
Qed.

Lemma nearest_of_step x y seen st e :
  edge_length2 e <> 0 -> nearest_of x y seen st ->
  nearest_of x y (seen ++ [e]) (nearest_step x y st e).
Proof.
  intros HL Hst. unfold nearest_step.
  unfold edge_length2 in HL.
  rewrite (proj2 (eqb_false _ _) HL).
  fold (edge_param x y e).
  change (hypot2 _ _) with (edge_distance x y e).
  unfold nearest_of in *.
  destruct (distance st) as [| d] eqn:Ed; cbn [dist_ltb].
  - cbn [distance nx ny]. exists e. subst seen. cbn [app In].
    repeat split; try reflexivity; [now left |].
    intros e' [<- | []]. lra.
  - destruct Hst as (e0 & Hin & Hx & Hy & Hd & Hmin).
    destruct (ltb (edge_distance x y e) d) eqn:Elt.
    + apply ltb_true in Elt. cbn [distance nx ny].
      exists e. repeat split; try reflexivity.
      * apply in_or_app; right; now left.
      * intros e' He'. apply in_app_or in He'. destruct He' as [He' | [<- | []]].
        -- specialize (Hmin e' He'). lra.
        -- lra.
    + apply ltb_false in Elt. rewrite Ed.
      exists e0. repeat split; try assumption.
      * apply in_or_app; now left.
      * intros e' He'. apply in_app_or in He'. destruct He' as [He' | [<- | []]].
        -- now apply Hmin.
        -- lra.
Qed.

Lemma nearest_of_fold x y l : forall seen st,
  (forall e, In e l -> edge_length2 e <> 0) -> nearest_of x y seen st ->
  nearest_of x y (seen ++ l) (fold_left (nearest_step x y) l st).
Proof.
  induction l as [| e l IH]; intros seen st Hl Hst.
  - now rewrite app_nil_r.
  - cbn [fold_left].
    replace (seen ++ e :: l) with ((seen ++ [e]) ++ l) by (now rewrite <- app_assoc).
    apply IH.
    + intros e' He'. apply Hl. now right.
    + apply nearest_of_step; [apply Hl; now left | assumption].
Qed.

Lemma nearest_of_boundary x y :
  nearest_of x y (with_next BOUNDARY_POINTS) (findNearestBoundaryPoint x y).
Proof.
  unfold findNearestBoundaryPoint.
  apply (nearest_of_fold x y (with_next BOUNDARY_POINTS) [] (mkNearest x y Infinity)).
  - apply edge_nondegenerate.
  - reflexivity.
Qed.

Lemma nearest_found x y :
  exists e d,
    In e (with_next BOUNDARY_POINTS)
    /\ distance (findNearestBoundaryPoint x y) = Finite d
    /\ nx (findNearestBoundaryPoint x y) = fst (edge_closest x y e)
    /\ ny (findNearestBoundaryPoint x y) = snd (edge_closest x y e)
    /\ d = edge_distance x y e
    /\ forall e', In e' (with_next BOUNDARY_POINTS) -> d <= edge_distance x y e'.
Proof.
  pose proof (nearest_of_boundary x y) as H. unfold nearest_of in H.
  destruct (distance (findNearestBoundaryPoint x y)) as [| d].
  - discriminate H.
  - destruct H as (e & Hin & Hx & Hy & Hd & Hmin).
    exists e, d. repeat split; assumption.
Qed.

Lemma nearest_on_boundary x y :
  on_boundary (nx (findNearestBoundaryPoint x y)) (ny (findNearestBoundaryPoint x y)).
Proof.
  destruct (nearest_found x y) as (e & d & Hin & _ & Hx & Hy & _).
  exists e, (edge_param x y e). repeat split.
  - assumption.
  - apply clamp01_bounds.
  - apply clamp01_bounds.
  - rewrite Hx, Hy, edge_closest_point. now destruct (edge_point _ _).
Qed.

(** [findNearestBoundaryPoint] returns a point of the boundary, its distance
    to the given point, and no point of the boundary is nearer. *)
Theorem findNearestBoundaryPoint_nearest (x y : R) :
  let n := findNearestBoundaryPoint x y in
  exists d,
    distance n = Finite d
    /\ d = hypot2 (x - nx n) (y - ny n)
    /\ on_boundary (nx n) (ny n)
    /\ forall qx qy, on_boundary qx qy -> d <= hypot2 (x - qx) (y - qy).
Proof.
  intros n. unfold n.
  destruct (nearest_found x y) as (e & d & Hin & Hdist & Hx & Hy & Hd & Hmin).
  exists d. repeat split.
  - assumption.
  - rewrite Hx, Hy. exact Hd.
  - apply nearest_on_boundary.
  - intros qx qy (e' & t & Hin' & Ht & Hq).
    apply Rle_trans with (edge_distance x y e'); [now apply Hmin |].
    replace qx with (fst (edge_point e' t)) by now rewrite Hq.
    replace qy with (snd (edge_point e' t)) by now rewrite Hq.
    apply segment_nearest; [now apply edge_nondegenerate | assumption].
Qed.

(** The boundary stays inside its bounding box and away from the centroid. *)
Lemma on_boundary_box qx qy :
  on_boundary qx qy ->
  398 / 10 <= qx <= 797 / 10 /\ 395 / 10 <= qy <= 1273 / 10
  /\ (3673 / 60 - qx <> 0 \/ 5458 / 60 - qy <> 0).
Proof.
  intros (e & t & Hin & Ht & Hq).
  unfold BOUNDARY_POINTS, with_next in Hin; cbn [app combine In] in Hin.
  repeat (destruct Hin as [<- | Hin];
          [unfold edge_point in Hq; cbn [fst snd p2x p2y] in Hq;
           injection Hq as <- <-;
           repeat split; try lra; first [left; lra | right; lra] |]).
  destruct Hin.
Qed.

Lemma hypot2_pos a b : a <> 0 \/ b <> 0 -> 0 < hypot2 a b.
Proof.
  intros [H | H].
  - replace (hypot2 a b) with (hypot2 b a) by (unfold hypot2; f_equal; ring).
    now apply hypot2_pos_r.
  - now apply hypot2_pos_r.
Qed.

Lemma hypot2_scaled a b m :
  0 < hypot2 a b -> 0 <= m ->
  hypot2 (a / hypot2 a b * m) (b / hypot2 a b * m) = m.
Proof.
  intros HL Hm. pose proof (hypot2_sqr a b) as Hs.
  set (L := hypot2 a b) in *.
  unfold hypot2 at 1.
  replace (_ + _) with (m * m * ((a * a + b * b) / (L * L))) by (field; lra).
  rewrite <- Hs. replace (L * L / (L * L)) with 1 by (field; lra).
  rewrite Rmult_1_r. now apply sqrt_square.
Qed.

(** The shape of the result for a point that fails the inside test. *)
Lemma clamp_outside_form x y :
  isPointInsideBoundary x y = false ->
  let n := findNearestBoundaryPoint x y in
  let gx := 3673 / 60 - nx n in
  let gy := 5458 / 60 - ny n in
  0 < hypot2 gx gy
  /\ clampToBoundary x y
     = mkClamped (nx n + gx / hypot2 gx gy * BOUNDARY_MARGIN)
                 (ny n + gy / hypot2 gx gy * BOUNDARY_MARGIN)
                 true (Some (distance n)).
Proof.
  intros H n gx gy.
  assert (HL : 0 < hypot2 gx gy).
  { apply hypot2_pos. apply (on_boundary_box (nx n) (ny n)), nearest_on_boundary. }
  split; [assumption |].
  unfold clampToBoundary. rewrite H, centroid_value. cbn [p2x p2y].
  fold n. fold gx gy.
  now rewrite (proj2 (ltb_true _ _) HL).
Qed.

(** A point that fails the inside test is moved to exactly
    [BOUNDARY_MARGIN] from the boundary point nearest to it, and the result
    records the distance it was at. *)
Theorem clampToBoundary_outside (x y : R) :
  isPointInsideBoundary x y = false ->
  let c := clampToBoundary x y in
  let n := findNearestBoundaryPoint x y in
  wasClamped c = true
  /\ originalDistance c = Some (distance n)
  /\ hypot2 (cx c - nx n) (cy c - ny n) = BOUNDARY_MARGIN.
Proof.
  intros H c n. unfold c.
  destruct (clamp_outside_form x y H) as [HL ->]. fold n.
  cbn [wasClamped originalDistance cx cy].
  repeat split.
  match goal with
  | |- hypot2 (?p + ?a - ?p) (?q + ?b - ?q) = _ =>
      replace (p + a - p) with a by ring; replace (q + b - q) with b by ring
  end.
  apply hypot2_scaled; [assumption | unfold BOUNDARY_MARGIN; lra].
Qed.

Lemma clampToBoundary_outside_witness :
  isPointInsideBoundary 60 115 = false
  /\ wasClamped (clampToBoundary 60 115) = true
  /\ hypot2 (cx (clampToBoundary 60 115) - nx (findNearestBoundaryPoint 60 115))
            (cy (clampToBoundary 60 115) - ny (findNearestBoundaryPoint 60 115))
     = BOUNDARY_MARGIN.
Proof.
  assert (H : isPointInsideBoundary 60 115 = false).
  { apply not_inside_notch. unfold in_notch. lra. }
  split; [exact H |].
  destruct (clampToBoundary_outside 60 115 H) as (Hw & _ & Hd).
  split; [exact Hw | exact Hd].
Defined.

Lemma isPointInsideBoundary_as_polygon x y :
  isPointInsideBoundary x y
  = Dataset.isPointInPolygon (x, y) (map (fun p => (p2x p, p2y p)) BOUNDARY_POINTS).
Proof. reflexivity. Qed.

Lemma inside_box x y :
  isPointInsideBoundary x y = true ->
  398 / 10 <= x < 797 / 10 /\ 395 / 10 <= y < 1273 / 10.
Proof.
  rewrite isPointInsideBoundary_as_polygon. intros H.
  assert (Hv : forall p, In p (map (fun p => (p2x p, p2y p)) BOUNDARY_POINTS) ->
                         398 / 10 <= fst p <= 797 / 10 /\ 395 / 10 <= snd p <= 1273 / 10).
  { unfold BOUNDARY_POINTS; cbn [map In].
    intros p Hp. repeat (destruct Hp as [<- | Hp]; [cbn; lra |]). destruct Hp. }
  repeat split.
  - destruct (Rle_lt_dec (398 / 10) x) as [| Hlt]; [assumption | exfalso].
    rewrite DatasetProofs.ray_left in H; [discriminate |].
    intros p Hp. apply Hv in Hp. lra.
  - destruct (Rlt_le_dec x (797 / 10)) as [| Hge]; [assumption | exfalso].
    rewrite DatasetProofs.ray_right in H; [discriminate |].
    intros p Hp. apply Hv in Hp. lra.
  - destruct (Rle_lt_dec (395 / 10) y) as [| Hlt]; [assumption | exfalso].
    rewrite DatasetProofs.ray_below in H; [discriminate |].
    intros p Hp. apply Hv in Hp. lra.
  - destruct (Rlt_le_dec y (1273 / 10)) as [| Hge]; [assumption | exfalso].
    rewrite DatasetProofs.ray_above in H; [discriminate |].
    intros p Hp. apply Hv in Hp. lra.
Qed.

(** Whatever the panorama offsets and the anchor, the constrained transform
    returns a position at height 5 within half a unit of the boundary's
    bounding box. *)
Theorem transformPanoToForgeWithBoundary_in_box
    (pano_x pano_y pano_z : R) (realWorldPos : Point3) :
  let r := transformPanoToForgeWithBoundary pano_x pano_y pano_z realWorldPos in
  393 / 10 <= rx r <= 802 / 10 /\ 390 / 10 <= ry r <= 1278 / 10 /\ rz r = 5.
Proof.
  intros r. unfold r, transformPanoToForgeWithBoundary. cbn [rx ry rz].
  match goal with |- context [clampToBoundary ?a ?b] => set (x := a); set (y := b) end.
  destruct (isPointInsideBoundary x y) eqn:Hin.
  - rewrite (clamp_inside_unchanged x y Hin). cbn [cx cy].
    pose proof (inside_box x y Hin). lra.
  - destruct (clamp_outside_form x y Hin) as [HL ->]. cbn [cx cy].
    set (n := findNearestBoundaryPoint x y) in *.
    pose proof (on_boundary_box (nx n) (ny n) (nearest_on_boundary x y)) as (Hx & Hy & _).
    fold n in Hx, Hy.
    destruct (unit_component _ _ HL) as [Hux Huy].
    unfold BOUNDARY_MARGIN. lra.
Qed.

End BoundaryFacts.

(** ** Further properties of the calibration solvers *)

Module CalibrationFacts.
Import Num NumFacts Mat3 Mat3Facts FoldFacts Calibrate CalibrateProofs Dataset.

Lemma returned_lengths svd panoRefs revitRefs cal :
  calculateCalibration svd panoRefs revitRefs = Returned cal ->
  (length panoRefs <= length revitRefs)%nat.
Proof.
  intros H.
  destruct (le_lt_dec (length panoRefs) (length revitRefs)) as [| Hlt]; [assumption |].
  exfalso. unfold calculateCalibration in H.
  replace (Nat.ltb (length revitRefs) (length panoRefs)) with true in H
    by (symmetry; now apply Nat.ltb_lt).
  discriminate H.
Qed.

Lemma returned_fields svd panoRefs revitRefs cal :
  calculateCalibration svd panoRefs revitRefs = Returned cal ->
  rotation cal = corrected_rotation (svd (covariance_of panoRefs revitRefs))
  /\ rotationMatrix cal = mtranspose (rotation cal)
  /\ translation cal
     = vsub (centroid revitRefs (length panoRefs))
            (vscale (scale cal)
                    (mvec (rotation cal)
                          (centroid (map flipX panoRefs) (length panoRefs)))).
Proof.
  intros H.
  destruct (calculateCalibration_fields svd panoRefs revitRefs
              (returned_lengths _ _ _ _ H)) as (c & Hc & _ & Hr & Hm & Ht).
  rewrite H in Hc. injection Hc as <-. now repeat split.
Qed.

Lemma combine_map_l {A B C : Type} (f : A -> C) (l : list A) : forall l' : list B,
  combine (map f l) l' = map (fun pr => (f (fst pr), snd pr)) (combine l l').
Proof.
  induction l as [| a l IH]; intros [| b l']; try reflexivity.
  cbn. now rewrite IH.
Qed.

(** The error statistics of the returned calibration are those of
    [panoToForge] at the reference pairs. *)
Lemma returned_errors svd panoRefs revitRefs cal :
  calculateCalibration svd panoRefs revitRefs = Returned cal ->
  let errors := map (fun pr => point_error (snd pr) (panoToForge (fst pr) cal))
                    (combine panoRefs revitRefs) in
  maxError cal = max_of errors
  /\ meanError cal = fold_left Rplus errors 0 / INR (length panoRefs).
Proof.
  intros H errors. pose proof (returned_lengths _ _ _ _ H) as Hle.
  unfold calculateCalibration in H.
  replace (Nat.ltb (length revitRefs) (length panoRefs)) with false in H
    by (symmetry; now apply Nat.ltb_ge).
  unfold errors.
  match type of H with
  | context [ltb ?d 0] => destruct (ltb d 0)
  end; injection H as <-; cbn [maxError meanError];
    rewrite combine_map_l, map_map; split; reflexivity.
Qed.

Lemma flipX_vadd a b : flipX (vadd a b) = vadd (flipX a) (flipX b).
Proof. by_components. Qed.

Lemma fold_flipX l : forall a,
  fold_left vadd (map flipX l) (flipX a) = flipX (fold_left vadd l a).
Proof.
  induction l as [| q l IH]; intros a; [reflexivity |].
  cbn [map fold_left]. rewrite <- flipX_vadd. apply IH.
Qed.

Lemma centroid_flipX l n : centroid (map flipX l) n = flipX (centroid l n).
Proof.
  unfold centroid.
  replace (0, 0, 0) with (flipX (0, 0, 0)) at 1 by (cbn; tuple_eq; ring).
  rewrite fold_flipX.
  destruct (fold_left vadd l (0, 0, 0)) as [[a b] c]. cbn. tuple_eq; unfold Rdiv; ring.
Qed.

Lemma panoRMS_turn : panoRefs_turn <> [] /\ panoRMS_of panoRefs_turn <> 0.
Proof.
  split; [discriminate |].
  unfold panoRMS_of. change (length panoRefs_turn) with 3%nat.
  rewrite (proj1 rms_turn). intros E.
  apply sqrt_eq_0 in E; lra.
Qed.

(** For references that are not empty and whose panorama points are not all
    one point ([panoRMS] is not zero), [panoToForge] with the calibration
    that [calculateCalibration] returns maps the centroid of the panorama
    references to the centroid of the model references. *)
Theorem panoToForge_centroid
    (svd : mat3 -> SVD) (panoRefs revitRefs : list vec3) (cal : Calibration) :
  panoRefs <> [] -> panoRMS_of panoRefs <> 0 ->
  calculateCalibration svd panoRefs revitRefs = Returned cal ->
  panoToForge (centroid panoRefs (length panoRefs)) cal
  = centroid revitRefs (length panoRefs).
Proof.
  intros _ _ H. destruct (returned_fields _ _ _ _ H) as (_ & _ & Ht).
  unfold panoToForge. rewrite Ht, centroid_flipX.
  generalize (mvec (rotation cal) (flipX (centroid panoRefs (length panoRefs)))).
  generalize (centroid revitRefs (length panoRefs)). generalize (scale cal).
  by_components.
Qed.

Lemma panoToForge_centroid_witness :
  exists cal,
    (panoRefs_turn <> [] /\ panoRMS_of panoRefs_turn <> 0)
    /\ calculateCalibration svd_turn panoRefs_turn revitRefs_turn = Returned cal
    /\ panoToForge (centroid panoRefs_turn (length panoRefs_turn)) cal
       = centroid revitRefs_turn (length panoRefs_turn).
Proof.
  destruct (calculateCalibration_fields svd_turn panoRefs_turn revitRefs_turn)
    as (cal & Hcal & _); [cbn; lia |].
  exists cal. split; [exact panoRMS_turn |]. split; [exact Hcal |].
  exact (panoToForge_centroid svd_turn panoRefs_turn revitRefs_turn cal
           (proj1 panoRMS_turn) (proj2 panoRMS_turn) Hcal).
Defined.

Lemma lengthSq_mvec m v : lengthSq (mvec m v) = dot v (mvec (mmul (mtranspose m) m) v).
Proof. by_components. Qed.

Lemma orthogonal_lengthSq m v : orthogonal m -> lengthSq (mvec m v) = lengthSq v.
Proof.
  intros [Hm _]. rewrite lengthSq_mvec, Hm, mvec_I3.
  destruct v as [[a b] c]. reflexivity.
Qed.

Lemma panoToForge_difference p q cal :
  vsub (panoToForge p cal) (panoToForge q cal)
  = vscale (scale cal) (mvec (rotation cal) (flipX (vsub p q))).
Proof.
  unfold panoToForge.
  generalize (scale cal) (rotation cal) (translation cal). by_components.
Qed.

Lemma lengthSq_vscale k v : lengthSq (vscale k v) = k * k * lengthSq v.
Proof. by_components. Qed.

Lemma lengthSq_flipX v : lengthSq (flipX v) = lengthSq v.
Proof. by_components. Qed.

(** For references that are not empty and whose [panoRMS] is not zero, and
    with a decomposition that meets its contract, [panoToForge] is a
    similarity: it multiplies every distance by [scale]. *)
Theorem panoToForge_similarity
    (svd : mat3 -> SVD) (panoRefs revitRefs : list vec3) (cal : Calibration)
    (p q : vec3) :
  panoRefs <> [] -> panoRMS_of panoRefs <> 0 ->
  is_svd (covariance_of panoRefs revitRefs) (svd (covariance_of panoRefs revitRefs)) ->
  calculateCalibration svd panoRefs revitRefs = Returned cal ->
  lengthSq (vsub (panoToForge p cal) (panoToForge q cal))
  = scale cal * scale cal * lengthSq (vsub p q).
Proof.
  intros _ _ (_ & HU & HV & _) H.
  destruct (returned_fields _ _ _ _ H) as (Hr & _ & _).
  rewrite panoToForge_difference, lengthSq_vscale.
  rewrite orthogonal_lengthSq, lengthSq_flipX; [reflexivity |].
  rewrite Hr. now apply corrected_rotation_proper.
Qed.

Lemma panoToForge_similarity_witness :
  exists cal,
    (panoRefs_turn <> [] /\ panoRMS_of panoRefs_turn <> 0)
    /\ is_svd (covariance_of panoRefs_turn revitRefs_turn)
           (svd_turn (covariance_of panoRefs_turn revitRefs_turn))
    /\ calculateCalibration svd_turn panoRefs_turn revitRefs_turn = Returned cal
    /\ lengthSq (vsub (panoToForge (1, 2, 3) cal) (panoToForge (0, 0, 0) cal))
       = scale cal * scale cal * lengthSq (vsub (1, 2, 3) (0, 0, 0)).
Proof.
  destruct (calculateCalibration_fields svd_turn panoRefs_turn revitRefs_turn)
    as (cal & Hcal & _); [cbn; lia |].
  exists cal. split; [exact panoRMS_turn |].
  split; [exact svd_turn_valid |]. split; [exact Hcal |].
  exact (panoToForge_similarity svd_turn panoRefs_turn revitRefs_turn cal
           (1, 2, 3) (0, 0, 0) (proj1 panoRMS_turn) (proj2 panoRMS_turn)
           svd_turn_valid Hcal).
Defined.

Lemma fold_Rmax_ge l : forall e, e <= fold_left Rmax l e.
Proof.
  induction l as [| a l IH]; intros e; [cbn; lra |].
  cbn [fold_left]. apply Rle_trans with (Rmax e a); [apply Rmax_l | apply IH].
Qed.

Lemma fold_Rmax_in l : forall e a, In a l -> a <= fold_left Rmax l e.
Proof.
  induction l as [| b l IH]; intros e a []; cbn [fold_left].
  - subst b. apply Rle_trans with (Rmax e a); [apply Rmax_r | apply fold_Rmax_ge].
  - now apply IH.
Qed.

Lemma max_of_in l a : In a l -> exists m, max_of l = Some m /\ a <= m.
Proof.
  destruct l as [| e l]; [easy |]. intros [<- | H].
  - eexists; split; [reflexivity | apply fold_Rmax_ge].
  - eexists; split; [reflexivity | now apply fold_Rmax_in].
Qed.

Lemma fold_Rplus_bounds l m :
  (forall a, In a l -> 0 <= a <= m) ->
  0 <= fold_right Rplus 0 l <= INR (length l) * m.
Proof.
  induction l as [| a l IH]; intros H.
  - cbn. lra.
  - change (length (a :: l)) with (Datatypes.S (length l)). rewrite S_INR.
    cbn [fold_right].
    pose proof (H a (or_introl eq_refl)).
    assert (0 <= fold_right Rplus 0 l <= INR (length l) * m)
      by (apply IH; intros b Hb; apply H; now right).
    lra.
Qed.

Lemma fold_left_Rplus l : forall a, fold_left Rplus l a = a + fold_right Rplus 0 l.
Proof.
  induction l as [| b l IH]; intros a; cbn [fold_left fold_right]; [lra |].
  rewrite IH. lra.
Qed.

Lemma point_error_nonneg a b : 0 <= point_error a b.
Proof. destruct a as [[? ?] ?], b as [[? ?] ?]. apply sqrt_pos. Qed.

(** For references that are not empty and whose [panoRMS] is not zero, the
    mean error of the returned calibration is between zero and its maximum
    error. *)
Theorem calculateCalibration_mean_below_max
    (svd : mat3 -> SVD) (panoRefs revitRefs : list vec3) (cal : Calibration) :
  panoRefs <> [] -> panoRMS_of panoRefs <> 0 ->
  calculateCalibration svd panoRefs revitRefs = Returned cal ->
  exists m, maxError cal = Some m /\ 0 <= meanError cal <= m.
Proof.
  intros Hne _ H. pose proof (returned_lengths _ _ _ _ H) as Hle.
  destruct (returned_errors _ _ _ _ H) as [Hmax Hmean].
  set (errors := map (fun pr => point_error (snd pr) (panoToForge (fst pr) cal))
                     (combine panoRefs revitRefs)) in *.
  assert (Hlen : length errors = length panoRefs).
  { unfold errors. rewrite length_map, length_combine. lia. }
  assert (Hpos : (0 < length panoRefs)%nat)
    by (destruct panoRefs; [easy | cbn; lia]).
  destruct errors as [| e0 rest] eqn:Ee; [cbn in Hlen; lia |].
  rewrite Hmax. cbn [max_of]. eexists; split; [reflexivity |].
  set (m := fold_left Rmax rest e0).
  assert (Hall : forall a, In a (e0 :: rest) -> 0 <= a <= m).
  { intros a Ha. split.
    - rewrite <- Ee in Ha. unfold errors in Ha. apply in_map_iff in Ha.
      destruct Ha as (pr & <- & _). apply point_error_nonneg.
    - destruct (max_of_in (e0 :: rest) a Ha) as (m' & Hm' & Hle').
      cbn in Hm'. injection Hm' as <-. exact Hle'. }
  pose proof (fold_Rplus_bounds _ _ Hall) as Hsum.
  rewrite Hmean.
  rewrite fold_left_Rplus, Rplus_0_l.
  rewrite Hlen in Hsum.
  assert (HN : 0 < INR (length panoRefs)) by (apply lt_0_INR; exact Hpos).
  split.
  - apply Rmult_le_pos; [lra | apply Rlt_le, Rinv_0_lt_compat, HN].
  - apply Rmult_le_reg_r with (INR (length panoRefs)); [exact HN |].
    unfold Rdiv. rewrite Rmult_assoc, Rinv_l by lra. lra.
Qed.

Lemma calculateCalibration_mean_below_max_witness :
  exists cal,
    (panoRefs_turn <> [] /\ panoRMS_of panoRefs_turn <> 0)
    /\ calculateCalibration svd_turn panoRefs_turn revitRefs_turn = Returned cal
    /\ exists m, maxError cal = Some m /\ 0 <= meanError cal <= m.
Proof.
  destruct (calculateCalibration_fields svd_turn panoRefs_turn revitRefs_turn)
    as (cal & Hcal & _); [cbn; lia |].
  exists cal. split; [exact panoRMS_turn |]. split; [exact Hcal |].
  exact (calculateCalibration_mean_below_max svd_turn panoRefs_turn revitRefs_turn cal
           (proj1 panoRMS_turn) (proj2 panoRMS_turn) Hcal).
Defined.

(** Run on its own reference points, whose [panoRMS] is not zero,
    [calibrateDataset] places every one of them within the reported maximum
    error of its model reference. *)
Theorem calibrateDataset_residual
    (svd : mat3 -> SVD) (panoRefs revitRefs : list vec3)
    (modelBoundary : option (list (R * R))) (r : DatasetResult)
    (i : nat) (p t : vec3) :
  panoRMS_of panoRefs <> 0 ->
  calibrateDataset svd panoRefs revitRefs modelBoundary panoRefs = Returned r ->
  nth_error (forgePoints r) i = Some p -> nth_error revitRefs i = Some t ->
  exists m, maxError (calibration r) = Some m /\ point_error t p <= m.
Proof.
  unfold calibrateDataset.
  destruct (calculateCalibration svd panoRefs revitRefs) as [cal | msg] eqn:Hcal;
    [| discriminate].
  intros _ Hr Hp Ht. injection Hr as <-. cbn [forgePoints calibration] in *.
  destruct (returned_errors _ _ _ _ Hcal) as [Hmax _].
  rewrite Hmax. apply max_of_in.
  apply in_map_iff.
  rewrite nth_error_map in Hp.
  destruct (nth_error panoRefs i) as [p0 |] eqn:Hp0; [| discriminate].
  injection Hp as <-.
  exists (p0, t). split; [reflexivity |].
  apply nth_error_In with i.
  clear - Hp0 Ht. revert i revitRefs Hp0 Ht.
  induction panoRefs as [| a l IH]; intros [| i] [| b l'] Hp0 Ht; try discriminate.
  - cbn in *. congruence.
  - cbn in *. now apply IH.
Qed.

Lemma calibrateDataset_residual_witness :
  exists r p,
    panoRMS_of panoRefs_turn <> 0
    /\ calibrateDataset svd_turn panoRefs_turn revitRefs_turn None panoRefs_turn = Returned r
    /\ nth_error (forgePoints r) 0 = Some p
    /\ nth_error revitRefs_turn 0 = Some (0, 2, 0)
    /\ exists m, maxError (calibration r) = Some m /\ point_error (0, 2, 0) p <= m.
Proof.
  destruct (calculateCalibration_fields svd_turn panoRefs_turn revitRefs_turn)
    as (cal & Hcal & _); [cbn; lia |].
  assert (Hr : calibrateDataset svd_turn panoRefs_turn revitRefs_turn None panoRefs_turn
               = Returned {| calibration := cal;
                             forgePoints := map (fun panoPt => panoToForge panoPt cal)
                                                panoRefs_turn;
                             warned := filter (fun forgePt =>
                                                 let '(f0, f1, _) := forgePt in
                                                 negb (isPointInPolygon (f0, f1) Boundary))
                                              (map (fun panoPt => panoToForge panoPt cal)
                                                   panoRefs_turn) |}).
  { unfold calibrateDataset. now rewrite Hcal. }
  eexists. exists (panoToForge (-2, 0, 0) cal).
  split; [exact (proj2 panoRMS_turn) |].
  split; [exact Hr |]. split; [reflexivity |]. split; [reflexivity |].
  exact (calibrateDataset_residual svd_turn panoRefs_turn revitRefs_turn None _
           0 (panoToForge (-2, 0, 0) cal) (0, 2, 0) (proj2 panoRMS_turn)
           Hr eq_refl eq_refl).
Defined.

Lemma forgeToPano_inverts_iff_witness :
  let c := mkCalibration 1 I3 I3 (0, 0, 0) None 0 in
  rotationMatrix c = mtranspose (rotation c) /\ scale c <> 0
  /\ ((forall p, forgeToPano (panoToForge p c) c = p)
      <-> mmul (rotation c) (rotation c) = I3).
Proof.
  intros c.
  assert (H1 : rotationMatrix c = mtranspose (rotation c)) by reflexivity.
  assert (H2 : scale c <> 0) by (cbn; lra).
  split; [exact H1 |]. split; [exact H2 |].
  exact (forgeToPano_inverts_iff c H1 H2).
Defined.

End CalibrationFacts.

(** ** Further properties of [computeTransform] *)

Module TransformFacts.
Import Num NumFacts Mat3 Mat3Facts FoldFacts ForgeHelpers ThreeMath.

(** The size check comes first: with unequal lists or fewer than three pairs
    the call throws the size error whether or not numeric.js is loaded; with
    enough pairs it throws only when the library is missing. *)
Theorem computeTransform_outcomes
    (numeric : option (mat3 -> SVD)) (revitPoints panoPoints : list Point3) :
  (length revitPoints <> length panoPoints \/ (length revitPoints < 3)%nat ->
   computeTransform numeric revitPoints panoPoints
   = Thrown "Need at least 3 matching points")
  /\ (length revitPoints = length panoPoints -> (3 <= length revitPoints)%nat ->
      match numeric with
      | None => computeTransform numeric revitPoints panoPoints
                = Thrown "numeric.js not loaded"
      | Some _ => exists T, computeTransform numeric revitPoints panoPoints = Returned T
      end).
Proof.
  split.
  - intros H. unfold computeTransform.
    destruct H as [H | H].
    + replace (Nat.eqb (length revitPoints) (length panoPoints)) with false
        by (symmetry; now apply Nat.eqb_neq).
      reflexivity.
    + replace (Nat.ltb (length revitPoints) 3) with true
        by (symmetry; now apply Nat.ltb_lt).
      now rewrite orb_true_r.
  - intros Hlen Hn. unfold computeTransform.
    rewrite Hlen, Nat.eqb_refl. rewrite <- Hlen.
    replace (Nat.ltb (length revitPoints) 3) with false
      by (symmetry; now apply Nat.ltb_ge).
    cbn [negb orb].
    destruct numeric as [svd |]; [| reflexivity].
    match goal with
    | |- context [mmul (mmul ?a ?b) ?c] =>
        destruct (mmul (mmul a b) c)
          as [[[[r00 r01] r02] [[r10 r11] r12]] [[r20 r21] r22]]
    end.
    match goal with
    | |- context [vsub ?a (mvec ?m ?v)] => destruct (vsub a (mvec m v)) as [[tx ty] tz]
    end.
    eexists; reflexivity.
Qed.

Lemma computeTransform_outcomes_witness :
  (length revit_stretch = length pano_stretch /\ (3 <= length revit_stretch)%nat)
  /\ exists T, computeTransform (Some svd_zero) revit_stretch pano_stretch = Returned T.
Proof.
  split; [split; [reflexivity | cbn; lia] |].
  apply (proj2 (computeTransform_outcomes (Some svd_zero) revit_stretch pano_stretch));
    [reflexivity | cbn; lia].
Defined.

(** The returned 4x4 matrix [M] is the similarity made of the returned
    scale, rotation and translation, the rotation being the field [R] read
    column by column; it maps the panorama centroid to the model centroid. *)
Theorem computeTransform_M
    (numeric : option (mat3 -> SVD)) (revitPoints panoPoints : list Point3)
    (T : Transform) :
  computeTransform numeric revitPoints panoPoints = Returned T ->
  (forall v, applyMatrix4 (M T) v
             = vadd (vscale (scale T) (mvec (mtranspose (rows_of (R_ T))) v)) (t T))
  /\ applyMatrix4 (M T) (centroidB T) = centroidA T.
Proof.
  unfold computeTransform.
  destruct (negb _ || _); [discriminate |].
  destruct numeric as [svd |]; [| discriminate].
  set (cA := centroid_of revitPoints (length revitPoints)).
  set (cB := centroid_of panoPoints (length revitPoints)).
  set (d := svd (covariance_loop cA cB revitPoints panoPoints)).
  set (s := _ / (_ + 1 / 10 ^ 12)).
  set (Rm := mmul (mmul (U d) _) (mtranspose (V d))).
  clearbody s Rm cA cB.
  destruct Rm as [[[[r00 r01] r02] [[r10 r11] r12]] [[r20 r21] r22]].
  destruct (vsub cA _) as [[tx ty] tz] eqn:Et.
  intros H. injection H as <-. cbn [M R_ scale t centroidA centroidB].
  split.
  - intros [[x y] z]. cbn. tuple_eq; field.
  - destruct cA as [[a0 a1] a2], cB as [[b0 b1] b2].
    cbn in Et. injection Et as <- <- <-.
    cbn. tuple_eq; field.
Qed.

Lemma computeTransform_M_witness :
  exists T,
    computeTransform (Some svd_zero) revit_stretch pano_stretch = Returned T
    /\ applyMatrix4 (M T) (centroidB T) = centroidA T.
Proof.
  destruct (proj2 (computeTransform_outcomes (Some svd_zero) revit_stretch pano_stretch))
    as [T HT]; [reflexivity | cbn; lia |].
  exists T. split; [exact HT |].
  exact (proj2 (computeTransform_M (Some svd_zero) revit_stretch pano_stretch T HT)).
Defined.

End TransformFacts.

(** ** Properties of the unit helpers of [ForgeViewer.jsx] *)

Module ForgeViewerProofs.
Import ForgeViewer.

(** With a non-zero unit scale the two helpers are inverse to each other. *)
Theorem viewer_world_round_trip (viewer : Viewer) (worldX worldY worldZ : R)
    (localVec : Point3) :
  getUnitScale viewer <> 0 ->
  (exists l, worldToViewerLocal true worldX worldY worldZ viewer = Some l
             /\ viewerLocalToWorld true l viewer = Some (worldX, worldY, worldZ))
  /\ (exists wx wy wz,
        viewerLocalToWorld true localVec viewer = Some (wx, wy, wz)
        /\ worldToViewerLocal true wx wy wz viewer = Some localVec).
Proof.
  intros Hu. split.
  - eexists; split; [reflexivity |].
    unfold viewerLocalToWorld; cbn.
    do 2 f_equal; [f_equal |]; field; exact Hu.
  - do 3 eexists; split; [reflexivity |].
    unfold worldToViewerLocal; cbn.
    destruct localVec as [lx ly lz]; cbn.
    do 2 f_equal; field; exact Hu.
Qed.

Lemma viewer_world_round_trip_witness :
  let viewer := mkViewer (Some (3048 / 10000)) (Some (mkPoint3 10 20 30)) in
  getUnitScale viewer <> 0
  /\ exists l, worldToViewerLocal true 1 2 3 viewer = Some l
               /\ viewerLocalToWorld true l viewer = Some (1, 2, 3).
Proof.
  intros viewer.
  assert (H : getUnitScale viewer <> 0) by (cbn; lra).
  split; [exact H |].
  exact (proj1 (viewer_world_round_trip viewer 1 2 3 (mkPoint3 0 0 0) H)).
Defined.

End ForgeViewerProofs.

(** ** Properties of the camera path of [PathCameraExplorer.jsx] *)

Module PathExplorerProofs.
Import Num NumFacts PanoHelpers PanoHelpersProofs PathExplorer.

Lemma length_mapi {A B : Type} (f : nat -> A -> B) (l : list A) :
  length (mapi f l) = length l.
Proof.
  unfold mapi. rewrite length_map, length_combine, length_seq. lia.
Qed.

Lemma nth_error_combine_seq {A : Type} (l : list A) : forall b i,
  nth_error (combine (seq b (length l)) l) i
  = option_map (fun a => ((b + i)%nat, a)) (nth_error l i).
Proof.
  induction l as [| c l IH]; intros b [| i]; cbn; try reflexivity.
  - now rewrite Nat.add_0_r.
  - rewrite IH. destruct (nth_error l i); cbn; [| reflexivity].
    do 2 f_equal. lia.
Qed.

Lemma nth_error_mapi {A B : Type} (f : nat -> A -> B) (l : list A) (i : nat) :
  nth_error (mapi f l) i = option_map (f i) (nth_error l i).
Proof.
  unfold mapi. rewrite nth_error_map, nth_error_combine_seq.
  now destruct (nth_error l i).
Qed.

Lemma or_null_idempotent v : or_null (or_null v) = or_null v.
Proof. destruct v as [[| c s] |]; reflexivity. Qed.

Lemma rebuiltPath_length rng raw windowSize polyOrder processNoise measurementNoise :
  length (rebuiltPath rng raw windowSize polyOrder processNoise measurementNoise)
  = length raw.
Proof.
  unfold rebuiltPath.
  now rewrite length_mapi, fixOverlappingPoints_length, !length_map, length_mapi,
    KalmanProofs.run_length, savitzkyGolay_length, length_map.
Qed.

(** The rebuilt camera path has one point for every raw sample, and each
    point carries the image of the raw sample with the same index. *)
Theorem rebuiltPath_keeps_samples
    (rng : nat -> R) (raw : list Sample) (windowSize polyOrder : Z)
    (processNoise measurementNoise : R) :
  let path := rebuiltPath rng raw windowSize polyOrder processNoise measurementNoise in
  length path = length raw
  /\ map image_path path = map (fun r => or_null (image_path r)) raw.
Proof.
  intros path. unfold path, rebuiltPath.
  set (sg := savitzkyGolay _ _ _).
  set (kf := Kalman.new _ _).
  set (filtered := mapi _ (Kalman.run kf sg)).
  set (scaled := map _ filtered).
  set (fixedPts := fixOverlappingPoints rng (map position scaled) (5 / 100)).
  assert (Hsg : length sg = length raw)
    by (unfold sg; now rewrite savitzkyGolay_length, length_map).
  assert (Hfil : length filtered = length raw)
    by (unfold filtered; now rewrite length_mapi, KalmanProofs.run_length).
  assert (Hsc : length scaled = length raw)
    by (unfold scaled; now rewrite length_map).
  assert (Hfix : length fixedPts = length raw)
    by (unfold fixedPts; now rewrite fixOverlappingPoints_length, length_map).
  split; [now rewrite length_mapi |].
  apply nth_error_ext. intros i.
  rewrite !nth_error_map, nth_error_mapi.
  destruct (nth_error raw i) as [r |] eqn:Hr.
  - assert (Hi : (i < length raw)%nat) by (apply nth_error_Some; congruence).
    destruct (nth_error fixedPts i) as [pt |] eqn:Hpt;
      [| apply nth_error_None in Hpt; lia].
    cbn [option_map image_path]. f_equal.
    unfold scaled at 1. rewrite nth_error_map.
    unfold filtered at 1. rewrite nth_error_mapi.
    destruct (nth_error (Kalman.run kf sg) i) as [f |] eqn:Hf.
    + cbn [option_map image_path]. rewrite Hr. apply or_null_idempotent.
    + apply nth_error_None in Hf. rewrite KalmanProofs.run_length in Hf. lia.
  - apply nth_error_None in Hr.
    destruct (nth_error fixedPts i) as [pt |] eqn:Hpt; [| reflexivity].
    assert ((i < length fixedPts)%nat) by (apply nth_error_Some; congruence). lia.
Qed.

Lemma scanned_step panoPos seen st p :
  scanned panoPos seen st ->
  scanned panoPos (seen ++ [p]) (scan_step panoPos st (length seen, p)).
Proof.
  destruct st as [idx [m |]]; unfold scanned, scan_step; cbn [fst snd].
  - intros (p0 & Hp0 & Hm & Hmin & Hfirst).
    assert (Hidx : (idx < length seen)%nat) by (apply nth_error_Some; congruence).
    fold (dist2 panoPos p).
    destruct (ltb (dist2 panoPos p) m) eqn:E; cbn [fst snd].
    + apply ltb_true in E. exists p. repeat split.
      * now rewrite nth_error_app2, Nat.sub_diag by lia.
      * intros j q Hq.
        destruct (Nat.lt_ge_cases j (length seen)) as [Hj | Hj].
        -- rewrite nth_error_app1 in Hq by assumption.
           specialize (Hmin j q Hq). lra.
        -- rewrite nth_error_app2 in Hq by assumption.
           destruct (j - length seen)%nat as [| k]; cbn in Hq;
             [injection Hq as <-; lra | now destruct k].
      * intros j q Hq Hj. rewrite nth_error_app1 in Hq by assumption.
        specialize (Hmin j q Hq). lra.
    + apply ltb_false in E. exists p0. repeat split.
      * now rewrite nth_error_app1 by assumption.
      * assumption.
      * intros j q Hq.
        destruct (Nat.lt_ge_cases j (length seen)) as [Hj | Hj].
        -- rewrite nth_error_app1 in Hq by assumption. now apply (Hmin j).
        -- rewrite nth_error_app2 in Hq by assumption.
           destruct (j - length seen)%nat as [| k]; cbn in Hq;
             [injection Hq as <-; lra | now destruct k].
      * intros j q Hq Hj. rewrite nth_error_app1 in Hq by lia.
        now apply (Hfirst j).
  - intros [-> ->]. fold (dist2 panoPos p). cbn [fst snd length app].
    exists p. repeat split.
    + intros [| [| j]] q Hq; cbn in Hq; try discriminate. injection Hq as <-. lra.
    + intros j q _ Hj. lia.
Qed.

Lemma scanned_fold panoPos l : forall seen st,
  scanned panoPos seen st ->
  scanned panoPos (seen ++ l)
          (fold_left (scan_step panoPos) (combine (seq (length seen) (length l)) l) st).
Proof.
  induction l as [| p l IH]; intros seen st H.
  - now rewrite app_nil_r.
  - cbn [length seq combine fold_left].
    replace (seen ++ p :: l) with ((seen ++ [p]) ++ l) by (now rewrite <- app_assoc).
    replace (Datatypes.S (length seen)) with (length (seen ++ [p]))
      by (rewrite length_app; cbn; lia).
    apply IH. now apply scanned_step.
Qed.

Lemma scanned_closest points panoPos :
  scanned panoPos points (closest points panoPos).
Proof.
  unfold closest.
  apply (scanned_fold panoPos points [] (O, None)). cbn. now split.
Qed.

Lemma closest_in_range points panoPos :
  points <> [] -> (fst (closest points panoPos) < length points)%nat.
Proof.
  intros Hne. pose proof (scanned_closest points panoPos) as H.
  unfold scanned in H. destruct (snd (closest points panoPos)).
  - destruct H as (p & Hp & _). apply nth_error_Some. congruence.
  - destruct H as [H _]. contradiction.
Qed.

(** On a non-empty path the scan returns the index of a point at the least
    squared distance from the target, and the first such index. *)
Theorem closest_is_nearest (points : list Sample) (panoPos : Point3) :
  points <> [] ->
  let '(closestIdx, minDist) := closest points panoPos in
  exists p,
    nth_error points closestIdx = Some p
    /\ minDist = Some (dist2 panoPos p)
    /\ (forall j q, nth_error points j = Some q -> dist2 panoPos p <= dist2 panoPos q)
    /\ (forall j q, nth_error points j = Some q -> (j < closestIdx)%nat ->
                    dist2 panoPos p < dist2 panoPos q).
Proof.
  intros Hne. pose proof (scanned_closest points panoPos) as H.
  destruct (closest points panoPos) as [closestIdx [m |]]; unfold scanned in H;
    cbn [fst snd] in H.
  - destruct H as (p & Hp & -> & Hmin & Hfirst).
    exists p. repeat split; assumption.
  - destruct H as [H _]. contradiction.
Qed.

Lemma closest_is_nearest_witness :
  let points := [mkSample (mkPoint3 0 0 0) None; mkSample (mkPoint3 1 0 0) None] in
  points <> []
  /\ let '(closestIdx, minDist) := closest points (mkPoint3 1 0 0) in
     exists p, nth_error points closestIdx = Some p
               /\ minDist = Some (dist2 (mkPoint3 1 0 0) p).
Proof.
  intros points.
  assert (Hne : points <> []) by discriminate.
  split; [exact Hne |].
  pose proof (closest_is_nearest points (mkPoint3 1 0 0) Hne) as H.
  destruct (closest points (mkPoint3 1 0 0)) as [closestIdx minDist].
  destruct H as (p & Hp & Hm & _). exists p. now split.
Defined.

Lemma nav_step_valid s e : index_valid s -> index_valid (nav_step s e).
Proof.
  intros [H0 Hlt]. destruct e as [idx | delta | rng raw w o pn mn | panoPos]; cbn [nav_step].
  - unfold jumpToIndex.
    destruct ((idx <? 0)%Z || (idx >=? pathLength s)%Z) eqn:E; [now split |].
    apply orb_false_elim in E. destruct E as [E1 E2].
    apply Z.ltb_ge in E1. rewrite Z.geb_leb in E2. apply Z.leb_gt in E2.
    split; cbn [pathIndex cameraPath]; [assumption | right; exact E2].
  - unfold move.
    destruct (_ =? pathIndex s)%Z; [now split |].
    split; cbn [pathIndex cameraPath]; [lia |].
    destruct (cameraPath s) as [| p l] eqn:Ep; [now left | right].
    unfold pathLength. cbn [pathIndex cameraPath]. rewrite Ep.
    cbn [length]. lia.
  - unfold rebuildPaths. destruct raw as [| r raw]; [now split |].
    pose proof (rebuiltPath_length rng (r :: raw) w o pn mn) as Hlen.
    split; cbn [pathIndex cameraPath].
    + rewrite Hlen. cbn [length]. lia.
    + right. unfold pathLength. cbn [pathIndex cameraPath]. lia.
  - unfold syncToClosest. destruct (cameraPath s) as [| p l] eqn:Ep;
      [split; [assumption | now left] |].
    split; cbn [pathIndex cameraPath]; [lia |].
    right. unfold pathLength. cbn [pathIndex cameraPath].
    apply inj_lt. apply closest_in_range. discriminate.
Qed.

(** Whatever is done in whatever order (jumping, moving, rebuilding the
    path, syncing to the model camera), the index never leaves the path. *)
Theorem pathIndex_stays_valid (events : list NavEvent) :
  index_valid (fold_left nav_step events initialNav).
Proof.
  assert (H : forall s, index_valid s -> index_valid (fold_left nav_step events s)).
  { induction events as [| e events IH]; intros s Hs; [assumption |].
    cbn [fold_left]. apply IH. now apply nav_step_valid. }
  apply H. unfold index_valid, initialNav; cbn. split; [lia | now left].
Qed.

End PathExplorerProofs.

(** ** Properties of the camera animation of [PanoramicSphereViewer] *)

Module SphereViewerProofs.
Import Num NumFacts SphereViewer.

Lemma cube_le a b : a <= b -> a * a * a <= b * b * b.
Proof.
  intros H.
  assert (E : b * b * b - a * a * a
              = (b - a) * ((a + b / 2) * (a + b / 2) + 3 / 4 * (b * b))) by field.
  pose proof (sq_nonneg (a + b / 2)). pose proof (sq_nonneg b).
  assert (0 <= (b - a) * ((a + b / 2) * (a + b / 2) + 3 / 4 * (b * b)))
    by (apply Rmult_le_pos; lra).
  lra.
Qed.

Lemma ease_low t : t < 5 / 10 -> easeInOutCubic t = 4 * (t * t * t).
Proof.
  intros H. unfold easeInOutCubic. rewrite (proj2 (ltb_true _ _) H). ring.
Qed.

Lemma ease_high t :
  5 / 10 <= t -> easeInOutCubic t = 1 + 4 * ((t - 1) * (t - 1) * (t - 1)).
Proof.
  intros H. unfold easeInOutCubic. rewrite (proj2 (ltb_false _ _) H). ring.
Qed.

Lemma easeInOutCubic_shape_aux :
  (forall s t, s <= t -> easeInOutCubic s <= easeInOutCubic t)
  /\ easeInOutCubic 0 = 0 /\ easeInOutCubic 1 = 1.
Proof.
  repeat split.
  - intros s t Hst.
    destruct (Rlt_le_dec s (5 / 10)) as [Hs | Hs];
      destruct (Rlt_le_dec t (5 / 10)) as [Ht | Ht]; try lra.
    + rewrite !ease_low by assumption. pose proof (cube_le s t Hst). lra.
    + rewrite ease_low, ease_high by assumption.
      pose proof (cube_le s (5 / 10) (Rlt_le _ _ Hs)).
      assert (H1 : (5 / 10 - 1) <= t - 1) by lra.
      pose proof (cube_le _ _ H1). lra.
    + rewrite !ease_high by assumption.
      assert (H1 : s - 1 <= t - 1) by lra.
      pose proof (cube_le _ _ H1). lra.
  - rewrite ease_low by lra. ring.
  - rewrite ease_high by lra. ring.
Qed.

(** The easing curve never goes back, starts at 0, ends at 1 and is
    symmetric about its midpoint. *)
Theorem easeInOutCubic_shape :
  (forall s t, s <= t -> easeInOutCubic s <= easeInOutCubic t)
  /\ easeInOutCubic 0 = 0 /\ easeInOutCubic 1 = 1
  /\ (forall t, easeInOutCubic (1 - t) = 1 - easeInOutCubic t).
Proof.
  destruct easeInOutCubic_shape_aux as (Hmono & H0 & H1).
  repeat split; try assumption.
  - intros t.
    destruct (Rtotal_order t (5 / 10)) as [Ht | [Ht | Ht]].
    + rewrite (ease_low t), (ease_high (1 - t)) by lra. ring.
    + subst t. rewrite !ease_high by lra. field.
    + rewrite (ease_high t), (ease_low (1 - t)) by lra. ring.
Qed.

Lemma lerp_between a b k : 0 <= k <= 1 -> Rmin a b <= a + (b - a) * k <= Rmax a b.
Proof.
  intros Hk. unfold Rmin, Rmax. destruct (Rle_dec a b); split; nra.
Qed.

(** An animation of positive duration never leaves the box spanned by its
    start and end positions; it keeps requesting frames until the duration
    has elapsed, and the frame at or after that moment sets the end position
    exactly. *)
Theorem animationFrame_lands (startPos endPos : Point3) (elapsed duration : R) :
  0 < duration -> 0 <= elapsed ->
  let '(pos, again) := animationFrame startPos endPos elapsed duration in
  (Rmin (px startPos) (px endPos) <= px pos <= Rmax (px startPos) (px endPos)
   /\ Rmin (py startPos) (py endPos) <= py pos <= Rmax (py startPos) (py endPos)
   /\ Rmin (pz startPos) (pz endPos) <= pz pos <= Rmax (pz startPos) (pz endPos))
  /\ (again = true <-> elapsed < duration)
  /\ (duration <= elapsed -> pos = endPos).
Proof.
  intros Hd He. unfold animationFrame.
  set (progress := Rmin (elapsed / duration) 1).
  assert (Hq : 0 <= elapsed / duration)
    by (apply Rmult_le_pos; [assumption | apply Rlt_le, Rinv_0_lt_compat, Hd]).
  assert (Hp : 0 <= progress <= 1)
    by (unfold progress, Rmin; destruct (Rle_dec _ 1); lra).
  destruct easeInOutCubic_shape_aux as (Hmono & H0 & H1).
  assert (Hease : 0 <= easeInOutCubic progress <= 1).
  { split; [rewrite <- H0 | rewrite <- H1]; apply Hmono; lra. }
  split; [| split].
  - unfold lerpVectors; cbn [px py pz]. repeat split; now apply lerp_between.
  - assert (Hlt : elapsed < duration <-> elapsed / duration < 1).
    { split; intros H.
      - apply Rmult_lt_reg_r with duration; [assumption |].
        unfold Rdiv. rewrite Rmult_assoc, Rinv_l by lra. lra.
      - apply Rmult_lt_compat_r with (r := duration) in H; [| assumption].
        unfold Rdiv in H. rewrite Rmult_assoc, Rinv_l in H by lra. lra. }
    split; intros H.
    + apply ltb_true in H. apply Hlt.
      unfold progress, Rmin in H. destruct (Rle_dec _ 1); lra.
    + apply ltb_true. apply Hlt in H.
      unfold progress, Rmin. destruct (Rle_dec _ 1); lra.
  - intros Hge.
    assert (E : progress = 1).
    { assert (1 <= elapsed / duration).
      { apply Rmult_le_reg_r with duration; [assumption |].
        unfold Rdiv. rewrite Rmult_assoc, Rinv_l by lra. lra. }
      unfold progress, Rmin. destruct (Rle_dec _ 1); lra. }
    rewrite E, H1. unfold lerpVectors.
    destruct startPos, endPos; cbn. f_equal; ring.
Qed.

Lemma animationFrame_lands_witness :
  (0 < 500 /\ 0 <= 500)
  /\ let '(pos, again) := animationFrame (mkPoint3 0 0 0) (mkPoint3 1 2 3) 500 500 in
     (500 <= 500 -> pos = mkPoint3 1 2 3).
Proof.
  split; [lra |].
  pose proof (animationFrame_lands (mkPoint3 0 0 0) (mkPoint3 1 2 3) 500 500) as H.
  destruct (animationFrame (mkPoint3 0 0 0) (mkPoint3 1 2 3) 500 500) as [pos again].
  apply H; lra.
Defined.

End SphereViewerProofs.

(** ** Properties of the angle helpers of [src/lib/pano_helpers.js] *)

Module AnglesProofs.
Import Num NumFacts Mat3 Angles.

Lemma trunc_nonneg x : 0 <= x -> IZR (trunc x) <= x < IZR (trunc x) + 1.
Proof.
  intros H. unfold trunc. destruct (Rle_dec 0 x); [| lra].
  pose proof (base_Int_part x). lra.
Qed.

Lemma trunc_neg x : x < 0 -> x <= IZR (trunc x) < x + 1.
Proof.
  intros H. unfold trunc. destruct (Rle_dec 0 x); [lra |].
  rewrite opp_IZR. pose proof (base_Int_part (- x)). lra.
Qed.

Lemma trunc_eq x z : IZR z <= x < IZR z + 1 -> 0 <= x -> trunc x = z.
Proof.
  intros H H0. unfold trunc. destruct (Rle_dec 0 x); [| lra].
  symmetry. apply Int_part_spec. lra.
Qed.

Lemma round_eq x z : IZR z - 1 / 2 <= x < IZR z + 1 / 2 -> round x = z.
Proof.
  intros H. unfold round. symmetry. apply Int_part_spec. lra.
Qed.

Lemma fmod_nonneg a b : 0 < b -> 0 <= a -> 0 <= fmod a b < b.
Proof.
  intros Hb Ha. unfold fmod.
  assert (Hq : 0 <= a / b)
    by (apply Rmult_le_pos; [assumption | apply Rlt_le, Rinv_0_lt_compat, Hb]).
  pose proof (trunc_nonneg (a / b) Hq) as [H1 H2].
  assert (E : a = b * (a / b)) by (field; lra).
  set (q := IZR (trunc (a / b))) in *.
  assert (b * q <= b * (a / b)) by (apply Rmult_le_compat_l; lra).
  assert (b * (a / b) < b * (q + 1)) by (apply Rmult_lt_compat_l; lra).
  lra.
Qed.

Lemma fmod_neg a b : 0 < b -> a < 0 -> - b < fmod a b <= 0.
Proof.
  intros Hb Ha. unfold fmod.
  assert (Hq : a / b < 0).
  { replace (a / b) with (- ((- a) / b)) by (field; lra).
    assert (0 < (- a) / b)
      by (apply Rmult_lt_0_compat; [lra | apply Rinv_0_lt_compat, Hb]).
    lra. }
  pose proof (trunc_neg (a / b) Hq) as [H1 H2].
  assert (E : a = b * (a / b)) by (field; lra).
  set (q := IZR (trunc (a / b))) in *.
  assert (b * (a / b) <= b * q) by (apply Rmult_le_compat_l; lra).
  assert (b * q < b * (a / b + 1)) by (apply Rmult_lt_compat_l; lra).
  lra.
Qed.

Lemma norm360_bounds deg : 0 <= norm360 deg < 360.
Proof.
  unfold norm360. apply fmod_nonneg; [lra |].
  destruct (Rle_lt_dec 0 deg) as [H | H].
  - pose proof (fmod_nonneg deg 360 ltac:(lra) H). lra.
  - pose proof (fmod_neg deg 360 ltac:(lra) H). lra.
Qed.

(** [norm360] returns the angle of [0, 360) that differs from its argument
    by a whole number of turns. *)
Theorem norm360_range (deg : R) :
  0 <= norm360 deg < 360 /\ exists k : Z, norm360 deg = deg + 360 * IZR k.
Proof.
  split; [apply norm360_bounds |].
  unfold norm360, fmod.
  exists (1 - trunc (deg / 360)
          - trunc ((deg - 360 * IZR (trunc (deg / 360)) + 360) / 360))%Z.
  rewrite !minus_IZR. ring.
Qed.

(** [angleToAxis] returns the axis of the quarter its angle falls in; the
    trigonometric fallback is never reached. *)
Theorem angleToAxis_quarter (deg : R) :
  angleToAxis deg = quarter_axis (norm360 deg).
Proof.
  unfold angleToAxis, quarter_axis.
  pose proof (norm360_bounds deg) as Ha.
  set (a := norm360 deg) in *.
  destruct (Rlt_le_dec a 45) as [H1 | H1].
  { rewrite (proj2 (ltb_true a 45) H1).
    rewrite (round_eq (a / 90) 0) by lra.
    replace (fmod (0 * 90) 360) with 0; [now rewrite (proj2 (eqb_true 0 0)) |].
    unfold fmod. rewrite (trunc_eq (0 * 90 / 360) 0) by lra. lra. }
  rewrite (proj2 (ltb_false a 45) H1).
  destruct (Rlt_le_dec a 135) as [H2 | H2].
  { rewrite (proj2 (ltb_true a 135) H2).
    rewrite (round_eq (a / 90) 1) by lra.
    replace (fmod (1 * 90) 360) with 90
      by (unfold fmod; rewrite (trunc_eq (1 * 90 / 360) 0) by lra; lra).
    rewrite (proj2 (eqb_false 90 0)) by lra.
    now rewrite (proj2 (eqb_true 90 90)). }
  rewrite (proj2 (ltb_false a 135) H2).
  destruct (Rlt_le_dec a 225) as [H3 | H3].
  { rewrite (proj2 (ltb_true a 225) H3).
    rewrite (round_eq (a / 90) 2) by lra.
    replace (fmod (2 * 90) 360) with 180
      by (unfold fmod; rewrite (trunc_eq (2 * 90 / 360) 0) by lra; lra).
    rewrite (proj2 (eqb_false 180 0)) by lra.
    rewrite (proj2 (eqb_false 180 90)) by lra.
    now rewrite (proj2 (eqb_true 180 180)). }
  rewrite (proj2 (ltb_false a 225) H3).
  destruct (Rlt_le_dec a 315) as [H4 | H4].
  { rewrite (proj2 (ltb_true a 315) H4).
    rewrite (round_eq (a / 90) 3) by lra.
    replace (fmod (3 * 90) 360) with 270
      by (unfold fmod; rewrite (trunc_eq (3 * 90 / 360) 0) by lra; lra).
    rewrite (proj2 (eqb_false 270 0)) by lra.
    rewrite (proj2 (eqb_false 270 90)) by lra.
    rewrite (proj2 (eqb_false 270 180)) by lra.
    now rewrite (proj2 (eqb_true 270 270)). }
  rewrite (proj2 (ltb_false a 315) H4).
  rewrite (round_eq (a / 90) 4) by lra.
  replace (fmod (4 * 90) 360) with 0; [now rewrite (proj2 (eqb_true 0 0)) |].
  unfold fmod. rewrite (trunc_eq (4 * 90 / 360) 1) by lra. lra.
Qed.

End AnglesProofs.

(** ** Properties of the matrix helpers of [src/lib/pano_helpers.js] *)

Module MatrixProofs.
Import Num NumFacts PanoHelpers.

(** On a 2x2 matrix whose two pivots are not tiny, [invert] returns the
    inverse: the product with the matrix is the identity. *)
Theorem invert_2x2 (a b c d : R) :
  1 / 10 ^ 12 <= Rabs a -> 1 / 10 ^ 12 <= Rabs (d - c * (b / a)) ->
  multiply [[a; b]; [c; d]] (invert [[a; b]; [c; d]]) = Some [[1; 0]; [0; 1]].
Proof.
  intros Ha He.
  assert (Ha0 : a <> 0).
  { intros ->. rewrite Rabs_R0 in Ha. lra. }
  assert (He0 : d - c * (b / a) <> 0).
  { intros E. rewrite E, Rabs_R0 in He. lra. }
  unfold invert, invert_step, mapi, multiply. cbn -[pow].
  rewrite !(proj2 (eqb_false a 0) Ha0).
  rewrite !(proj2 (ltb_false (Rabs a) (1 / 10 ^ 12)) Ha).
  rewrite !(proj2 (eqb_false (d - c * (b / a)) 0) He0).
  rewrite !(proj2 (ltb_false (Rabs (d - c * (b / a))) (1 / 10 ^ 12)) He).
  assert (He1 : d * a - c * b <> 0).
  { intros E. apply He0. field_simplify; [| exact Ha0]. rewrite E. field. exact Ha0. }
  do 2 f_equal; [| f_equal]; f_equal; [| f_equal | | f_equal]; field; split; assumption.
Qed.

Lemma invert_2x2_witness :
  (1 / 10 ^ 12 <= Rabs 2 /\ 1 / 10 ^ 12 <= Rabs (3 - 1 * (1 / 2)))
  /\ multiply [[2; 1]; [1; 3]] (invert [[2; 1]; [1; 3]]) = Some [[1; 0]; [0; 1]].
Proof.
  assert (H1 : 1 / 10 ^ 12 <= Rabs 2) by (rewrite Rabs_right; lra).
  assert (H2 : 1 / 10 ^ 12 <= Rabs (3 - 1 * (1 / 2))) by (rewrite Rabs_right; lra).
  split; [split; assumption |].
  exact (invert_2x2 2 1 1 3 H1 H2).
Defined.

End MatrixProofs.

(** ** Properties of [buildManhattanPath] *)

Module ManhattanProofs.
Import Num NumFacts Angles PathExplorer Manhattan.

Lemma chain_app far l : forall a b l',
  chain far (l ++ [a]) -> far a b -> chain far (b :: l') -> chain far (l ++ a :: b :: l').
Proof.
  induction l as [| c l IH]; intros a b l' H1 H2 H3.
  - cbn. now split.
  - destruct l as [| d l].
    + cbn in *. destruct H1 as [H1 _]. now repeat split.
    + cbn [app] in *. destruct H1 as [H1 H1']. split; [assumption |].
      now apply (IH a b l').
Qed.

Lemma chain_rev far l :
  (forall a b, far a b -> far b a) -> chain far l -> chain far (rev l).
Proof.
  intros Hsym. induction l as [| a l IH]; intros H; [exact Logic.I |].
  destruct l as [| b l]; [exact Logic.I |].
  destruct H as [Hab H].
  specialize (IH H). cbn [rev] in *.
  rewrite <- app_assoc. cbn [app].
  apply chain_app; [assumption | now apply Hsym | exact Logic.I].
Qed.

Lemma ground_distance_sym a b : ground_distance a b = ground_distance b a.
Proof. unfold ground_distance, hypot2. f_equal. ring. Qed.

Lemma hypot2_direction p q c s len :
  c * c + s * s = 1 -> 0 <= len ->
  hypot2 (p + c * len - p) (q + s * len - q) = len.
Proof.
  intros Hcs Hlen. unfold hypot2.
  replace (_ + _) with (len * len * (c * c + s * s)) by ring.
  rewrite Hcs, Rmult_1_r. now apply sqrt_square.
Qed.

Lemma walk_step_ok atan2 points opts constantY seed n w iraw :
  walk_ok constantY seed n w ->
  walk_ok constantY seed (Datatypes.S n) (walk_step atan2 points opts constantY w iraw).
Proof.
  intros (Hhd & Hlast & Hy & Hch & Hlen). destruct iraw as [i raw].
  unfold walk_step.
  set (dx := px (position raw) - px (position (prevRaw w))).
  set (dz := pz (position raw) - pz (position (prevRaw w))).
  set (len := hypot2 dx dz).
  destruct (ltb len (1 / 10 ^ 4)) eqn:E.
  { unfold walk_ok; cbn [out prevOut]. repeat split; try assumption; lia. }
  apply ltb_false in E.
  cbv zeta. destruct (futureTrend points (lookahead opts) (i - 1)) as [tvx tvz].
  cbn [fst snd].
  repeat first
    [ progress cbv beta iota zeta
    | match goal with
      | |- context [if ?c then _ else _] => destruct c
      end ].
  all: match goal with
       | |- walk_ok _ _ _ (mkWalk (?new :: _) _ _ (Some ?cur) _) =>
           pose proof (sin2_cos2 (degToRad cur)) as Hunit; unfold Rsqr in Hunit
       end.
  all: unfold walk_ok; cbn [out prevOut].
  all: destruct Hhd as [tl Htl]; destruct Hlast as [tl' Htl'].
  all: split; [eexists; reflexivity |].
  all: split; [match goal with
               | |- exists _, ?new :: _ = _ => exists (new :: tl')
               end; rewrite Htl'; reflexivity |].
  all: split; [constructor; [reflexivity | assumption] |].
  all: split; [| cbn [length]; lia].
  all: rewrite Htl; rewrite Htl in Hch; split; [| assumption].
  all: rewrite ground_distance_sym; unfold ground_distance; cbn [position px pz].
  all: rewrite hypot2_direction; [exact E | lra | apply sqrt_pos].

Qed.

Lemma walk_fold_ok atan2 points opts constantY seed l : forall n w,
  walk_ok constantY seed n w ->
  walk_ok constantY seed (n + length l)
          (fold_left (walk_step atan2 points opts constantY) l w).
Proof.
  induction l as [| e l IH]; intros n w H.
  - cbn. now rewrite Nat.add_0_r.
  - cbn [fold_left length].
    replace (n + Datatypes.S (length l))%nat with (Datatypes.S n + length l)%nat by lia.
    apply IH. now apply walk_step_ok.
Qed.

(** From two samples on, the axis-aligned path starts at the first sample
    put at the constant height, has at most one point per sample, keeps
    every point at that height and never places two consecutive points
    closer than [1e-4] on the ground. *)
Theorem buildManhattanPath_shape
    (atan2 : R -> R -> R) (points : list Sample) (opts : Options) :
  (2 <= length points)%nat ->
  let path := buildManhattanPath atan2 points opts in
  let constantY := constantHeight points opts in
  (1 <= length path <= length points)%nat
  /\ hd_error path
     = option_map (fun p0 => mkSample (mkPoint3 (px (position p0)) constantY
                                                (pz (position p0)))
                                      (image_path p0))
                  (hd_error points)
  /\ Forall (fun p => py (position p) = constantY) path
  /\ chain (fun a b => 1 / 10 ^ 4 <= ground_distance a b) path.
Proof.
  intros Hn path constantY. unfold path, buildManhattanPath.
  destruct points as [| p0 [| p1 rest]]; cbn [length] in Hn; try lia.
  fold (constantHeight (p0 :: p1 :: rest) opts). fold constantY.
  set (seed := mkSample (mkPoint3 (px (position p0)) constantY (pz (position p0)))
                        (image_path p0)).
  set (l := combine _ _).
  assert (Hl : length l = Datatypes.S (length rest)).
  { unfold l. rewrite length_combine, length_seq. cbn [length]. lia. }
  assert (H0 : walk_ok constantY seed 1 (mkWalk [seed] seed p0 None 0%Z)).
  { unfold walk_ok; cbn [out prevOut length]. repeat split.
    - now exists [].
    - now exists [].
    - now repeat constructor.
    - lia.
    - lia. }
  pose proof (walk_fold_ok atan2 (p0 :: p1 :: rest) opts constantY seed l 1 _ H0)
    as (_ & [tl Hlast] & Hy & Hch & Hlen).
  rewrite Hl in Hlen.
  set (w := fold_left _ l _) in *.
  repeat split.
  - rewrite length_rev. lia.
  - rewrite length_rev. cbn [length]. lia.
  - rewrite Hlast, rev_app_distr. reflexivity.
  - apply Forall_rev. exact Hy.
  - apply chain_rev; [| exact Hch].
    intros a b. now rewrite ground_distance_sym.
Qed.

Lemma buildManhattanPath_shape_witness :
  let points := [mkSample (mkPoint3 0 1 0) None; mkSample (mkPoint3 1 3 0) None] in
  (2 <= length points)%nat
  /\ Forall (fun p => py (position p) = constantHeight points defaultOptions)
            (buildManhattanPath (fun _ _ => 0) points defaultOptions).
Proof.
  intros points.
  assert (H : (2 <= length points)%nat) by (cbn; lia).
  split; [exact H |].
  exact (proj1 (proj2 (proj2 (buildManhattanPath_shape (fun _ _ => 0) points
                                 defaultOptions H)))).
Defined.

End ManhattanProofs.

(** ** Properties of the throttle and debounce helpers of
    [src/store/syncStore.js] *)

Module SyncHelpersProofs.
Import SyncHelpers.

Section Helpers.

Context {Args : Type}.

Lemma last_time_app start (log : list (Z * Args)) t a :
  last_time Args start (log ++ [(t, a)]) = t.
Proof. unfold last_time. now rewrite fold_left_app. Qed.

Lemma spaced_app delay (log : list (Z * Args)) : forall start t a,
  spaced Args delay start log ->
  (delay <= t - last_time Args start log)%Z ->
  spaced Args delay start (log ++ [(t, a)]).
Proof.
  induction log as [| [t0 a0] log IH]; intros start t a Hs Ht.
  - cbn in *. now split.
  - cbn [app spaced] in *. destruct Hs as [H0 Hs]. split; [assumption |].
    apply IH; [assumption |]. exact Ht.
Qed.

(** What the throttle keeps: its log is spaced, [lastCall] is the time of
    the last invocation, and a pending timer is due [delay] after it. *)
Lemma throttle_invariant delay (events : list (Event Args)) :
  let st := fold_left (throttle_step Args delay) events (newThrottle Args) in
  spaced Args delay 0 (invoked Args st)
  /\ lastCall Args st = last_time Args 0 (invoked Args st)
  /\ (forall due a, timeout Args st = Some (due, a) -> due = (lastCall Args st + delay)%Z).
Proof.
  induction events as [| e events IH] using rev_ind.
  - cbn. repeat split. intros due a H. discriminate H.
  - rewrite fold_left_app. cbn [fold_left].
    set (st := fold_left (throttle_step Args delay) events (newThrottle Args)) in *.
    cbv zeta in IH. destruct IH as (Hs & Hl & Ht).
    destruct e as [now args | now]; cbn [throttle_step].
    + destruct (now - lastCall Args st >=? delay)%Z eqn:E; cbn [invoked lastCall timeout].
      * repeat split.
        -- apply spaced_app; [assumption |]. rewrite <- Hl.
           rewrite Z.geb_leb in E. now apply Z.leb_le in E.
        -- now rewrite last_time_app.
        -- intros due a H. discriminate H.
      * repeat split; try assumption.
        intros due a H. injection H as <- _. lia.
    + destruct (timeout Args st) as [[due args] |] eqn:Et;
        [| split; [assumption | split; [assumption | rewrite Et; exact Ht]]].
      destruct (due <=? now)%Z eqn:E; cbn [invoked lastCall timeout].
      * apply Z.leb_le in E. pose proof (Ht due args eq_refl) as Hdue.
        repeat split.
        -- apply spaced_app; [assumption |]. rewrite <- Hl. lia.
        -- now rewrite last_time_app.
        -- intros due' a H. discriminate H.
      * split; [assumption | split; [assumption | rewrite Et; exact Ht]].
Qed.

(** Whatever the calls and however late the timers, a throttled function is
    never invoked twice within [delay], nor before [delay] on the clock. *)
Theorem throttle_spacing (delay : Z) (events : list (Event Args)) :
  spaced Args delay 0
         (invoked Args (fold_left (throttle_step Args delay) events (newThrottle Args))).
Proof. exact (proj1 (throttle_invariant delay events)). Qed.

Lemma latest_call_app (events : list (Event Args)) e :
  latest_call Args (events ++ [e])
  = match e with
    | Call _ now args => Some (now, args)
    | Fire _ _ => latest_call Args events
    end.
Proof. unfold latest_call. rewrite fold_left_app. now destruct e. Qed.

(** What the debounce keeps: a pending timer is due [delay] after the
    latest call, whose arguments are the stored ones. *)
Lemma debounce_invariant delay immediate (events : list (Event Args)) :
  let st := fold_left (debounce_step Args delay immediate) events (newDebounce Args) in
  forall due, pending Args st = Some due ->
  exists tc a, latest_call Args events = Some (tc, a)
               /\ due = (tc + delay)%Z /\ lastArgs Args st = Some a.
Proof.
  induction events as [| e events IH] using rev_ind.
  - cbn. intros due H. discriminate H.
  - rewrite fold_left_app, latest_call_app. cbn [fold_left].
    set (st := fold_left (debounce_step Args delay immediate) events (newDebounce Args)) in *.
    cbv zeta in IH.
    destruct e as [now args | now]; cbn [debounce_step pending lastArgs].
    + intros due H. injection H as <-. now exists now, args.
    + destruct (pending Args st) as [due0 |] eqn:Ep;
        [| intros due H; rewrite Ep in H; discriminate H].
      destruct (due0 <=? now)%Z; cbn [pending]; [intros due H; discriminate H |].
      rewrite Ep. exact IH.
Qed.

(** A debounced function (not in immediate mode) is never invoked by a call;
    a timer invokes it with the arguments of the latest call, and no earlier
    than [delay] after that call.  In immediate mode no timer invokes it. *)
Theorem debounce_fires_latest (delay : Z) (events : list (Event Args)) (now : Z) :
  let st := fold_left (debounce_step Args delay false) events (newDebounce Args) in
  (forall args, calls Args (debounce_step Args delay false st (Call Args now args))
                = calls Args st)
  /\ (calls Args (debounce_step Args delay false st (Fire Args now)) = calls Args st
      \/ exists tc a, latest_call Args events = Some (tc, a)
                      /\ (tc + delay <= now)%Z
                      /\ calls Args (debounce_step Args delay false st (Fire Args now))
                         = calls Args st ++ [(now, a)])
  /\ (forall st', calls Args (debounce_step Args delay true st' (Fire Args now))
                  = calls Args st').
Proof.
  intros st. split; [| split].
  - intros args. reflexivity.
  - pose proof (debounce_invariant delay false events) as Hinv. cbv zeta in Hinv.
    fold st in Hinv. cbn [debounce_step].
    destruct (pending Args st) as [due |] eqn:Ep; [| now left].
    destruct (Hinv due eq_refl) as (tc & a & Hlatest & -> & Hargs).
    destruct (tc + delay <=? now)%Z eqn:E; [| now left].
    right. exists tc, a. apply Z.leb_le in E. rewrite Hargs. now repeat split.
  - intros st'. cbn [debounce_step].
    destruct (pending Args st') as [due |]; [| reflexivity].
    now destruct (due <=? now)%Z.
Qed.

End Helpers.

End SyncHelpersProofs.

(** ** Properties of the actions of [src/store/syncStore.js] *)

Module SyncActionsProofs.
Import Num NumFacts SyncStore SyncStoreProofs SyncActions.

Section Actions.

Context {Value : Type}.

Lemma vectorEqual_same x y z :
  vectorEqual (Some (PosArr x y z)) (Some (PosArr x y z)) vector_tolerance = true.
Proof.
  unfold vectorEqual, close, index, vector_tolerance; cbn.
  replace (x - x) with 0 by ring. replace (y - y) with 0 by ring.
  replace (z - z) with 0 by ring. rewrite Rabs_R0.
  now rewrite (proj2 (ltb_true 0 (1 / 1000))) by lra.
Qed.

(** The two publishers of a viewer share one remembered position: once the
    camera publisher has seen a position, the position publisher drops that
    same position, whether or not the store holds it. *)
Theorem position_suppressed_by_camera
    (x y z : R) (quat : option Quat4) (now now' : Z) (sv : Store Value * Vars) :
  let p := Some (PosArr x y z) in
  fromPanoPosition Value p now' (fromPanoCam Value p quat now sv)
  = fromPanoCam Value p quat now sv
  /\ fromForgePosition Value p now' (fromForgeCam Value p quat now sv)
     = fromForgeCam Value p quat now sv.
Proof.
  intros p. destruct sv as [s v]. split.
  - unfold fromPanoCam.
    destruct (vectorEqual p (prevPanoPos v) vector_tolerance) eqn:E; cbn [andb].
    + destruct (quatEqual quat (prevPanoQuat v) quat_tolerance).
      * unfold fromPanoPosition. now rewrite E.
      * unfold fromPanoPosition. cbn [prevPanoPos]. unfold p.
        now rewrite vectorEqual_same.
    + unfold fromPanoPosition. cbn [prevPanoPos]. unfold p.
      now rewrite vectorEqual_same.
  - unfold fromForgeCam.
    destruct (vectorEqual p (prevForgePos v) vector_tolerance) eqn:E; cbn [andb].
    + destruct (quatEqual quat (prevForgeQuat v) quat_tolerance).
      * unfold fromForgePosition. now rewrite E.
      * unfold fromForgePosition. cbn [prevForgePos]. unfold p.
        now rewrite vectorEqual_same.
    + unfold fromForgePosition. cbn [prevForgePos]. unfold p.
      now rewrite vectorEqual_same.
Qed.

Lemma elapsed_finished (now start : Z) :
  (300 <= now - start)%Z -> ltb (IZR (now - start) / 300) 1 = false.
Proof.
  intros H. apply ltb_false.
  apply IZR_le in H.
  apply Rmult_le_reg_r with 300; [lra |].
  unfold Rdiv. rewrite Rmult_assoc, Rinv_l by lra. lra.
Qed.

(** Once 300 ms have passed, an animation frame only clears [isAnimating]:
    it writes no pose, requests no further frame, and so never puts the
    target pose itself into the store. *)
Theorem animateSync_last_frame
    (slerp : Quat4 -> option Quat4 -> R -> option Quat4) (isForge : bool)
    (now : Z) (handle : nat) (s : Store Value) (v : Vars) :
  isAnimating _ s = true -> isSyncing _ s = false ->
  (300 <= now - syncStartTime _ s)%Z ->
  let '(s', v', _) := animateSync Value slerp isForge now handle (s, v) in
  s' = set Value [IsAnimating Value false] s /\ v' = v
  /\ panoPosition s' = panoPosition s /\ forgePosition s' = forgePosition s
  /\ panoCam s' = panoCam s /\ forgeCam s' = forgeCam s
  /\ isAnimating _ s' = false.
Proof.
  intros Ha Hs Ht. unfold animateSync.
  rewrite Ha, Hs. cbn [negb orb].
  rewrite (elapsed_finished _ _ Ht). cbn [negb].
  rewrite (proj2 (ltb_false 1 1)) by lra.
  destruct (if isForge then _ else _) as [[newPos newQuat] |]; now repeat split.
Qed.

Lemma lerp_same v t : lerp v v t = v.
Proof. unfold lerp. ring. Qed.

(** While the animation runs, a frame that finds the stored position held
    as an array, or with a zero [x], writes the target position at once
    instead of an interpolated one. *)
Theorem animateSync_jumps_to_target
    (slerp : Quat4 -> option Quat4 -> R -> option Quat4)
    (now : Z) (handle : nat) (s : Store Value) (v : Vars)
    (a b c : R) (targetQuat : option Quat4) (stored : Pos) (q newQuat : Quat4) :
  isAnimating _ s = true -> isSyncing _ s = false ->
  (now - syncStartTime _ s < 300)%Z ->
  targetForgePose _ s = Some (mkPose (Some (PosArr a b c)) targetQuat) ->
  forgePosition s = Some stored ->
  x_of stored = None \/ x_of stored = Some 0 ->
  quat (forgeCam s) = Some q ->
  slerp (startQuat q) targetQuat (IZR (now - syncStartTime _ s) / 300) = Some newQuat ->
  let '(s', v', returned) := animateSync Value slerp true now handle (s, v) in
  forgePosition s' = Some (PosObj a b c)
  /\ quat (forgeCam s') = Some newQuat
  /\ returned = true.
Proof.
  intros Ha Hs Ht Htarget Hstored Hx Hq Hslerp. unfold animateSync.
  rewrite Ha, Hs. cbn [negb orb].
  assert (Hlt : IZR (now - syncStartTime _ s) / 300 < 1).
  { apply IZR_lt in Ht.
    apply Rmult_lt_reg_r with 300; [lra |].
    unfold Rdiv. rewrite Rmult_assoc, Rinv_l by lra. lra. }
  rewrite (proj2 (ltb_true _ _) Hlt). cbn [negb].
  unfold framePose. rewrite Htarget, Hstored, Hq. cbn [pose_pos pose_quat].
  rewrite Hslerp, (proj2 (ltb_true _ _) Hlt).
  assert (Hor : forall w, or_else (x_of stored) w = w).
  { intros w. destruct Hx as [-> | ->]; cbn; [reflexivity |].
    now rewrite (proj2 (eqb_true 0 0)). }
  rewrite !Hor, !lerp_same. cbn. now repeat split.
Qed.

Lemma act_counters (sv : Store Value * Vars) (a : Action Value) :
  counters_ok Value (fst sv) -> counters_ok Value (fst (act Value sv a)).
Proof.
  destruct sv as [s v]. unfold counters_ok. cbn [fst]. intros [Hc Hf].
  destruct a; cbn [act].
  all: unfold smoothPano, smoothForge, smoothSyncPano, smoothSyncForge,
         fromPanoCam, fromForgeCam, fromPanoPosition, fromForgePosition,
         applyForgePose, applyPanoPose, smoothPano, smoothForge,
         smoothSyncPano, smoothSyncForge, pushFloorClick, animateSync, set.
  all: repeat match goal with
              | |- context [if ?c then _ else _] => destruct c
              | |- context [match ?c with Some _ => _ | None => _ end] =>
                  lazymatch c with
                  | context [floorClick] => fail
                  | _ => destruct c
                  end
              | |- context [let '(_, _) := ?c in _] => destruct c
              end.
  all: cbn; try (split; [lia | assumption]).
  all: destruct (floorClick Value (rest _ s)); cbn; intuition lia.
Qed.

(** Whatever is done to the store, in whatever order, the sync counter is
    never negative and the click record carries the number the click counter
    has. *)
Theorem counters_stay_ok (actions : list (Action Value)) :
  counters_ok Value (fst (fold_left (act Value) actions
                                    (initialStore Value, initialVars))).
Proof.
  assert (H : forall sv, counters_ok Value (fst sv) ->
                         counters_ok Value (fst (fold_left (act Value) actions sv))).
  { induction actions as [| a actions IH]; intros sv Hsv; [assumption |].
    cbn [fold_left]. apply IH. now apply act_counters. }
  apply H. unfold counters_ok. cbn. split; [lia | reflexivity].
Qed.

End Actions.

Lemma animateSync_last_frame_witness :
  let s := set unit [IsAnimating unit true; SyncStartTime unit 1000]
               (initialStore unit) in
  (isAnimating _ s = true /\ isSyncing _ s = false
   /\ (300 <= 1300 - syncStartTime _ s)%Z)
  /\ let '(s', v', _) :=
       animateSync unit (fun q _ _ => Some q) true 1300 1 (s, initialVars) in
     forgePosition s' = forgePosition s /\ isAnimating _ s' = false.
Proof.
  intros s.
  assert (H1 : isAnimating _ s = true) by reflexivity.
  assert (H2 : isSyncing _ s = false) by reflexivity.
  assert (H3 : (300 <= 1300 - syncStartTime _ s)%Z) by (cbn; lia).
  split; [now repeat split |].
  pose proof (@animateSync_last_frame unit (fun q _ _ => Some q) true 1300 1 s
                (initialVars) H1 H2 H3) as H.
  destruct (animateSync unit (fun q _ _ => Some q) true 1300 1 (s, initialVars))
    as [[s' v'] ok].
  destruct H as (_ & _ & _ & Hf & _ & _ & Hi). now split.
Defined.

Lemma animateSync_jumps_to_target_witness :
  let s := set unit [IsAnimating unit true;
                     TargetForgePose unit (Some (mkPose (Some (PosArr 1 2 3)) None))]
               (initialStore unit) in
  let '(s', v', returned) :=
    animateSync unit (fun q _ _ => Some q) true 100 1 (s, initialVars) in
  forgePosition s' = Some (PosObj 1 2 3).
Proof.
  intros s.
  pose proof (@animateSync_jumps_to_target unit (fun q _ _ => Some q) 100 1 s
                (initialVars) 1 2 3 None (PosObj 0 0 0) forge_quat0
                (startQuat forge_quat0)) as H.
  destruct (animateSync unit (fun q _ _ => Some q) true 100 1 (s, initialVars))
    as [[s' v'] returned].
  apply H; try reflexivity. now right.
Defined.

End SyncActionsProofs.
